(** * WorldCup-Prediction: scoring kernel, broker retry policy, one-time codes,
      session service, auth guard and worker, embedded from the TypeScript
      sources and checked against the specification. *)

From stdpp Require Import gmap strings list sets.
From Stdlib Require Import ZArith Lia Ascii.

Open Scope string_scope.

(** ** JavaScript containers shared by the services *)

Module Js.

(** [Array.prototype.includes] on an array of strings. *)
Definition includes (l : list string) (x : string) : bool :=
  existsb (String.eqb x) l.

(** [new Set(arr)]: the distinct elements of [arr] in order of first
    occurrence (the iteration order of a JavaScript [Set]). *)
Fixpoint new_Set (l : list string) : list string :=
  match l with
  | [] => []
  | x :: l' => x :: filter (fun y => x ≠ y) (new_Set l')
  end.

(** [set.has(x)] *)
Definition has (s : list string) (x : string) : bool := includes s x.

(** Lookup in a keyed collection kept in enumeration order: [obj[k]] on a
    plain object and [map.get(k)] on a [Map]. *)
Fixpoint get {A} (m : list (string * A)) (k : string) : option A :=
  match m with
  | [] => None
  | (k', v) :: m' => if String.eqb k k' then Some v else get m' k
  end.

(** A JavaScript string used as a condition: the empty string is falsy. *)
Definition truthy (s : string) : bool := negb (String.eqb s "").

End Js.

(** ** Key-value cache: src/redis/redis.service.ts over a Redis server *)

Module Redis.

(** The JSON document that [storeOtp] writes under [otp:phone:{phone}]. *)
Record OtpData := mkOtpData {
  otp_code : string;
  otp_expiresAt : Z;
  otp_attempts : Z;
  otp_phone : string;
  otp_ip : string;
  otp_userAgent : string
}.

(** What a key holds.  Redis stores strings; integers written by [incr] and
    documents written through [JSON.stringify] and read back through
    [JSON.parse] are kept in their decoded form. *)
Inductive Value :=
| Str (s : string)
| Num (n : Z)
| OtpJson (d : OtpData)
| GroupsJson (g : list (string * list string)).

Record Entry := mkEntry {
  value : Value;
  expireAt : option Z   (* absolute time in ms; [None]: no expiry *)
}.

Definition live (now : Z) (e : Entry) : bool :=
  match expireAt e with
  | Some t => (now <? t)%Z
  | None => true
  end.

Definition get (now : Z) (r : gmap string Entry) (key : string) : option Value :=
  match r !! key with
  | Some e => if live now e then Some (value e) else None
  | None => None
  end.

Definition set (r : gmap string Entry) (key : string) (v : Value)
  : gmap string Entry :=
  <[key := mkEntry v None]> r.

(** [SETEX] as the server performs it when it accepts the command, which it
    does for a positive number of seconds; [Refusal.setex] below has the
    refusal of any other. *)
Definition setex (now : Z) (r : gmap string Entry) (key : string)
           (seconds : Z) (v : Value) : gmap string Entry :=
  <[key := mkEntry v (Some (now + seconds * 1000)%Z)]> r.

Definition del (r : gmap string Entry) (key : string) : gmap string Entry :=
  delete key r.

(** [INCR]: a missing (or expired) key counts from 0; a key that does not
    hold an integer is an error of the server, raised by the client. *)
Definition incr (now : Z) (r : gmap string Entry) (key : string)
  : option (Z * gmap string Entry) :=
  match r !! key with
  | Some e =>
      if live now e then
        match value e with
        | Num n => Some ((n + 1)%Z, <[key := mkEntry (Num (n + 1)) (expireAt e)]> r)
        | _ => None
        end
      else Some (1%Z, <[key := mkEntry (Num 1) None]> r)
  | None => Some (1%Z, <[key := mkEntry (Num 1) None]> r)
  end.

Definition expire (now : Z) (r : gmap string Entry) (key : string) (seconds : Z)
  : gmap string Entry :=
  match r !! key with
  | Some e =>
      if live now e
      then <[key := mkEntry (value e) (Some (now + seconds * 1000)%Z)]> r
      else r
  | None => r
  end.

(** A reply of [get] used as a condition: [null] and the empty string are
    falsy, every other reply is a non-empty string. *)
Definition truthy (o : option Value) : bool :=
  match o with
  | None => false
  | Some (Str s) => Js.truthy s
  | Some _ => true
  end.

End Redis.

(** ** Broker adapter: src/rabbitmq/rabbitmq.service.ts *)

Module Broker.

(** The header table of a message.  [x-retry-count] and [x-last-error] are
    the two headers the service itself writes; the others are carried
    along by the object spread. *)
Record Headers := mkHeaders {
  x_retry_count : option Z;
  x_last_error : option string;
  other_headers : gmap string string
}.

Record Properties := mkProperties {
  headers : option Headers;
  other_properties : gmap string string
}.

Record Message := mkMessage {
  content : string;
  properties : Properties
}.

(** Calls on the channel, in the order they are made. *)
Inductive ChannelCall :=
| publish (exchange routingKey body : string) (options : Properties)
| ack (msg : Message)
| nack (msg : Message) (allUpTo requeue : bool).

(** [x || d] on numbers: 0 and a missing value are falsy *)
Definition or_default (x : option Z) (d : Z) : Z :=
  match x with
  | Some n => if (n =? 0)%Z then d else n
  | None => d
  end.

(** [msg.properties.headers?.['x-retry-count']] *)
Definition retry_header (msg : Message) : option Z :=
  match headers (properties msg) with
  | Some h => x_retry_count h
  | None => None
  end.

(** [{ ...msg.properties.headers, 'x-retry-count': n, 'x-last-error': e }] *)
Definition with_retry (h : option Headers) (n : Z) (e : string) : Headers :=
  match h with
  | Some h => mkHeaders (Some n) (Some e) (other_headers h)
  | None => mkHeaders (Some n) (Some e) ∅
  end.

(** [handleMessageRetry]; [configured] is
    [configService.get('rabbitmq.maxRetries')], [error] is [error.message]. *)
Definition handleMessageRetry (configured : option Z)
           (msg : Message) (queueName : string) (error : string)
  : list ChannelCall :=
  let retryCount := (or_default (retry_header msg) 0 + 1)%Z in
  let maxRetries := or_default configured 3 in
  if (retryCount <? maxRetries)%Z then
    let newHeaders := with_retry (headers (properties msg)) retryCount error in
    [publish "" queueName (content msg)
       (mkProperties (Some newHeaders) (other_properties (properties msg)));
     ack msg]
  else
    [nack msg false false].

(** [processMessage]; [outcome] is what the handler did with the decoded
    body: [None] when it returned, [Some e] when it raised an error with
    message [e]. *)
Definition processMessage (configured : option Z)
           (msg : Message) (queueName : string) (outcome : option string)
  : list ChannelCall :=
  match outcome with
  | None => [ack msg]
  | Some error => handleMessageRetry configured msg queueName error
  end.

(** A message that has already been republished twice. *)
Definition twice_retried : Message :=
  mkMessage "{}" (mkProperties (Some (mkHeaders (Some 2%Z) (Some "boom") ∅)) ∅).

End Broker.

(** ** Doubles, as far as [generateOtpCode] computes with them *)

Module Double.

(** A finite non-negative double: [mantissa * 2 ^ exponent]. *)
Record t := mk { mantissa : Z; exponent : Z }.

(** The value as a fraction [num / den]. *)
Definition num (x : t) : Z := (mantissa x * 2 ^ Z.max 0 (exponent x))%Z.
Definition den (x : t) : Z := (2 ^ Z.max 0 (- exponent x))%Z.

(** The floor of the binary logarithm of the fraction [n / d], for positive
    [n] and [d]. *)
Definition log2_floor (n d : Z) : Z :=
  if (d <=? n)%Z then Z.log2 (n / d)
  else (- Z.log2_up ((d + n - 1) / n))%Z.

(** [a / b] rounded to the nearest integer, a tie to the even one. *)
Definition round_half_even (a b : Z) : Z :=
  let k := (a / b)%Z in
  let rem := (a mod b)%Z in
  if (2 * rem <? b)%Z then k
  else if (b <? 2 * rem)%Z then (k + 1)%Z
  else if Z.even k then k else (k + 1)%Z.

(** The double nearest to the fraction [n / d] (round to nearest, ties to
    even): 53 bits of mantissa, exponents from -1074 on.  Overflow does not
    occur on the values met here and is left out. *)
Definition round (n d : Z) : t :=
  if (n =? 0)%Z then mk 0 0
  else
    let q := Z.max (log2_floor n d - 52) (-1074) in
    mk (round_half_even (n * 2 ^ Z.max 0 (- q)) (d * 2 ^ Z.max 0 q)) q.

(** [Math.floor] *)
Definition floor (x : t) : Z := (num x / den x)%Z.

End Double.

(** ** One-time codes: src/auth/otp.service.ts *)

Module Otp.

(** *** [Number.prototype.toString] on a non-negative integer below 10^21,
        where it is the decimal expansion *)

Definition digit_char (d : Z) : ascii :=
  ascii_of_nat (48 + Z.to_nat d).

(** The decimal digits of [n], most significant first, prepended to [acc];
    [fuel] bounds the number of digits. *)
Fixpoint digits_onto (fuel : nat) (n : Z) (acc : string) : string :=
  match fuel with
  | O => acc
  | S fuel' =>
      let acc' := String (digit_char (n mod 10)) acc in
      if (n <? 10)%Z then acc' else digits_onto fuel' (n / 10) acc'
  end.

(** A number has no more decimal digits than binary ones. *)
Definition toString (n : Z) : string :=
  digits_onto (S (Z.to_nat (Z.log2 n))) n "".

Definition is_digit (c : ascii) : bool :=
  let k := nat_of_ascii c in (48 <=? k)%nat && (k <=? 57)%nat.

#[global] Arguments digit_char : simpl never.
#[global] Arguments is_digit : simpl never.

Fixpoint all_digits (s : string) : bool :=
  match s with
  | EmptyString => true
  | String c s' => is_digit c && all_digits s'
  end.

(** Reading a string of decimal digits back, continuing from [v]. *)
Definition digit_val (c : ascii) : Z := (Z.of_nat (nat_of_ascii c) - 48)%Z.

#[global] Arguments digit_val : simpl never.

Fixpoint parse_onto (s : string) (v : Z) : Z :=
  match s with
  | EmptyString => v
  | String c s' => parse_onto s' (10 * v + digit_val c)%Z
  end.

(** *** [generateOtpCode] *)

(** A value of [Math.random()]: the fraction [num / den] of [0, 1). *)
Record Draw := mkDraw { num : Z; den : Z }.

Definition valid_draw (r : Draw) : Prop := (0 ≤ num r < den r)%Z.

(** The fractions of [0, 1) that are doubles: at most 53 significant bits
    over a power of two no smaller than 2^-1074. *)
Definition double_draw (r : Draw) : Prop :=
  valid_draw r ∧
  ∃ k, (0 ≤ k ≤ 1074)%Z ∧ den r = (2 ^ k)%Z ∧ (num r < 2 ^ 53)%Z.

(** [Math.floor(min + Math.random() * (max - min + 1)).toString()], with
    [length] the configured [auth.otp.length].  The product and the sum are
    rounded as the doubles of the source round them.  For [length] up to 15
    the values of [Math.pow(10, length - 1)], [Math.pow(10, length) - 1] and
    [max - min + 1] are integers below 2^53 and exact, as they are taken
    here; for a greater [length] the source rounds them too (and prints
    from 10^21 on in exponent notation), which this definition does not
    follow. *)
Definition generateOtpCode (length : Z) (r : Draw) : string :=
  let min := (10 ^ (length - 1))%Z in
  let max := (10 ^ length - 1)%Z in
  let product := Double.round (num r * (max - min + 1))%Z (den r) in
  let sum :=
    Double.round (min * Double.den product + Double.num product)%Z
                 (Double.den product) in
  toString (Double.floor sum).

#[global] Arguments generateOtpCode : simpl never.

(** *** [sendOtp] *)

Inductive Exception :=
| TooManyRequestsException (message : string)
| BadRequestException (message : string)
| Error (message : string).

Record Config := mkConfig {
  otp_length : Z;            (* auth.otp.length *)
  expirySeconds : Z;         (* auth.otp.expirySeconds *)
  sendCooldownSeconds : Z;   (* auth.otp.sendCooldownSeconds *)
  sandbox : bool             (* sms.sandbox *)
}.

(** What the call needs from outside: the clock, the random draw and the
    outcome of the SMS provider ([Some e]: it raised an error [e]). *)
Record World := mkWorld {
  now : Z;
  draw : Draw;
  sms : string → string → option string
}.

Definition otpKey (phone : string) : string := "otp:phone:" ++ phone.
Definition sendLimitKey (phone : string) : string := "otp:send:limit:" ++ phone.
Definition lastRequestKey (phone : string) : string := "otp:last_request:" ++ phone.

(** [checkRateLimits]: [Some e] when it raises. *)
Definition checkRateLimits (w : World) (r : gmap string Redis.Entry)
           (phone : string) : option Exception :=
  if Redis.truthy (Redis.get (now w) r (sendLimitKey phone)) then
    Some (TooManyRequestsException "EXCEEDED_SEND_LIMIT")
  else if Redis.truthy (Redis.get (now w) r (lastRequestKey phone)) then
    Some (TooManyRequestsException "PLEASE_WAIT_BEFORE_NEXT_REQUEST")
  else None.

Definition storeOtp (w : World) (r : gmap string Redis.Entry)
           (phone code : string) (expiry : Z) (ip userAgent : string)
  : gmap string Redis.Entry :=
  let expiresAt := (now w + expiry * 1000)%Z in
  let otpData := Redis.mkOtpData code expiresAt 0 phone ip userAgent in
  Redis.setex (now w) r (otpKey phone) expiry (Redis.OtpJson otpData).

(** [setRateLimitKeys]: two [SETEX] commands, one after the other; both are
    taken to reach the server within the same millisecond [now w] of the
    request, so that the two keys expire together. *)
Definition setRateLimitKeys (w : World) (r : gmap string Redis.Entry)
           (phone : string) (cooldownSeconds : Z) : gmap string Redis.Entry :=
  let r1 := Redis.setex (now w) r (sendLimitKey phone) cooldownSeconds (Redis.Str "1") in
  Redis.setex (now w) r1 (lastRequestKey phone) cooldownSeconds (Redis.Str "1").

(** [sendOtp]: the outcome ([inl]: the returned object's [otp] field,
    [inr]: the exception raised) and the cache afterwards.  The audit log
    and the metrics are write-only for the service and are left out. *)
Definition sendOtp (cfg : Config) (w : World) (r : gmap string Redis.Entry)
           (phone ip userAgent : string)
  : (option string + Exception) * gmap string Redis.Entry :=
  match checkRateLimits w r phone with
  | Some e => (inr e, r)
  | None =>
      let code := generateOtpCode (otp_length cfg) (draw w) in
      let r1 := storeOtp w r phone code (expirySeconds cfg) ip userAgent in
      let r2 := setRateLimitKeys w r1 phone (sendCooldownSeconds cfg) in
      match sms w phone code with
      | Some e => (inr (Error e), r2)
      | None => (inl (if sandbox cfg then Some code else None), r2)
      end
  end.

End Otp.

(** ** Sessions: src/auth/auth.service.ts with token.service.ts and
       session-cache.service.ts *)

Module Auth.

(** entities/session.entity.ts; dates are in ms since the epoch *)
Record Session := mkSession {
  id : string;
  userId : string;
  tokenHash : string;
  refreshTokenHash : option string;
  userAgent : option string;
  ipAddress : option string;
  createdAt : Z;
  expiresAt : Z
}.

#[global] Instance Session_eq_dec : EqDecision Session.
Proof. solve_decision. Defined.

(** AUTH_CONSTANTS *)
Definition PREFIX_LENGTH : nat := 16.
Definition RECENT_LOOKUP_LIMIT : nat := 3.
Definition BULK_REFRESH_LOOKUP_LIMIT : nat := 100.
Definition TOKEN_REFRESH_THRESHOLD_PER_HOUR : Z := 50.
Definition ONE_HOUR_SECONDS : Z := 3600.

(** The [auth.session] and [auth.security] part of configuration.ts *)
Record Config := mkConfig {
  tokenLength : nat;
  accessTokenTtlSeconds : Z;
  refreshTokenTtlSeconds : Z;
  ttlSeconds : Z;
  enableIpValidation : bool;
  enableUserAgentValidation : bool
}.

Definition cachePrefix : string := "session:token:".
Definition refreshCachePrefix : string := "session:refresh:".

(** The session table and the cache. *)
Record State := mkState {
  redis : gmap string Redis.Entry;
  sessions : list Session
}.

(** *** token.service.ts *)

Definition getTokenPrefix (token : string) : string :=
  String.substring 0 PREFIX_LENGTH token.

(** [/^[a-f0-9]+$/i] on one character *)
Definition is_hex (c : ascii) : bool :=
  let k := nat_of_ascii c in
  ((48 <=? k) && (k <=? 57) || (97 <=? k) && (k <=? 102)
   || (65 <=? k) && (k <=? 70))%nat.

Fixpoint all_hex (s : string) : bool :=
  match s with
  | EmptyString => true
  | String c s' => is_hex c && all_hex s'
  end.

Definition validateTokenFormat (cfg : Config) (token : string) : bool :=
  let expectedLength := (tokenLength cfg * 2)%nat in
  Js.truthy token && (String.length token =? expectedLength)%nat && all_hex token.

(** *** session-cache.service.ts *)

Definition cacheAccessToken (now : Z) (r : gmap string Redis.Entry)
           (tokenPrefix sessionId : string) (ttl : Z) : gmap string Redis.Entry :=
  Redis.setex now r (cachePrefix ++ tokenPrefix) ttl (Redis.Str sessionId).

(** The reply of [get] as a session id.  Only session ids are written under
    these keys; any other reply names no session. *)
Definition cached_id (o : option Redis.Value) : option string :=
  match o with
  | Some (Redis.Str s) => if Js.truthy s then Some s else None
  | _ => None
  end.

Definition getCachedSessionByAccessToken (now : Z) (r : gmap string Redis.Entry)
           (tokenPrefix : string) : option string :=
  cached_id (Redis.get now r (cachePrefix ++ tokenPrefix)).

Definition getCachedSessionByRefreshToken (now : Z) (r : gmap string Redis.Entry)
           (tokenPrefix : string) : option string :=
  cached_id (Redis.get now r (refreshCachePrefix ++ tokenPrefix)).

Definition invalidateAccessToken (r : gmap string Redis.Entry)
           (tokenPrefix : string) : gmap string Redis.Entry :=
  Redis.del r (cachePrefix ++ tokenPrefix).

Definition incrementRefreshFrequency (now : Z) (r : gmap string Redis.Entry)
           (user : string) : option (Z * gmap string Redis.Entry) :=
  let refreshKey := "refresh:frequency:" ++ user in
  match Redis.incr now r refreshKey with
  | Some (n, r') => Some (n, Redis.expire now r' refreshKey ONE_HOUR_SECONDS)
  | None => None
  end.

(** *** Queries on the session table *)

(** [findOne({ where: { id } })] *)
Definition findOne_id (db : list Session) (sid : string) : option Session :=
  List.find (fun s => String.eqb (id s) sid) db.

(** [ORDER BY created_at DESC]; rows created at the same instant keep
    their table order. *)
Fixpoint insert_desc (s : Session) (l : list Session) : list Session :=
  match l with
  | [] => [s]
  | x :: l' =>
      if (createdAt x <=? createdAt s)%Z then s :: l else x :: insert_desc s l'
  end.

Definition order_createdAt_desc (l : list Session) : list Session :=
  foldr insert_desc [] l.

Definition not_expired (now : Z) (s : Session) : bool := (now <? expiresAt s)%Z.

(** [find({ where: { expiresAt: MoreThan(now) }, order: { createdAt: 'DESC' },
    take: RECENT_LOOKUP_LIMIT })] *)
Definition find_recent (now : Z) (db : list Session) : list Session :=
  take RECENT_LOOKUP_LIMIT
       (order_createdAt_desc (List.filter (not_expired now) db)).

(** [find({ where: { expiresAt: MoreThan(now) }, take: BULK_REFRESH_LOOKUP_LIMIT })] *)
Definition find_bulk (now : Z) (db : list Session) : list Session :=
  take BULK_REFRESH_LOOKUP_LIMIT (List.filter (not_expired now) db).

(** [save(session)] of a loaded entity: the row with its primary key is
    rewritten; a key the table does not have is inserted. *)
Definition save (s : Session) (db : list Session) : list Session :=
  if existsb (fun x => String.eqb (id x) (id s)) db
  then map (fun x => if String.eqb (id x) (id s) then s else x) db
  else db ++ [s].

(** [delete({ id, userId })] *)
Definition delete_where (sid uid : string) (db : list Session) : list Session :=
  List.filter (fun s => negb (String.eqb (id s) sid && String.eqb (userId s) uid)) db.

(** *** auth.service.ts *)

Inductive Exception :=
| UnauthorizedException (message : string)
| ReplyError (message : string).   (* an error reply of the cache server *)

Section Service.
(** [bcrypt.compare(token, hash)] *)
Variable compare : string → string → bool.
Variable cfg : Config.
(** The clock, read once per call. *)
Variable now : Z.

Definition validateTokenFromCache (st : State) (token tokenPrefix : string)
  : option Session * State :=
  match getCachedSessionByAccessToken now (redis st) tokenPrefix with
  | None => (None, st)
  | Some cachedSessionId =>
      match findOne_id (sessions st) cachedSessionId with
      | Some session =>
          if (now <? expiresAt session)%Z then
            if compare token (tokenHash session) then (Some session, st)
            else (None, mkState (invalidateAccessToken (redis st) tokenPrefix)
                                (sessions st))
          else (None, st)
      | None => (None, st)
      end
  end.

(** [recacheSession] when the cache server accepts the [SETEX]: the state
    it leaves.  With a time to live that is not positive the server refuses
    it and the call raises; [Refusal.recacheSession] below has that outcome,
    and so for [validateTokenFromDatabase] and [validateSession]. *)
Definition recacheSession (st : State) (tokenPrefix : string) (session : Session)
  : State :=
  let sessionTtl := ttlSeconds cfg in
  let ttlRemaining := ((expiresAt session - now) / 1000)%Z in
  mkState (cacheAccessToken now (redis st) tokenPrefix (id session)
             (Z.min ttlRemaining sessionTtl))
          (sessions st).

(** The loop of [validateTokenFromDatabase] over the fetched rows. *)
Fixpoint first_verified (token : string) (rows : list Session) : option Session :=
  match rows with
  | [] => None
  | session :: rest =>
      if compare token (tokenHash session) then Some session
      else first_verified token rest
  end.

Definition validateTokenFromDatabase (st : State) (token tokenPrefix : string)
  : option Session * State :=
  match first_verified token (find_recent now (sessions st)) with
  | Some session => (Some session, recacheSession st tokenPrefix session)
  | None => (None, st)
  end.

Definition validateSession (st : State) (token : string) : option Session * State :=
  if negb (validateTokenFormat cfg token) then (None, st)
  else
    let tokenPrefix := getTokenPrefix token in
    match validateTokenFromCache st token tokenPrefix with
    | (Some session, st1) => (Some session, st1)
    | (None, st1) => validateTokenFromDatabase st1 token tokenPrefix
    end.

(** [deleteSession] on a [sessionId] and a [user] written as the database
    stores uuids: the state it leaves.  [Refusal.deleteSession] below has
    the call on any string, with the query the database refuses. *)
Definition deleteSession (st : State) (user sessionId : string) : State :=
  match List.find (fun s => String.eqb (id s) sessionId
                            && String.eqb (userId s) user) (sessions st) with
  | Some _ => mkState (redis st) (delete_where sessionId user (sessions st))
  | None => st
  end.

(** [session.refreshTokenHash] as a condition, then the comparison *)
Definition refresh_verified (refreshToken : string) (s : Session) : bool :=
  match refreshTokenHash s with
  | Some h => Js.truthy h && compare refreshToken h
  | None => false
  end.

Definition findSessionByRefreshTokenFromDatabase (st : State)
           (refreshToken : string) : option Session :=
  List.find (refresh_verified refreshToken) (find_bulk now (sessions st)).

Definition findSessionByRefreshToken (st : State) (refreshToken : string)
  : option Session :=
  let refreshPrefix := getTokenPrefix refreshToken in
  let cached :=
    match getCachedSessionByRefreshToken now (redis st) refreshPrefix with
    | Some cachedSessionId =>
        match findOne_id (sessions st) cachedSessionId with
        | Some session =>
            if (now <? expiresAt session)%Z && refresh_verified refreshToken session
            then Some session else None
        | None => None
        end
    | None => None
    end in
  match cached with
  | Some session => Some session
  | None => findSessionByRefreshTokenFromDatabase st refreshToken
  end.

(** [generateNewAccessToken]; [fresh] is the pair [generateToken()]
    returns: a new random token and its bcrypt hash. *)
Definition generateNewAccessToken (st : State) (session : Session)
           (fresh : string * string) : string * State :=
  let '(newAccessToken, newTokenHash) := fresh in
  let session' :=
    mkSession (id session) (userId session) newTokenHash
              (refreshTokenHash session) (userAgent session) (ipAddress session)
              (createdAt session) (expiresAt session) in
  let db := save session' (sessions st) in
  let newTokenPrefix := getTokenPrefix newAccessToken in
  (newAccessToken,
   mkState (cacheAccessToken now (redis st) newTokenPrefix (id session')
              (accessTokenTtlSeconds cfg))
           db).

Definition refreshSession (st : State) (refreshToken : string)
           (fresh : string * string) : (string + Exception) * State :=
  match findSessionByRefreshToken st refreshToken with
  | None => (inr (UnauthorizedException "Invalid or expired refresh token"), st)
  | Some session =>
      match incrementRefreshFrequency now (redis st) (userId session) with
      | None => (inr (ReplyError "WRONGTYPE"), st)
      | Some (_, r1) =>
          let '(accessToken, st2) :=
            generateNewAccessToken (mkState r1 (sessions st)) session fresh in
          (inl accessToken, st2)
      end
  end.

End Service.

End Auth.

(** ** Auth middleware: src/auth/guards/auth.guard.ts *)

Module Guard.
Import Auth.

Record Request := mkRequest {
  authorization : option string;     (* request.headers.authorization *)
  ip : option string;                (* request.ip *)
  remoteAddress : option string;     (* request.connection?.remoteAddress *)
  user_agent : option string         (* request.headers['user-agent'] *)
}.

Inductive Outcome :=
| Activated (user sessionId : string)   (* returns true, [request.user] set *)
| Unauthorized (message : string).

(** [s.split(' ')] *)
Fixpoint split_space (s : string) : list string :=
  match s with
  | EmptyString => [""]
  | String c s' =>
      match split_space s' with
      | [] => [String c ""]
      | w :: ws =>
          if Ascii.eqb c " "%char then "" :: w :: ws else String c w :: ws
      end
  end.

Definition extractTokenFromHeader (req : Request) : option string :=
  match authorization req with
  | None => None
  | Some authHeader =>
      if negb (Js.truthy authHeader) then None
      else match split_space authHeader with
           | type :: token :: _ => if String.eqb type "Bearer" then Some token else None
           | _ => None
           end
  end.

(** [a || b] on optional strings *)
Definition or_else (a b : option string) : option string :=
  match a with
  | Some s => if Js.truthy s then Some s else b
  | None => b
  end.

Definition truthy_opt (o : option string) : bool :=
  match o with Some s => Js.truthy s | None => false end.

Definition opt_eqb (a b : option string) : bool := bool_decide (a = b).

Definition canActivate (compare : string → string → bool) (cfg : Config) (now : Z)
           (st : State) (req : Request) : Outcome * State :=
  match extractTokenFromHeader req with
  | None => (Unauthorized "MISSING_ACCESS_TOKEN", st)
  | Some token =>
      if negb (Js.truthy token) then (Unauthorized "MISSING_ACCESS_TOKEN", st)
      else
        match validateSession compare cfg now st token with
        | (None, st') => (Unauthorized "INVALID_OR_EXPIRED_TOKEN", st')
        | (Some session, st') =>
            let currentIp := or_else (ip req) (remoteAddress req) in
            if enableIpValidation cfg && truthy_opt (ipAddress session)
               && (truthy_opt currentIp
                   && negb (opt_eqb currentIp (Some "undefined"))
                   && negb (opt_eqb (ipAddress session) currentIp))
            then (Unauthorized "SESSION_IP_MISMATCH", st')
            else (Activated (userId session) (id session), st')
        end
  end.

End Guard.

(** ** Scoring kernel: src/prediction/scoring.service.ts *)

Module Scoring.
Import Js.

(** [{ [group: string]: string[] }], as [Object.entries] enumerates it. *)
Definition UserGroups := list (string * list string).
(** [Map<string, string[]>], as [entries()] enumerates it. *)
Definition CorrectGroups := list (string * list string).

Inductive ScoringRule :=
| ALL_CORRECT | TWO_MISPLACED | THREE_MISPLACED | IRAN_GROUP_CORRECT
| PERFECT_GROUP | THREE_CORRECT | NO_MATCH.

#[global] Instance ScoringRule_eq_dec : EqDecision ScoringRule.
Proof. solve_decision. Defined.

Record ScoreDetails := mkDetails {
  description : string;
  misplacedCount : option nat;
  misplacedTeams : option (list string);
  correctGroups : option (list string);
  correctTeamsCount : option nat;
  correctTeams : option (list string);
  iranTeamId : option string;
  iranGroupTeams : option (list string);
  groupName : option string;
  teams : option (list string)
}.

Record ScoreResult := mkResult {
  score : Z;
  rule : ScoringRule;
  details : ScoreDetails
}.

(** SCORING_CONSTANTS.SCORES *)
Definition SCORES (r : ScoringRule) : Z :=
  match r with
  | ALL_CORRECT => 100
  | TWO_MISPLACED => 80
  | THREE_MISPLACED => 60
  | IRAN_GROUP_CORRECT => 50
  | PERFECT_GROUP => 40
  | THREE_CORRECT => 20
  | NO_MATCH => 0
  end.

(** helpers/prediction.helper.ts *)
Definition areSetsEqual (set1 set2 : list string) : bool :=
  (length set1 =? length set2)%nat && forallb (has set2) set1.

Fixpoint findGroupWithTeam (groups : list (string * list string))
         (teamId : string) : option string :=
  match groups with
  | [] => None
  | (group, teams) :: rest =>
      if includes teams teamId then Some group
      else findGroupWithTeam rest teamId
  end.

(** [correctGroups.get(group) || []] *)
Definition correct_of (correct : CorrectGroups) (group : string) : list string :=
  default [] (get correct group).

(** The inner loop of the misplaced count: the members of the user's set
    that the correct set does not have. *)
Definition misplaced_in (userTeams correctTeams : list string) : list string :=
  let userTeamSet := new_Set userTeams in
  let correctTeamSet := new_Set correctTeams in
  filter (fun team => negb (has correctTeamSet team) = true) userTeamSet.

Definition collectMisplaced (userGroups : UserGroups) (correct : CorrectGroups)
  : list string :=
  flat_map (fun '(group, userTeams) =>
              misplaced_in userTeams (correct_of correct group)) userGroups.

Definition isGroupPerfect (userTeams correctTeams : list string) : bool :=
  areSetsEqual (new_Set userTeams) (new_Set correctTeams).

Definition getCorrectGroupNames (userGroups : UserGroups) (correct : CorrectGroups)
  : list string :=
  flat_map (fun '(group, userTeams) =>
              if isGroupPerfect userTeams (correct_of correct group)
              then [group] else []) userGroups.

Definition intersection_of (userTeams correctTeams : list string) : list string :=
  let correctTeamSet := new_Set correctTeams in
  filter (fun team => has correctTeamSet team = true) (new_Set userTeams).

Definition countCorrectTeams (userGroups : UserGroups) (correct : CorrectGroups)
  : nat :=
  fold_left (fun correctCount '(group, userTeams) =>
               (correctCount
                + length (intersection_of userTeams (correct_of correct group)))%nat)
            userGroups 0%nat.

Definition checkIranGroupCorrect (userGroups : UserGroups) (correct : CorrectGroups)
           (iranTeamId : string) : option ScoreResult :=
  match findGroupWithTeam userGroups iranTeamId with
  | None => None
  | Some userIranGroup =>
      if negb (truthy userIranGroup) then None
      else if negb (bool_decide (Some userIranGroup
                                 = findGroupWithTeam correct iranTeamId))
      then None
      else
        let userTeammates := new_Set (default [] (get userGroups userIranGroup)) in
        let correctTeammates := new_Set (correct_of correct userIranGroup) in
        if areSetsEqual userTeammates correctTeammates then
          Some (mkResult (SCORES IRAN_GROUP_CORRECT) IRAN_GROUP_CORRECT
                  (mkDetails "All Iran teammates correctly placed"
                     None None None None None
                     (Some iranTeamId) (Some correctTeammates) None None))
        else None
  end.

Fixpoint checkPerfectGroup (userGroups : UserGroups) (correct : CorrectGroups)
  : option ScoreResult :=
  match userGroups with
  | [] => None
  | (group, userTeams) :: rest =>
      let userTeamSet := new_Set userTeams in
      let correctTeamSet := new_Set (correct_of correct group) in
      if areSetsEqual userTeamSet correctTeamSet then
        Some (mkResult (SCORES PERFECT_GROUP) PERFECT_GROUP
                (mkDetails "One entire group fully correct"
                   None None None None None None None
                   (Some group) (Some correctTeamSet)))
      else checkPerfectGroup rest correct
  end.

Fixpoint checkThreeCorrect (userGroups : UserGroups) (correct : CorrectGroups)
  : option ScoreResult :=
  match userGroups with
  | [] => None
  | (group, userTeams) :: rest =>
      let intersection := intersection_of userTeams (correct_of correct group) in
      if (length intersection =? 3)%nat then
        Some (mkResult (SCORES THREE_CORRECT) THREE_CORRECT
                (mkDetails "3 teams correct in one group"
                   None None None None (Some intersection) None None
                   (Some group) None))
      else checkThreeCorrect rest correct
  end.

(** Whether a rule check returned a result. *)
Definition fired (o : option ScoreResult) : bool :=
  match o with Some _ => true | None => false end.

(** The guarded call of rule 4: [if (iranTeamId) { ... }]. *)
Definition iranScore (iranTeamId : option string)
           (userGroups : UserGroups) (correct : CorrectGroups) : option ScoreResult :=
  match iranTeamId with
  | Some id =>
      if truthy id then checkIranGroupCorrect userGroups correct id else None
  | None => None
  end.

(** [scoreUser]; [iranTeamId] is [iranTeam?.id], the id of the team whose
    English name is SCORING_CONSTANTS.IRAN_TEAM_NAME, when there is one. *)
Definition scoreUser (iranTeamId : option string)
           (userGroups : UserGroups) (correct : CorrectGroups) : ScoreResult :=
  let misplacedTeams := collectMisplaced userGroups correct in
  let misplacedCount := length misplacedTeams in
  if (misplacedCount =? 0)%nat then
    mkResult (SCORES ALL_CORRECT) ALL_CORRECT
      (mkDetails "All 48 teams correctly placed"
         (Some 0%nat) (Some [])
         (Some (getCorrectGroupNames userGroups correct))
         (Some (countCorrectTeams userGroups correct))
         None None None None None)
  else if (misplacedCount =? 2)%nat then
    mkResult (SCORES TWO_MISPLACED) TWO_MISPLACED
      (mkDetails "Only 2 teams misplaced"
         (Some 2%nat) (Some misplacedTeams) None None None None None None None)
  else if (misplacedCount =? 3)%nat then
    mkResult (SCORES THREE_MISPLACED) THREE_MISPLACED
      (mkDetails "Only 3 teams misplaced"
         (Some 3%nat) (Some misplacedTeams) None None None None None None None)
  else
    match iranScore iranTeamId userGroups correct with
    | Some r => r
    | None =>
        match checkPerfectGroup userGroups correct with
        | Some r => r
        | None =>
            match checkThreeCorrect userGroups correct with
            | Some r => r
            | None =>
                mkResult (SCORES NO_MATCH) NO_MATCH
                  (mkDetails "No scoring rules matched"
                     (Some misplacedCount) (Some misplacedTeams)
                     None None None None None None None)
            end
        end
    end.

(** The control flow of [scoreUser] on the outcome of its four tests. *)
Definition decide_rule (misplacedCount : nat) (iran perfect three : bool)
  : ScoringRule :=
  if (misplacedCount =? 0)%nat then ALL_CORRECT
  else if (misplacedCount =? 2)%nat then TWO_MISPLACED
  else if (misplacedCount =? 3)%nat then THREE_MISPLACED
  else if iran then IRAN_GROUP_CORRECT
  else if perfect then PERFECT_GROUP
  else if three then THREE_CORRECT
  else NO_MATCH.

(** The literal scenario of the specification: 48 entities ["1".."48"],
    truth [A = 1..4, B = 5..8, ...]. *)
Definition truth12 : CorrectGroups :=
  [("A", ["1";"2";"3";"4"]); ("B", ["5";"6";"7";"8"]);
   ("C", ["9";"10";"11";"12"]); ("D", ["13";"14";"15";"16"]);
   ("E", ["17";"18";"19";"20"]); ("F", ["21";"22";"23";"24"]);
   ("G", ["25";"26";"27";"28"]); ("H", ["29";"30";"31";"32"]);
   ("I", ["33";"34";"35";"36"]); ("J", ["37";"38";"39";"40"]);
   ("K", ["41";"42";"43";"44"]); ("L", ["45";"46";"47";"48"])].

End Scoring.

(** ** Worker: src/prediction/prediction.processor.ts with
       services/group-data.service.ts, helpers/prediction.helper.ts,
       mappers/score-result.mapper.ts and the synchronous mode of
       prediction.service.ts *)

Module Worker.
Import Scoring.

(** entities/team.entity.ts *)
Record Team := mkTeam {
  team_id : string;
  faName : string;
  engName : string;
  order : Z;
  group : option string;   (* nullable column *)
  flag : string
}.

(** An element of a group's array in a stored [predict]. *)
Inductive Element :=
| Id (team : string)
| Ids (teams : list string).

(** The value under a key of a stored [predict]: an array, of ids or of
    arrays of ids, or a plain object, as in the body
    [{ groups: { A: [...], ... } }] of dto/create-prediction.dto.ts.
    Values of other kinds are outside the model. *)
Inductive Value :=
| Array (elements : list Element)
| PlainObject (fields : list (string * Value)).

(** entities/prediction.entity.ts.  The column is [jsonb] and
    [createPrediction] stores the [predict] member of the request as it
    arrives, so a row holds any object, whatever the entity declares. *)
Record Prediction := mkPrediction {
  prediction_id : string;
  prediction_userId : string;
  predict : list (string * Value);
  prediction_createdAt : Z
}.

Record LegacyDetails := mkLegacy {
  legacy_correctGroups : list string;
  legacy_correctTeams : nat;
  iranGroupCorrect : bool;
  perfectGroups : nat;
  scoringBreakdown : list (Z * Z * string)   (* type, score, description *)
}.

(** entities/result.entity.ts; [result_id] stands for the generated uuid *)
Record Result := mkResultRow {
  result_id : N;
  predictionId : string;
  result_userId : string;
  totalScore : Z;
  result_details : LegacyDetails;
  processedAt : Z
}.

Record PredictionJob := mkJob {
  job_predictionId : option string;   (* [None]: missing or not a string *)
  job_userId : option string
}.

(** The tables, the cache and the id generator of the result table. *)
Record State := mkState {
  teams : list Team;              (* as [ORDER BY group, order] returns them *)
  predictions : list Prediction;
  results : list Result;
  next_result_id : N;
  redis : gmap string Redis.Entry
}.

Definition CORRECT_GROUPS : string := "correct-groups".
Definition STATS_PROCESSED : string := "prediction:stats:processed".
Definition CACHE_TTL_CORRECT_GROUPS : Z := 3600.
Definition IRAN_TEAM_NAME : string := "Iran".


(** [teams.flat()] *)
Definition flat (elements : list Element) : list string :=
  concat (map (fun e => match e with Id t => [t] | Ids ts => ts end) elements).

(** A group after [flattenPredictionGroups]: the flat array, or the value
    that is not an array, as it was. *)
Inductive Flattened :=
| Teams (ids : list string)
| NotArray (fields : list (string * Value)).

(** helpers/prediction.helper.ts:
    [Array.isArray(teams) ? teams.flat() : teams] per group *)
Definition flattenPredictionGroups (p : list (string * Value))
  : list (string * Flattened) :=
  map (fun '(g, ts) =>
         (g, match ts with
             | Array elements => Teams (flat elements)
             | PlainObject fields => NotArray fields
             end)) p.

Inductive Raised :=
| Error (message : string)
| TypeError.   (* [new Set(x)] on a value that is not iterable *)

(** The groups as [scoreUser] can iterate over them: [None] when one of
    them is not iterable. *)
Fixpoint iterable (userGroups : list (string * Flattened)) : option UserGroups :=
  match userGroups with
  | [] => Some []
  | (g, Teams ids) :: rest =>
      match iterable rest with
      | Some u => Some ((g, ids) :: u)
      | None => None
      end
  | (g, NotArray _) :: rest => None
  end.

(** A [predict] as the entity declares it, [string[][]] under every
    group, among the stored objects. *)
Definition typed (p : list (string * list (list string)))
  : list (string * Value) :=
  map (fun '(g, tss) => (g, Array (map Ids tss))) p.

(** [Array.isArray] holds of every group. *)
Definition all_arrays (p : list (string * Value)) : bool :=
  forallb (fun '(g, ts) => match ts with Array _ => true | PlainObject _ => false end) p.

(** [scoreUser] as the worker calls it: its first loop builds
    [new Set(userTeams)] for every group before any rule is looked at, and
    raises a TypeError on a group that is not iterable. *)
Definition scoreUser (iranTeamId : option string)
           (userGroups : list (string * Flattened)) (correct : CorrectGroups)
  : ScoreResult * UserGroups + Raised :=
  match iterable userGroups with
  | Some u => inl (Scoring.scoreUser iranTeamId u correct, u)
  | None => inr TypeError
  end.

(** [groups.get(team.group).push(team.id)], creating the group when the
    map does not have it yet *)
Fixpoint push_team (g tid : string) (groups : CorrectGroups) : CorrectGroups :=
  match groups with
  | [] => [(g, [tid])]
  | (g', ts) :: rest =>
      if String.eqb g' g then (g', (ts ++ [tid])%list) :: rest
      else (g', ts) :: push_team g tid rest
  end.

Definition group_teams (ts : list Team) : CorrectGroups :=
  fold_left (fun groups team =>
               match group team with
               | Some g => if Js.truthy g then push_team g (team_id team) groups
                           else groups
               | None => groups
               end) ts [].

(** [getCorrectGroups]: [None] when the cached document does not parse as
    the list of entries it was written as. *)
Definition getCorrectGroups (now : Z) (st : State)
  : option (CorrectGroups * gmap string Redis.Entry) :=
  let cached := Redis.get now (redis st) CORRECT_GROUPS in
  if Redis.truthy cached then
    match cached with
    | Some (Redis.GroupsJson g) => Some (g, redis st)
    | _ => None
    end
  else
    let groups := group_teams (teams st) in
    Some (groups,
          Redis.setex now (redis st) CORRECT_GROUPS CACHE_TTL_CORRECT_GROUPS
                      (Redis.GroupsJson groups)).

(** [getTeamByName] *)
Definition getTeamByName (name : string) (ts : list Team) : option Team :=
  List.find (fun t => String.eqb (engName t) name) ts.

Definition ruleType (r : ScoringRule) : Z :=
  match r with
  | ALL_CORRECT => 1 | TWO_MISPLACED => 2 | THREE_MISPLACED => 3
  | IRAN_GROUP_CORRECT => 4 | PERFECT_GROUP => 5 | THREE_CORRECT => 6
  | NO_MATCH => 0
  end.

Definition mapScoreResultToLegacyDetails (scoreResult : ScoreResult)
           (userGroups : UserGroups) (correct : CorrectGroups) : LegacyDetails :=
  let correctGroupNames := getCorrectGroupNames userGroups correct in
  mkLegacy correctGroupNames
           (countCorrectTeams userGroups correct)
           (bool_decide (rule scoreResult = IRAN_GROUP_CORRECT))
           (length correctGroupNames)
           [(ruleType (rule scoreResult), score scoreResult,
             description (details scoreResult))].

(** [!x || typeof x !== 'string'] *)
Definition invalid_id (x : option string) : bool :=
  match x with
  | Some s => negb (Js.truthy s)
  | None => true
  end.

(** [processPredictionJob]: [Some e] when it raises [e], and the state
    afterwards.  Metrics and logs are left out.  The ids of a job are
    compared with the stored ones as strings: a job carries an id as the
    dispatcher read it from the prediction table. *)
Definition processPredictionJob (now : Z) (job : PredictionJob) (st : State)
  : option Raised * State :=
  if invalid_id (job_predictionId job) then (Some (Error "Invalid predictionId"), st)
  else if invalid_id (job_userId job) then (Some (Error "Invalid userId"), st)
  else
    let pid := default "" (job_predictionId job) in
    match List.find (fun r => String.eqb (predictionId r) pid) (results st) with
    | Some existingResult => (None, st)
    | None =>
        match List.find (fun p => String.eqb (prediction_id p) pid)
                        (predictions st) with
        | None => (None, st)
        | Some prediction =>
            match getCorrectGroups now st with
            | None => (Some (Error "Unexpected token in JSON"), st)
            | Some (correct, r1) =>
                let userGroups := flattenPredictionGroups (predict prediction) in
                let iranTeamId :=
                  team_id <$> getTeamByName IRAN_TEAM_NAME (teams st) in
                match scoreUser iranTeamId userGroups correct with
                | inr e =>
                    (Some e,
                     mkState (teams st) (predictions st) (results st)
                             (next_result_id st) r1)
                | inl (scoreResult, u) =>
                    let legacyDetails :=
                      mapScoreResultToLegacyDetails scoreResult u correct in
                    let result :=
                      mkResultRow (next_result_id st) (prediction_id prediction)
                                  (prediction_userId prediction)
                                  (score scoreResult) legacyDetails now in
                    match Redis.incr now r1 STATS_PROCESSED with
                    | None =>
                        (Some (Error "WRONGTYPE"),
                         mkState (teams st) (predictions st)
                                 ((results st ++ [result])%list)
                                 (N.succ (next_result_id st)) r1)
                    | Some (_, r2) =>
                        (None,
                         mkState (teams st) (predictions st)
                                 ((results st ++ [result])%list)
                                 (N.succ (next_result_id st)) r2)
                    end
                end
            end
        end
    end.

(** The broker delivering the same job again and again, one delivery after
    the other, at the given times: what each delivery raised, and the
    state in the end. *)
Fixpoint deliver (times : list Z) (job : PredictionJob) (st : State)
  : list (option Raised) * State :=
  match times with
  | [] => ([], st)
  | now :: later =>
      let '(outcome, st1) := processPredictionJob now job st in
      let '(outcomes, st2) := deliver later job st1 in
      (outcome :: outcomes, st2)
  end.

(** Result rows of one submission. *)
Definition rows_of (pid : string) (rs : list Result) : list Result :=
  List.filter (fun r => String.eqb (predictionId r) pid) rs.

(** A job as the dispatcher publishes it: both ids are non-empty strings. *)
Definition well_formed (job : PredictionJob) : Prop :=
  invalid_id (job_predictionId job) = false ∧ invalid_id (job_userId job) = false.

Definition job_submission (job : PredictionJob) : string :=
  default "" (job_predictionId job).

(** At most one result row per submission. *)
Definition at_most_one_result (st : State) : Prop :=
  ∀ pid, (length (rows_of pid (results st)) ≤ 1)%nat.

(** The cached grouping, when there is one, is a document written by
    [getCorrectGroups]. *)
Definition groups_cache_ok (r : gmap string Redis.Entry) : Prop :=
  ∀ e, r !! CORRECT_GROUPS = Some e → ∃ g, Redis.value e = Redis.GroupsJson g.

(** *** [processPredictionBatch] of prediction.service.ts, the synchronous
        mode *)

(** [ORDER BY created_at ASC]; rows created at the same instant keep their
    table order. *)
Fixpoint insert_asc (p : Prediction) (l : list Prediction) : list Prediction :=
  match l with
  | [] => [p]
  | x :: l' =>
      if (prediction_createdAt p <? prediction_createdAt x)%Z
      then p :: l else x :: insert_asc p l'
  end.

Definition order_createdAt_asc (l : list Prediction) : list Prediction :=
  foldr insert_asc [] l.

(** The rows of one page, in order: [Some e] when scoring raised [e]
    before the page was complete.  [clock] is the time at which the row with
    the given number is created. *)
Fixpoint score_page (clock : nat → Z) (iranTeamId : option string)
         (correct : CorrectGroups) (number : nat) (next_id : N)
         (page : list Prediction) : list Result + Raised :=
  match page with
  | [] => inl []
  | prediction :: rest =>
      match scoreUser iranTeamId (flattenPredictionGroups (predict prediction))
                      correct with
      | inr e => inr e
      | inl (scoreResult, u) =>
          let row :=
            mkResultRow next_id (prediction_id prediction)
                        (prediction_userId prediction) (score scoreResult)
                        (mapScoreResultToLegacyDetails scoreResult u correct)
                        (clock number) in
          match score_page clock iranTeamId correct (S number) (N.succ next_id)
                           rest with
          | inl rows => inl (row :: rows)
          | inr e => inr e
          end
      end
  end.

(** The loop over the pages; [fuel] bounds the number of pages. *)
Fixpoint batch_pages (fuel : nat) (clock : nat → Z) (batchSize : nat)
         (iranTeamId : option string) (correct : CorrectGroups)
         (sorted : list Prediction) (offset : nat)
         (rs : list Result) (next_id : N)
  : option Raised * (list Result * N) :=
  match fuel with
  | O => (None, (rs, next_id))
  | S fuel' =>
      match take batchSize (drop offset sorted) with
      | [] => (None, (rs, next_id))
      | page =>
          match score_page clock iranTeamId correct offset next_id page with
          | inr e => (Some e, (rs, next_id))
          | inl rows =>
              batch_pages fuel' clock batchSize iranTeamId correct sorted
                          (offset + batchSize) (rs ++ rows)%list
                          (next_id + N.of_nat (length rows))%N
          end
      end
  end.

(** [processPredictionBatch]; [batchSize] is the effective page size, which
    configuration.ts keeps between 1 and 5000, so that a page past the last
    prediction is reached within as many pages as there are predictions,
    plus one. *)
Definition processPredictionBatch (now : Z) (clock : nat → Z) (batchSize : nat)
           (st : State) : option Raised * State :=
  match getCorrectGroups now st with
  | None => (Some (Error "Unexpected token in JSON"), st)
  | Some (correct, r1) =>
      let iranTeamId := team_id <$> getTeamByName IRAN_TEAM_NAME (teams st) in
      let sorted := order_createdAt_asc (predictions st) in
      let '(outcome, (rs, next_id)) :=
        batch_pages (S (length sorted)) clock batchSize iranTeamId correct
                    sorted 0 (results st) (next_result_id st) in
      (outcome, mkState (teams st) (predictions st) rs next_id r1)
  end.

End Worker.

(** ** The scoring rules as the specification words them *)

Module ScoringSpec.
Import Scoring.

(** [m[g]] read as a set of entity ids; a label the mapping does not have
    gives the empty set. *)
Definition group_set (m : list (string * list string)) (g : string) : gset string :=
  list_to_set (default [] (Js.get m g)).

Definition labels (m : list (string * list string)) : list string := m.*1.

(** misplaced = sum over group labels of |user[g] \ truth[g]| *)
Definition misplaced (user truth : list (string * list string)) : nat :=
  sum_list ((fun g => size (group_set user g ∖ group_set truth g)) <$> labels user).

(** [g] is the label of the group of [e] in [m]: the group that lists [e];
    when a submission lists [e] more than once, the one enumerated first. *)
Definition label_of (m : list (string * list string)) (e g : string) : Prop :=
  ∃ i ts, m !! i = Some (g, ts) ∧ e ∈ ts ∧
          ∀ j g' ts', (j < i)%nat → m !! j = Some (g', ts') → e ∉ ts'.

(** The condition column of the rule table. *)
Definition condition (designated : option string)
           (user truth : list (string * list string)) (r : ScoringRule) : Prop :=
  match r with
  | ALL_CORRECT => misplaced user truth = 0%nat
  | TWO_MISPLACED => misplaced user truth = 2%nat
  | THREE_MISPLACED => misplaced user truth = 3%nat
  | IRAN_GROUP_CORRECT =>
      ∃ e g, designated = Some e ∧ label_of user e g ∧ label_of truth e g ∧
             group_set user g = group_set truth g
  | PERFECT_GROUP =>
      ∃ g, g ∈ labels user ∧ group_set user g = group_set truth g
  | THREE_CORRECT =>
      ∃ g, g ∈ labels user ∧ size (group_set user g ∩ group_set truth g) = 3%nat
  | NO_MATCH => True
  end.

(** The fixed priority order and the score column. *)
Definition priority : list ScoringRule :=
  [ALL_CORRECT; TWO_MISPLACED; THREE_MISPLACED; IRAN_GROUP_CORRECT;
   PERFECT_GROUP; THREE_CORRECT; NO_MATCH].

Definition score_of (r : ScoringRule) : Z :=
  match r with
  | ALL_CORRECT => 100 | TWO_MISPLACED => 80 | THREE_MISPLACED => 60
  | IRAN_GROUP_CORRECT => 50 | PERFECT_GROUP => 40 | THREE_CORRECT => 20
  | NO_MATCH => 0
  end.

(** [r] is the first rule of the priority order whose condition holds. *)
Definition first_satisfied (P : ScoringRule → Prop) (r : ScoringRule) : Prop :=
  ∃ i, priority !! i = Some r ∧ P r ∧
       ∀ j r', (j < i)%nat → priority !! j = Some r' → ¬ P r'.

Definition score_values : list Z := [0; 20; 40; 50; 60; 80; 100]%Z.

(** [m'] is [m] with the entity ids permuted inside each group's sequence:
    the same labels in the same order, each with a permutation of its ids. *)
Definition permuted_within (m m' : list (string * list string)) : Prop :=
  Forall2 (fun a b => a.1 = b.1 ∧ a.2 ≡ₚ b.2) m m'.

End ScoringSpec.

(** ** Frame conditions on the session table, as the specification words them *)

Module AuthSpec.
Import Auth.

(** The row [x] with its access hash overwritten by [h] and every other
    stored field as it was. *)
Definition rehashed (h : string) (x : Session) : Session :=
  mkSession (id x) (userId x) h (refreshTokenHash x) (userAgent x)
            (ipAddress x) (createdAt x) (expiresAt x).

(** The table after the access hash of the session with id [sid], and
    nothing else, was overwritten by [h]. *)
Definition only_access_hash_rewritten (sid h : string) (db : list Session)
  : list Session :=
  map (fun x => if String.eqb (id x) sid then rehashed h x else x) db.

(** The session [deleteSession] is asked to remove. *)
Definition targeted (user sessionId : string) (s : Session) : Prop :=
  id s = sessionId ∧ userId s = user.

End AuthSpec.

(** ** Scoring kernel: the counting helpers of scoring.service.ts and the
       payload helper of helpers/prediction.helper.ts *)

Module ScoringAux.
Import Js Scoring.

(** [countPerfectGroups] *)
Definition countPerfectGroups (userGroups : UserGroups) (correct : CorrectGroups)
  : nat :=
  length (List.filter
            (fun '(group, userTeams) =>
               isGroupPerfect userTeams (correct_of correct group))
            userGroups).

(** [countThreeCorrectTeamsGroups] *)
Definition countThreeCorrectTeamsGroups (userGroups : UserGroups)
           (correct : CorrectGroups) : nat :=
  fold_left (fun threeCorrectCount '(group, userTeams) =>
               let correctInGroup :=
                 length (intersection_of userTeams (correct_of correct group)) in
               if (3 <=? correctInGroup)%nat
               then (threeCorrectCount + 1)%nat else threeCorrectCount)
            userGroups 0%nat.

(** A stored payload whose groups wrap every entity id in an array of its
    own: [["t1"], ["t2"], ...]. *)
Definition wrapped (u : UserGroups) : list (string * list (list string)) :=
  map (fun '(g, ts) => (g, map (fun t => [t]) ts)) u.

(** The number of distinct ids a prediction lists, group by group. *)
Definition listed (u : UserGroups) : nat :=
  sum_list ((fun p => size (list_to_set p.2 : gset string)) <$> u).

End ScoringAux.

(** ** Broker adapter: a failing message through the queue *)

Module BrokerAux.
Import Broker.

(** A call that settles the delivery: [ack] or [nack]. *)
Definition settles (c : ChannelCall) : bool :=
  match c with
  | publish _ _ _ _ => false
  | ack _ => true
  | nack _ _ _ => true
  end.

(** The message the broker delivers next to the consumer of [queueName]
    after these calls: the one published to the default exchange with the
    queue's name as routing key, when there is one. *)
Definition redelivered (queueName : string) (calls : list ChannelCall)
  : option Message :=
  match calls with
  | publish exchange routingKey body options :: _ =>
      if String.eqb exchange "" && String.eqb routingKey queueName
      then Some (mkMessage body options) else None
  | _ => None
  end.

(** The number of times a handler that raises [error] on every delivery
    receives the message, counting at most [fuel] deliveries. *)
Fixpoint deliveries (fuel : nat) (configured : option Z) (msg : Message)
         (queueName error : string) : nat :=
  match fuel with
  | O => O
  | S fuel' =>
      match redelivered queueName
              (processMessage configured msg queueName (Some error)) with
      | Some msg' => S (deliveries fuel' configured msg' queueName error)
      | None => 1
      end
  end.

(** A message as [publishToQueue] sends it: no headers yet. *)
Definition fresh_message (body : string) : Message :=
  mkMessage body (mkProperties None ∅).

End BrokerAux.

(** ** Verifying a one-time code: [verifyOtp] of src/auth/otp.service.ts with
       services/user.service.ts and the failure counters of
       services/fraud-detection.service.ts *)

Module OtpVerify.
Import Otp.

(** entities/user.entity.ts *)
Record User := mkUser {
  user_id : string;
  user_phone : string;
  user_createdAt : Z;
  user_updatedAt : Z;
  lastLoginAt : option Z
}.

Record State := mkState {
  redis : gmap string Redis.Entry;
  users : list User
}.

Record Config := mkConfig {
  maxVerifyAttempts : Z;      (* auth.otp.maxVerifyAttempts *)
  verifyWindowSeconds : Z     (* auth.rateLimit.verifyWindowSeconds *)
}.

Definition ONE_HOUR_SECONDS : Z := 3600.

Definition attemptKey (phone : string) : string := "otp:verify:attempts:" ++ phone.
Definition failureKey (phone : string) : string := "otp:failures:" ++ phone.
Definition ipFailureKey (ip : string) : string := "otp:ip:failures:" ++ ip.

(** *** user.service.ts *)

Fixpoint filter_chars (keep : ascii → bool) (s : string) : string :=
  match s with
  | EmptyString => EmptyString
  | String c s' =>
      if keep c then String c (filter_chars keep s') else filter_chars keep s'
  end.

(** [/[^\d+]/g] removes every character that is neither a digit nor '+'. *)
Definition digit_or_plus (c : ascii) : bool :=
  is_digit c || Ascii.eqb c "+"%char.

Definition normalizePhoneNumber (phone : string) : string :=
  let normalized := filter_chars digit_or_plus phone in
  if String.prefix "98" normalized && negb (String.prefix "+98" normalized)
  then "+" ++ normalized
  else normalized.

(** [findOrCreateUser]; [new_id] is the id the database generates when the
    user is created. *)
Definition findOrCreateUser (now : Z) (new_id : string) (us : list User)
           (phone : string) : User * list User :=
  match List.find (fun u => String.eqb (user_phone u) phone) us with
  | Some user =>
      let user' := mkUser (user_id user) (user_phone user) (user_createdAt user)
                          now (Some now) in
      (user',
       map (fun u => if String.eqb (user_id u) (user_id user) then user' else u) us)
  | None =>
      let user := mkUser new_id phone now now (Some now) in
      (user, (us ++ [user])%list)
  end.

(** *** fraud-detection.service.ts: [trackOtpFailureByPhone] and
        [trackOtpFailureByIp], without the audit entry *)

Definition trackFailure (now : Z) (r : gmap string Redis.Entry) (key : string)
  : option (gmap string Redis.Entry) :=
  match Redis.incr now r key with
  | Some (_, r') => Some (Redis.expire now r' key ONE_HOUR_SECONDS)
  | None => None
  end.

(** *** [verifyOtp] *)

Definition verifyOtp (cfg : Config) (now : Z) (new_id : string) (st : State)
           (phone code : string) : (string + Exception) * State :=
  (* checkVerifyAttempts *)
  match Redis.incr now (redis st) (attemptKey phone) with
  | None => (inr (Error "WRONGTYPE"), st)
  | Some (attempts, r0) =>
      let r1 := Redis.expire now r0 (attemptKey phone) (verifyWindowSeconds cfg) in
      if (maxVerifyAttempts cfg <? attempts)%Z then
        match trackFailure now r1 (failureKey phone) with
        | None => (inr (Error "WRONGTYPE"), mkState r1 (users st))
        | Some r2 =>
            (inr (TooManyRequestsException "EXCEEDED_VERIFICATION_ATTEMPTS"),
             mkState r2 (users st))
        end
      else
        (* getStoredOtp *)
        let stored := Redis.get now r1 (otpKey phone) in
        if negb (Redis.truthy stored) then
          (inr (BadRequestException "OTP_NOT_FOUND_OR_EXPIRED"), mkState r1 (users st))
        else
          match stored with
          | Some (Redis.OtpJson otpData) =>
              (* validateOtpExpiration *)
              if (Redis.otp_expiresAt otpData <? now)%Z then
                (inr (BadRequestException "OTP_EXPIRED"),
                 mkState (Redis.del r1 (otpKey phone)) (users st))
              (* validateOtpCode *)
              else if negb (String.eqb (Redis.otp_code otpData) code) then
                match trackFailure now r1 (ipFailureKey (Redis.otp_ip otpData)) with
                | None => (inr (Error "WRONGTYPE"), mkState r1 (users st))
                | Some r2 =>
                    (inr (BadRequestException "INVALID_OTP_CODE"),
                     mkState r2 (users st))
                end
              else
                (* cleanupOtpData, then the user *)
                let r2 := Redis.del (Redis.del r1 (otpKey phone)) (attemptKey phone) in
                let normalizedPhone := normalizePhoneNumber phone in
                let '(user, us) :=
                  findOrCreateUser now new_id (users st) normalizedPhone in
                (inl (user_id user), mkState r2 us)
          | _ => (inr (Error "Unexpected token in JSON"), mkState r1 (users st))
          end
  end.

(** The key is free or holds a number, so that [INCR] on it succeeds. *)
Definition countable (now : Z) (r : gmap string Redis.Entry) (key : string) : Prop :=
  ∀ v, Redis.get now r key = Some v → ∃ n, v = Redis.Num n.

End OtpVerify.

(** ** Sessions: the rest of src/auth/auth.service.ts and the scheduled
       cleanup of services/session-cleanup.service.ts *)

Module Sessions.
Import Auth.

Definition cacheRefreshToken (now : Z) (r : gmap string Redis.Entry)
           (tokenPrefix sessionId : string) (ttl : Z) : gmap string Redis.Entry :=
  Redis.setex now r (refreshCachePrefix ++ tokenPrefix) ttl (Redis.Str sessionId).

(** [createSession] with [generateSessionTokens] and [cacheSessionTokens].
    [new_id] is the id the database generates for the row; [access] and
    [refresh] are the two pairs (token, hash) that [generateToken()]
    returns.  The concurrent-session check only writes to the audit log;
    [createdAt] is filled in by the database when the row is inserted. *)
Definition createSession (cfg : Config) (now : Z) (st : State)
           (user ip agent new_id : string) (access refresh : string * string)
  : Session * string * string * State :=
  let '(accessToken, tokenHash) := access in
  let '(refreshToken, refreshTokenHash) := refresh in
  let session :=
    mkSession new_id user tokenHash (Some refreshTokenHash) (Some agent) (Some ip)
              now (now + refreshTokenTtlSeconds cfg * 1000)%Z in
  let db := (sessions st ++ [session])%list in
  let r1 := cacheAccessToken now (redis st) (getTokenPrefix accessToken)
                             (id session) (accessTokenTtlSeconds cfg) in
  let r2 := cacheRefreshToken now r1 (getTokenPrefix refreshToken)
                              (id session) (refreshTokenTtlSeconds cfg) in
  (session, accessToken, refreshToken, mkState r2 db).

(** [getUserSessions] *)
Definition getUserSessions (st : State) (user : string) : list Session :=
  order_createdAt_desc
    (List.filter (fun s => String.eqb (userId s) user) (sessions st)).

(** [deleteAllUserSessions] *)
Definition deleteAllUserSessions (st : State) (user : string) : State :=
  mkState (redis st)
          (List.filter (fun s => negb (String.eqb (userId s) user)) (sessions st)).

(** [expiresAt: LessThan(now)] *)
Definition expired (now : Z) (s : Session) : bool := (expiresAt s <? now)%Z.

(** [cleanupExpiredSessions]: the count it returns and the state afterwards.
    The query and the deletion each read the clock, [found_at] and
    [deleted_at]; nothing else touches the table between the two. *)
Definition cleanupExpiredSessions (found_at deleted_at : Z) (st : State)
  : nat * State :=
  let expiredSessions := List.filter (expired found_at) (sessions st) in
  let count := length expiredSessions in
  if (count =? 0)%nat then (0%nat, st)
  else (count,
        mkState (redis st)
                (List.filter (fun s => negb (expired deleted_at s)) (sessions st))).

(** [getExpiredSessionsCount] and [getActiveSessionsCount] *)
Definition getExpiredSessionsCount (now : Z) (st : State) : nat :=
  length (List.filter (expired now) (sessions st)).

Definition getActiveSessionsCount (now : Z) (st : State) : nat :=
  length (List.filter (not_expired now) (sessions st)).

End Sessions.

(** ** Calls that the cache server or the database refuses

    The session service above is followed as long as the servers accept
    what they are sent.  Two of its calls can be refused, and the client
    library then raises: [SETEX] with a time to live that is not positive,
    which [recacheSession] sends in the last second of a session, and a
    query on the uuid columns [id] and [user_id] of the session table with
    a parameter that is not in uuid syntax, which [deleteSession] sends for
    such a [sessionId].  Here are [validateSession] and [deleteSession] with
    these outcomes. *)

Module Refusal.
Import Auth.

Inductive Raised :=
| ReplyError          (* ioredis: the cache server answered with an error *)
| QueryFailedError.   (* typeorm: the database refused the query *)

(** [redisService.setex]: the server accepts a positive time to live only. *)
Definition setex (now : Z) (r : gmap string Redis.Entry) (key : string)
           (seconds : Z) (v : Redis.Value) : gmap string Redis.Entry + Raised :=
  if (0 <? seconds)%Z then inl (Redis.setex now r key seconds v)
  else inr ReplyError.

Section Validate.
Variable compare : string → string → bool.
Variable cfg : Config.
Variable now : Z.

Definition recacheSession (st : State) (tokenPrefix : string) (session : Session)
  : State + Raised :=
  let sessionTtl := ttlSeconds cfg in
  let ttlRemaining := ((expiresAt session - now) / 1000)%Z in
  match setex now (redis st) (cachePrefix ++ tokenPrefix)
              (Z.min ttlRemaining sessionTtl) (Redis.Str (id session)) with
  | inl r => inl (mkState r (sessions st))
  | inr e => inr e
  end.

Definition validateTokenFromDatabase (st : State) (token tokenPrefix : string)
  : (option Session + Raised) * State :=
  match first_verified compare token (find_recent now (sessions st)) with
  | Some session =>
      match recacheSession st tokenPrefix session with
      | inl st' => (inl (Some session), st')
      | inr e => (inr e, st)
      end
  | None => (inl None, st)
  end.

Definition validateSession (st : State) (token : string)
  : (option Session + Raised) * State :=
  if negb (validateTokenFormat cfg token) then (inl None, st)
  else
    let tokenPrefix := getTokenPrefix token in
    match validateTokenFromCache compare now st token tokenPrefix with
    | (Some session, st1) => (inl (Some session), st1)
    | (None, st1) => validateTokenFromDatabase st1 token tokenPrefix
    end.

End Validate.

Section Delete.
(** How the database reads a uuid parameter: the text of the uuid as it
    stores and returns it, or [None] when the parameter is not in uuid
    syntax and the query is refused. *)
Variable uuid_in : string → option string.

Definition deleteSession (st : State) (user sessionId : string)
  : option Raised * State :=
  match uuid_in sessionId, uuid_in user with
  | Some sid, Some uid =>
      match List.find (fun s => String.eqb (id s) sid
                                && String.eqb (userId s) uid) (sessions st) with
      | Some _ => (None, mkState (redis st) (delete_where sid uid (sessions st)))
      | None => (None, st)
      end
  | _, _ => (Some QueryFailedError, st)
  end.

End Delete.

End Refusal.

(** ** The uuid input syntax of PostgreSQL, the database of app.module.ts *)

Module Postgres.

Definition lower (c : ascii) : ascii :=
  let k := nat_of_ascii c in
  if ((65 <=? k) && (k <=? 70))%nat then ascii_of_nat (k + 32) else c.

(** Sixteen bytes of two hexadecimal digits each, upper or lower case, with
    an optional hyphen after every second byte but the last.  [i] counts
    the bytes read, [n] those still to read; the digits come back in lower
    case with what follows them. *)
Fixpoint read_bytes (i n : nat) (src acc : list ascii)
  : option (list ascii * list ascii) :=
  match n with
  | O => Some (rev acc, src)
  | S n' =>
      match src with
      | c1 :: c2 :: rest =>
          if Auth.is_hex c1 && Auth.is_hex c2 then
            let rest' :=
              match rest with
              | h :: r =>
                  if Ascii.eqb h "-" && Nat.odd i && (i <? 15)%nat
                  then r else rest
              | [] => rest
              end in
            read_bytes (S i) n' rest' (lower c2 :: lower c1 :: acc)
          else None
      | _ => None
      end
  end.

Definition hyphenated (digits : list ascii) : list ascii :=
  (take 8 digits ++ "-"%char :: take 4 (drop 8 digits)
   ++ "-"%char :: take 4 (drop 12 digits)
   ++ "-"%char :: take 4 (drop 16 digits)
   ++ "-"%char :: drop 20 digits)%list.

(** [uuid_in]: 32 hexadecimal digits, optionally inside braces; the value
    is returned in the form the database prints, lower case in groups of
    8-4-4-4-12. *)
Definition uuid_in (s : string) : option string :=
  let src := String.list_ascii_of_string s in
  let '(braces, body) :=
    match src with
    | c :: rest => if Ascii.eqb c "{" then (true, rest) else (false, src)
    | [] => (false, src)
    end in
  match read_bytes 0 16 body [] with
  | Some (digits, rest) =>
      let rest' :=
        if braces then
          match rest with
          | c :: r => if Ascii.eqb c "}" then Some r else None
          | [] => None
          end
        else Some rest in
      match rest' with
      | Some [] => Some (String.string_of_list_ascii (hyphenated digits))
      | _ => None
      end
  | None => None
  end.

End Postgres.

(** ** The dispatcher of src/prediction/prediction.service.ts *)

Module Dispatcher.
Import Worker.

Definition STATS_TOTAL : string := "prediction:stats:total".

(** [leftJoin('results', ...).where('result.id IS NULL')]: the stored
    predictions no result row refers to. *)
Definition unprocessed (st : State) : list Prediction :=
  List.filter
    (fun p => negb (existsb (fun r => String.eqb (predictionId r) (prediction_id p))
                            (results st)))
    (predictions st).

Definition job_of (pred : Prediction) : PredictionJob :=
  mkJob (Some (prediction_id pred)) (Some (prediction_userId pred)).

(** [queueAllPredictionsForProcessing].  [sent] is what [sendToQueue]
    answers for a job.  Returns [queued] and [total], the jobs handed to
    the broker in order, and the state.  The two counters are written in
    their decoded form, as [INCR] keeps them. *)
Definition queueAllPredictionsForProcessing (now : Z) (sent : PredictionJob → bool)
           (st : State) : (nat * nat) * list PredictionJob * State :=
  let found := unprocessed st in
  let existingTotal := Redis.get now (redis st) STATS_TOTAL in
  let r :=
    if negb (Redis.truthy existingTotal) then
      Redis.set (Redis.set (redis st) STATS_TOTAL
                           (Redis.Num (Z.of_nat (length found))))
                STATS_PROCESSED (Redis.Num 0)
    else redis st in
  let jobs := map job_of found in
  let queuedCount := length (List.filter sent jobs) in
  ((queuedCount, length found), jobs,
   mkState (teams st) (predictions st) (results st) (next_result_id st) r).

(** [parseInt(reply || '0', 10)].  Only integers are written under the two
    counters; [None] stands for any other content. *)
Definition counter (reply : option Redis.Value) : option Z :=
  match reply with
  | None => Some 0%Z
  | Some (Redis.Num n) => Some n
  | Some (Redis.Str s) => if Js.truthy s then None else Some 0%Z
  | Some _ => None
  end.

(** [getProcessingStatus] without the queue depth: total, processed and
    pending. *)
Definition getProcessingStatus (now : Z) (st : State) : option (Z * Z * Z) :=
  match counter (Redis.get now (redis st) STATS_TOTAL),
        counter (Redis.get now (redis st) STATS_PROCESSED) with
  | Some total, Some processed => Some (total, processed, (total - processed)%Z)
  | _, _ => None
  end.

(** The consumer handling the delivered jobs one after the other, each at
    its own time. *)
Definition process_all (handled : list (Z * PredictionJob)) (st : State) : State :=
  fold_left (fun st '(now, job) => snd (processPredictionJob now job st)) handled st.

(** The counter of processed predictions holds [n] and does not expire. *)
Definition processed_is (r : gmap string Redis.Entry) (n : Z) : Prop :=
  r !! STATS_PROCESSED = Some (Redis.mkEntry (Redis.Num n) None).

End Dispatcher.

(** ** Concrete scenarios used by the examples below *)

Module Scenario.
Import Auth.

(** A stand-in for bcrypt: a hash that embeds the token. *)
Definition toy_hash (token : string) : string := "$2b$12$" ++ token.
Definition toy_compare (token hash : string) : bool :=
  String.eqb hash (toy_hash token).

(** SESSION_TOKEN_LENGTH = 32 bytes, 64 hexadecimal characters. *)
Definition cfg0 : Config := mkConfig 32 900 2592000 2592000 true false.

Definition token_a : string :=
  "a0a1a2a3a4a5a6a7a8a9aaabacadaeafa0a1a2a3a4a5a6a7a8a9aaabacadaeaf".
Definition token_b : string :=
  "b0b1b2b3b4b5b6b7b8b9babbbcbdbebfb0b1b2b3b4b5b6b7b8b9babbbcbdbebf".
Definition token_c : string :=
  "c0c1c2c3c4c5c6c7c8c9cacbcccdcecfc0c1c2c3c4c5c6c7c8c9cacbcccdcecf".
Definition token_d : string :=
  "d0d1d2d3d4d5d6d7d8d9dadbdcdddedfd0d1d2d3d4d5d6d7d8d9dadbdcdddedf".
Definition refresh_a : string :=
  "e0e1e2e3e4e5e6e7e8e9eaebecedeeefe0e1e2e3e4e5e6e7e8e9eaebecedeeef".
Definition token_new : string :=
  "f0f1f2f3f4f5f6f7f8f9fafbfcfdfefff0f1f2f3f4f5f6f7f8f9fafbfcfdfeff".

Definition session_of (sid user token : string) (refresh : option string)
           (addr : option string) (created : Z) : Session :=
  mkSession sid user (toy_hash token) (toy_hash <$> refresh)
            (Some "Mozilla/5.0") addr created (created + 2592000000)%Z.

(** Four sessions created one second apart; [s1] is the oldest. *)
Definition s1 := session_of "s1" "u1" token_a (Some refresh_a) (Some "10.0.0.1") 1000.
Definition s2 := session_of "s2" "u2" token_b None (Some "10.0.0.2") 2000.
Definition s3 := session_of "s3" "u3" token_c None None 3000.
Definition s4 := session_of "s4" "u4" token_d None (Some "10.0.0.4") 4000.

(** The four sessions in the table and nothing in the cache. *)
Definition state0 : State := mkState ∅ [s1; s2; s3; s4].

(** A request with the access token of [s4] from another address. *)
Definition request_elsewhere : Guard.Request :=
  Guard.mkRequest (Some ("Bearer " ++ token_d)) (Some "10.9.9.9") None
                  (Some "Mozilla/5.0").

(** OTP defaults of configuration.ts, outside sandbox mode, and a provider
    that is down. *)
Definition otp_cfg : Otp.Config := Otp.mkConfig 6 120 120 false.
Definition sms_down : Otp.World :=
  Otp.mkWorld 0 (Otp.mkDraw 1 2) (fun _ _ => Some "Failed to send SMS").

(** The two-swap scenario of the specification: ids 1 and 5 exchanged
    between groups A and B. *)
Definition two_swap : Scoring.UserGroups :=
  [("A", ["5";"2";"3";"4"]); ("B", ["1";"6";"7";"8"]);
   ("C", ["9";"10";"11";"12"]); ("D", ["13";"14";"15";"16"]);
   ("E", ["17";"18";"19";"20"]); ("F", ["21";"22";"23";"24"]);
   ("G", ["25";"26";"27";"28"]); ("H", ["29";"30";"31";"32"]);
   ("I", ["33";"34";"35";"36"]); ("J", ["37";"38";"39";"40"]);
   ("K", ["41";"42";"43";"44"]); ("L", ["45";"46";"47";"48"])].

(** The same prediction with the ids of group A written backwards. *)
Definition two_swap_reordered : Scoring.UserGroups :=
  ("A", rev ["5";"2";"3";"4"]) :: tail two_swap.

(** A small tournament for the worker: two groups of two teams, one
    stored prediction and the job the dispatcher publishes for it. *)
Definition small_state : Worker.State :=
  Worker.mkState
    [Worker.mkTeam "t1" "" "Iran" 1 (Some "A") "";
     Worker.mkTeam "t2" "" "Spain" 2 (Some "A") "";
     Worker.mkTeam "t3" "" "Japan" 1 (Some "B") "";
     Worker.mkTeam "t4" "" "Ghana" 2 (Some "B") ""]
    [Worker.mkPrediction "p1" "u1"
       [("A", Worker.Array [Worker.Ids ["t1"]; Worker.Ids ["t3"]]);
        ("B", Worker.Array [Worker.Ids ["t2"]; Worker.Ids ["t4"]])] 0]
    [] 0 ∅.

Definition job_p1 : Worker.PredictionJob := Worker.mkJob (Some "p1") (Some "u1").



(** The small tournament after the worker has handled the job of [p1] at
    time 1000, and then after [processPredictionBatch] at time 2000 with
    the default page size. *)
Definition scored_by_worker : Worker.State :=
  snd (Worker.processPredictionJob 1000 job_p1 small_state).

Definition scored_again : Worker.State :=
  snd (Worker.processPredictionBatch 2000 (fun _ => 2000%Z) 1000 scored_by_worker).

(** The small tournament after two runs of [processPredictionBatch]. *)
Definition batched_twice : Worker.State :=
  snd (Worker.processPredictionBatch 2000 (fun _ => 2000%Z) 1000
         (snd (Worker.processPredictionBatch 1000 (fun _ => 1000%Z) 1000
                 small_state))).

End Scenario.

(* ================================================================== *)
(** ** Further scenarios: a working SMS provider, a phone that has used up
       its attempts, a request from the address stored with its session *)

Module Examples.
Import Scenario.

Definition phone0 : string := "09123456789".

Definition sms_up : Otp.World :=
  Otp.mkWorld 0 (Otp.mkDraw 1 2) (fun _ _ => None).

(** OTP_MAX_VERIFY_ATTEMPTS = 5 within a window of 300 seconds. *)
Definition verify_cfg : OtpVerify.Config := OtpVerify.mkConfig 5 300.

(** The cache after one successful [sendOtp] at time 0. *)
Definition sent_cache : gmap string Redis.Entry :=
  snd (Otp.sendOtp otp_cfg sms_up ∅ phone0 "10.0.0.1" "Mozilla/5.0").

(** The code stored by that call. *)
Definition sent_code : string := Otp.generateOtpCode 6 (Otp.mkDraw 1 2).

(** The same cache after five counted attempts. *)
Definition locked_state : OtpVerify.State :=
  OtpVerify.mkState
    (<[OtpVerify.attemptKey phone0 := Redis.mkEntry (Redis.Num 5) None]> sent_cache)
    [].

Definition refresh_new : string :=
  "9091929394959697989990919293949596979899909192939495969798999091".

(** A request with the access token of [s4] from the address stored with it. *)
Definition request_home : Guard.Request :=
  Guard.mkRequest (Some ("Bearer " ++ token_d)) (Some "10.0.0.4") None
                  (Some "Mozilla/5.0").

(** Two users with one session each, ids as the database generates them. *)
Definition user_a : string := "0a0a0a0a-0000-4000-8000-00000000000a".
Definition user_b : string := "0b0b0b0b-0000-4000-8000-00000000000b".
Definition sid_1 : string := "aaaaaaaa-0000-4000-8000-000000000001".
Definition sid_2 : string := "bbbbbbbb-0000-4000-8000-000000000002".
Definition session_a : Auth.Session :=
  session_of sid_1 user_a token_a (Some refresh_a) (Some "10.0.0.1") 1000.
Definition session_b : Auth.Session :=
  session_of sid_2 user_b token_b None (Some "10.0.0.2") 2000.
Definition state_uuid : Auth.State := Auth.mkState ∅ [session_a; session_b].

(** A time at which [s1] and [s2] have expired and [s3] and [s4] have not. *)
Definition two_expired : Z := 2592002500.

End Examples.

(** * Part II: properties *)

(** ** Facts about the JavaScript containers *)

Section JsFacts.
Import Js.

Lemma includes_elem (l : list string) (x : string) :
  includes l x = true ↔ x ∈ l.
Proof.
  unfold includes. rewrite existsb_exists. split.
  - intros (y & Hy & Heq). apply String.eqb_eq in Heq. subst y.
    by apply list_elem_of_In.
  - intros Hx. exists x. split; [by apply list_elem_of_In | apply String.eqb_refl].
Qed.

Lemma includes_perm (l k : list string) (x : string) :
  l ≡ₚ k → includes l x = includes k x.
Proof.
  intros Hp. apply eq_true_iff_eq. rewrite !includes_elem. by rewrite Hp.
Qed.

Lemma new_Set_elem (l : list string) (x : string) :
  x ∈ new_Set l ↔ x ∈ l.
Proof.
  induction l as [|y l IH]; simpl; [done|].
  rewrite !elem_of_cons, list_elem_of_filter, IH.
  destruct (decide (x = y)); naive_solver.
Qed.

Lemma new_Set_NoDup (l : list string) : NoDup (new_Set l).
Proof.
  induction l as [|y l IH]; simpl; constructor.
  - rewrite list_elem_of_filter. naive_solver.
  - by apply NoDup_filter.
Qed.

Lemma new_Set_to_set (l : list string) :
  list_to_set (new_Set l) =@{gset string} list_to_set l.
Proof. apply set_eq. intros x. by rewrite !elem_of_list_to_set, new_Set_elem. Qed.

Lemma new_Set_length (l : list string) :
  length (new_Set l) = size (list_to_set l : gset string).
Proof.
  rewrite <- new_Set_to_set. symmetry.
  apply size_list_to_set, new_Set_NoDup.
Qed.

Lemma get_elem {A} (m : list (string * A)) (k : string) (v : A) :
  get m k = Some v → (k, v) ∈ m.
Proof.
  induction m as [|[k' v'] m IH]; simpl; [done|].
  destruct (String.eqb_spec k k') as [->|Hne].
  - intros [= ->]. left.
  - intros H. right. auto.
Qed.

Lemma get_NoDup {A} (m : list (string * A)) (k : string) (v : A) :
  NoDup (m.*1) → (k, v) ∈ m → get m k = Some v.
Proof.
  induction m as [|[k' v'] m IH]; simpl; [by rewrite elem_of_nil|].
  rewrite NoDup_cons, elem_of_cons. intros [Hk' Hnd] [Heq|Hin].
  - injection Heq as -> ->. by rewrite String.eqb_refl.
  - destruct (String.eqb_spec k k') as [->|Hne]; [|auto].
    exfalso. apply Hk'. apply list_elem_of_fmap. by exists (k', v).
Qed.

End JsFacts.

(** ** Scoring: the code against the set-level reading *)

Section ScoringFacts.
Import Js Scoring ScoringSpec.

Lemma misplaced_in_size (ut ct : list string) :
  length (misplaced_in ut ct)
  = size (list_to_set ut ∖ list_to_set ct : gset string).
Proof.
  unfold misplaced_in.
  rewrite <- (size_list_to_set (C := gset string)).
  - f_equal. apply set_eq. intros x.
    rewrite elem_of_list_to_set, list_elem_of_filter, elem_of_difference.
    rewrite !elem_of_list_to_set, new_Set_elem, negb_true_iff.
    unfold has. rewrite <- not_true_iff_false, includes_elem, new_Set_elem.
    tauto.
  - apply NoDup_filter, new_Set_NoDup.
Qed.

Lemma intersection_of_size (ut ct : list string) :
  length (intersection_of ut ct)
  = size (list_to_set ut ∩ list_to_set ct : gset string).
Proof.
  unfold intersection_of.
  rewrite <- (size_list_to_set (C := gset string)).
  - f_equal. apply set_eq. intros x.
    rewrite elem_of_list_to_set, list_elem_of_filter, elem_of_intersection.
    rewrite !elem_of_list_to_set, new_Set_elem.
    unfold has. rewrite includes_elem, new_Set_elem. tauto.
  - apply NoDup_filter, new_Set_NoDup.
Qed.

Lemma areSetsEqual_sets (a b : list string) :
  areSetsEqual (new_Set a) (new_Set b) = true
  ↔ list_to_set a =@{gset string} list_to_set b.
Proof.
  unfold areSetsEqual. rewrite andb_true_iff, Nat.eqb_eq, forallb_forall.
  split.
  - intros [Hlen Hsub].
    assert (new_Set a ⊆+ new_Set b) as Hms.
    { apply NoDup_submseteq; [apply new_Set_NoDup|].
      intros x Hx. apply includes_elem, Hsub. by apply list_elem_of_In. }
    apply submseteq_length_Permutation in Hms; [|lia].
    rewrite <- (new_Set_to_set a), <- (new_Set_to_set b).
    apply set_eq. intros x. rewrite !elem_of_list_to_set.
    by apply elem_of_Permutation_proper.
  - intros Heq. split.
    + by rewrite !new_Set_length, Heq.
    + intros x Hx. apply includes_elem, new_Set_elem.
      rewrite <- list_elem_of_In, new_Set_elem in Hx.
      apply (elem_of_list_to_set (C := gset string)).
      rewrite <- Heq, elem_of_list_to_set. exact Hx.
Qed.

Lemma group_set_entry (u : UserGroups) (g : string) (ut : list string) :
  NoDup (labels u) → (g, ut) ∈ u → group_set u g = list_to_set ut.
Proof. intros Hnd Hin. unfold group_set. by rewrite (get_NoDup u g ut). Qed.

Lemma collectMisplaced_length_on (u l : UserGroups) (t : CorrectGroups) :
  (∀ g ut, (g, ut) ∈ l → group_set u g = list_to_set ut) →
  length (collectMisplaced l t)
  = sum_list ((fun g => size (group_set u g ∖ group_set t g)) <$> labels l).
Proof.
  induction l as [|[g ut] l IH]; intros Hl; [done|].
  unfold collectMisplaced in *. simpl.
  rewrite length_app, misplaced_in_size, IH.
  - rewrite (Hl g ut) by left. done.
  - intros g' ut' Hin. apply Hl. by right.
Qed.

Lemma collectMisplaced_length (u : UserGroups) (t : CorrectGroups) :
  NoDup (labels u) → length (collectMisplaced u t) = misplaced u t.
Proof.
  intros Hnd. apply collectMisplaced_length_on.
  intros g ut Hin. by apply group_set_entry.
Qed.

Lemma checkPerfectGroup_rule (u : UserGroups) (t : CorrectGroups) r :
  checkPerfectGroup u t = Some r → rule r = PERFECT_GROUP ∧ score r = 40%Z.
Proof.
  induction u as [|[g ut] u IH]; simpl; [done|].
  destruct (areSetsEqual _ _); [|done]. by intros [= <-].
Qed.

Lemma checkThreeCorrect_rule (u : UserGroups) (t : CorrectGroups) r :
  checkThreeCorrect u t = Some r → rule r = THREE_CORRECT ∧ score r = 20%Z.
Proof.
  induction u as [|[g ut] u IH]; simpl; [done|].
  destruct (_ =? 3)%nat; [|done]. by intros [= <-].
Qed.

Lemma checkIranGroupCorrect_rule (u : UserGroups) (t : CorrectGroups) e r :
  checkIranGroupCorrect u t e = Some r →
  rule r = IRAN_GROUP_CORRECT ∧ score r = 50%Z.
Proof.
  unfold checkIranGroupCorrect.
  destruct (findGroupWithTeam u e); [|done].
  destruct (negb (truthy _)); [done|].
  destruct (negb (bool_decide _)); [done|].
  destruct (areSetsEqual _ _); [|done]. by intros [= <-].
Qed.

Lemma checkPerfectGroup_fired (u : UserGroups) (t : CorrectGroups) :
  fired (checkPerfectGroup u t) = true
  ↔ ∃ g ut, (g, ut) ∈ u ∧ list_to_set ut = group_set t g.
Proof.
  induction u as [|[g ut] u IH]; simpl.
  - split; [done|]. intros (g & ut & Hin & _). by apply elem_of_nil in Hin.
  - destruct (areSetsEqual _ _) eqn:Heq.
    + apply areSetsEqual_sets in Heq. split; [|done].
      intros _. exists g, ut. split; [left | done].
    + rewrite IH. split.
      * intros (g' & ut' & Hin & Hs). exists g', ut'. split; [by right | done].
      * intros (g' & ut' & Hin & Hs). apply elem_of_cons in Hin as [[= -> ->]|Hin].
        -- apply areSetsEqual_sets in Hs. unfold correct_of in Heq. congruence.
        -- by exists g', ut'.
Qed.

Lemma checkThreeCorrect_fired (u : UserGroups) (t : CorrectGroups) :
  fired (checkThreeCorrect u t) = true
  ↔ ∃ g ut, (g, ut) ∈ u ∧ size (list_to_set ut ∩ group_set t g) = 3%nat.
Proof.
  induction u as [|[g ut] u IH]; simpl.
  - split; [done|]. intros (g & ut & Hin & _). by apply elem_of_nil in Hin.
  - rewrite intersection_of_size.
    destruct (_ =? 3)%nat eqn:Heq.
    + apply Nat.eqb_eq in Heq. split; [|done].
      intros _. exists g, ut. split; [left | done].
    + apply Nat.eqb_neq in Heq. rewrite IH. split.
      * intros (g' & ut' & Hin & Hs). exists g', ut'. split; [by right | done].
      * intros (g' & ut' & Hin & Hs). apply elem_of_cons in Hin as [[= -> ->]|Hin].
        -- done.
        -- by exists g', ut'.
Qed.

Lemma findGroupWithTeam_label (m : list (string * list string)) (e g : string) :
  findGroupWithTeam m e = Some g ↔ label_of m e g.
Proof.
  unfold label_of. induction m as [|[g0 ts0] m IH]; simpl.
  - split; [done|]. intros (i & ts & Hi & _). by destruct i.
  - destruct (includes ts0 e) eqn:Hinc.
    + apply includes_elem in Hinc. split.
      * intros [= ->]. exists 0%nat, ts0. repeat split; [done|]. intros; lia.
      * intros ([|i] & ts & Hi & He & Hfirst); simpl in Hi.
        -- by injection Hi as -> ->.
        -- exfalso. apply (Hfirst 0%nat g0 ts0); [lia | done | done].
    + apply not_true_iff_false in Hinc. rewrite includes_elem in Hinc.
      rewrite IH. split.
      * intros (i & ts & Hi & He & Hfirst). exists (S i), ts.
        repeat split; [done..|]. intros [|j] g' ts' Hlt Hj; simpl in Hj.
        -- by injection Hj as <- <-.
        -- apply (Hfirst j g' ts'); [lia | done].
      * intros ([|i] & ts & Hi & He & Hfirst); simpl in Hi.
        -- injection Hi as -> ->. done.
        -- exists i, ts. repeat split; [done..|]. intros j g' ts' Hlt Hj.
           apply (Hfirst (S j) g' ts'); [lia | done].
Qed.

Lemma findGroupWithTeam_in (m : list (string * list string)) (e g : string) :
  findGroupWithTeam m e = Some g → g ∈ labels m.
Proof.
  induction m as [|[g0 ts0] m IH]; simpl; [done|].
  destruct (includes ts0 e).
  - intros [= ->]. left.
  - intros H. right. by apply IH.
Qed.

Lemma checkIranGroupCorrect_fired (u : UserGroups) (t : CorrectGroups) (e : string) :
  fired (checkIranGroupCorrect u t e) = true
  ↔ ∃ g, findGroupWithTeam u e = Some g ∧ g ≠ "" ∧
         findGroupWithTeam t e = Some g ∧ group_set u g = group_set t g.
Proof.
  unfold checkIranGroupCorrect.
  destruct (findGroupWithTeam u e) as [g|]; [|split; [done | by intros (? & ? & _)]].
  unfold truthy. rewrite negb_involutive.
  destruct (String.eqb_spec g "") as [->|Hne].
  { split; [done|]. intros (g & [= <-] & Hg & _). done. }
  destruct (decide (Some g = findGroupWithTeam t e)) as [Heq|Hneq].
  - rewrite bool_decide_eq_true_2 by done. simpl.
    destruct (areSetsEqual _ _) eqn:Hs.
    + apply areSetsEqual_sets in Hs. split; [|done]. intros _. by exists g.
    + split; [done|]. intros (g' & [= <-] & _ & _ & Hs').
      apply areSetsEqual_sets in Hs'. unfold correct_of in Hs. congruence.
  - rewrite bool_decide_eq_false_2 by done. simpl.
    split; [done|]. intros (g' & [= <-] & _ & Ht & _). congruence.
Qed.

Lemma scoreUser_rule (iran : option string) (u : UserGroups) (t : CorrectGroups) :
  rule (scoreUser iran u t)
  = decide_rule (length (collectMisplaced u t))
      (fired (iranScore iran u t))
      (fired (checkPerfectGroup u t)) (fired (checkThreeCorrect u t)).
Proof.
  unfold scoreUser, decide_rule.
  destruct (_ =? 0)%nat; [done|].
  destruct (_ =? 2)%nat; [done|].
  destruct (_ =? 3)%nat; [done|].
  destruct (iranScore iran u t) as [r|] eqn:Hi; simpl.
  { unfold iranScore in Hi. destruct iran as [id|]; [|done].
    destruct (truthy id); [|done]. by apply checkIranGroupCorrect_rule in Hi as [-> _]. }
  destruct (checkPerfectGroup u t) as [r|] eqn:Hp; simpl.
  { by apply checkPerfectGroup_rule in Hp as [-> _]. }
  destruct (checkThreeCorrect u t) as [r|] eqn:Ht; simpl.
  { by apply checkThreeCorrect_rule in Ht as [-> _]. }
  done.
Qed.

Lemma scoreUser_score (iran : option string) (u : UserGroups) (t : CorrectGroups) :
  score (scoreUser iran u t) = SCORES (rule (scoreUser iran u t)).
Proof.
  unfold scoreUser.
  destruct (_ =? 0)%nat; [done|].
  destruct (_ =? 2)%nat; [done|].
  destruct (_ =? 3)%nat; [done|].
  destruct (iranScore iran u t) as [r|] eqn:Hi.
  { unfold iranScore in Hi. destruct iran as [id|]; [|done].
    destruct (truthy id); [|done].
    by apply checkIranGroupCorrect_rule in Hi as [-> ->]. }
  destruct (checkPerfectGroup u t) as [r|] eqn:Hp.
  { by apply checkPerfectGroup_rule in Hp as [-> ->]. }
  destruct (checkThreeCorrect u t) as [r|] eqn:Ht.
  { by apply checkThreeCorrect_rule in Ht as [-> ->]. }
  done.
Qed.

Lemma perfect_condition (iran : option string) (u : UserGroups) (t : CorrectGroups) :
  NoDup (labels u) →
  fired (checkPerfectGroup u t) = true ↔ condition iran u t PERFECT_GROUP.
Proof.
  intros Hnd. rewrite checkPerfectGroup_fired. simpl. split.
  - intros (g & ut & Hin & Hs). exists g. split.
    + apply list_elem_of_fmap. by exists (g, ut).
    + by rewrite (group_set_entry u g ut).
  - intros (g & Hg & Hs). apply list_elem_of_fmap in Hg as ([g' ut] & -> & Hin).
    exists g', ut. split; [done|]. simpl in Hs.
    by rewrite <- (group_set_entry u g' ut).
Qed.

Lemma three_condition (iran : option string) (u : UserGroups) (t : CorrectGroups) :
  NoDup (labels u) →
  fired (checkThreeCorrect u t) = true ↔ condition iran u t THREE_CORRECT.
Proof.
  intros Hnd. rewrite checkThreeCorrect_fired. simpl. split.
  - intros (g & ut & Hin & Hs). exists g. split.
    + apply list_elem_of_fmap. by exists (g, ut).
    + by rewrite (group_set_entry u g ut).
  - intros (g & Hg & Hs). apply list_elem_of_fmap in Hg as ([g' ut] & -> & Hin).
    exists g', ut. split; [done|]. simpl in Hs.
    by rewrite <- (group_set_entry u g' ut).
Qed.

Lemma iran_condition (iran : option string) (u : UserGroups) (t : CorrectGroups) :
  "" ∉ labels t → iran ≠ Some "" →
  fired (iranScore iran u t) = true ↔ condition iran u t IRAN_GROUP_CORRECT.
Proof.
  intros Hlab Hid. unfold iranScore. simpl. destruct iran as [e|].
  - assert (truthy e = true) as ->.
    { unfold truthy. destruct (String.eqb_spec e ""); [congruence | done]. }
    rewrite checkIranGroupCorrect_fired. split.
    + intros (g & Hu & _ & Ht & Hs). exists e, g.
      by rewrite <- !findGroupWithTeam_label.
    + intros (e' & g & [= <-] & Hu & Ht & Hs).
      rewrite <- findGroupWithTeam_label in Hu, Ht.
      exists g. repeat split; [done| |done..].
      intros ->. by apply findGroupWithTeam_in in Ht.
  - split; [done|]. by intros (e & g & ? & _).
Qed.

(** *** Invariance of the four tests under permutations inside groups *)

Lemma list_to_set_perm_eq (a b : list string) :
  a ≡ₚ b → list_to_set a =@{gset string} list_to_set b.
Proof. intros Hp. by rewrite Hp. Qed.

Lemma get_permuted (m m' : list (string * list string)) (g : string) :
  permuted_within m m' → default [] (get m g) ≡ₚ default [] (get m' g).
Proof.
  induction 1 as [|[g1 ts1] [g2 ts2] m m' [Hg Hts] _ IH]; simpl in *; [done|].
  subst g2. by destruct (String.eqb g g1).
Qed.

Lemma group_set_permuted (m m' : list (string * list string)) (g : string) :
  permuted_within m m' → group_set m g = group_set m' g.
Proof. intros Hm. apply list_to_set_perm_eq. by apply get_permuted. Qed.

Lemma findGroupWithTeam_permuted (m m' : list (string * list string)) (e : string) :
  permuted_within m m' → findGroupWithTeam m e = findGroupWithTeam m' e.
Proof.
  induction 1 as [|[g1 ts1] [g2 ts2] m m' [Hg Hts] _ IH]; simpl in *; [done|].
  subst g2. rewrite (includes_perm ts1 ts2 e Hts). by rewrite IH.
Qed.

Lemma collectMisplaced_permuted (u u' : UserGroups) (t t' : CorrectGroups) :
  permuted_within u u' → permuted_within t t' →
  length (collectMisplaced u t) = length (collectMisplaced u' t').
Proof.
  intros Hu Ht. unfold collectMisplaced.
  induction Hu as [|[g1 ts1] [g2 ts2] u u' [Hg Hts] _ IH]; simpl in *; [done|].
  subst g2. rewrite !length_app, !misplaced_in_size, IH. unfold correct_of.
  rewrite (list_to_set_perm_eq ts1 ts2 Hts).
  by rewrite (list_to_set_perm_eq _ _ (get_permuted t t' g1 Ht)).
Qed.

Lemma checkPerfectGroup_permuted (u u' : UserGroups) (t t' : CorrectGroups) :
  permuted_within u u' → permuted_within t t' →
  fired (checkPerfectGroup u t) = fired (checkPerfectGroup u' t').
Proof.
  intros Hu Ht. apply eq_true_iff_eq. rewrite !checkPerfectGroup_fired.
  induction Hu as [|[g1 ts1] [g2 ts2] u u' [Hg Hts] _ IH]; simpl in *.
  - split; intros (g & ut & Hin & _); by apply elem_of_nil in Hin.
  - subst g2. split; intros (g & ut & Hin & Hs);
      apply elem_of_cons in Hin as [[= -> ->]|Hin].
    + exists g1, ts2. split; [left|].
      by rewrite <- (list_to_set_perm_eq _ _ Hts), <- (group_set_permuted t t').
    + destruct IH as [IH _]. destruct IH as (g' & ut' & ? & ?); [by exists g, ut|].
      exists g', ut'. split; [by right | done].
    + exists g1, ts1. split; [left|].
      by rewrite (list_to_set_perm_eq _ _ Hts), (group_set_permuted t t').
    + destruct IH as [_ IH]. destruct IH as (g' & ut' & ? & ?); [by exists g, ut|].
      exists g', ut'. split; [by right | done].
Qed.

Lemma checkThreeCorrect_permuted (u u' : UserGroups) (t t' : CorrectGroups) :
  permuted_within u u' → permuted_within t t' →
  fired (checkThreeCorrect u t) = fired (checkThreeCorrect u' t').
Proof.
  intros Hu Ht. apply eq_true_iff_eq. rewrite !checkThreeCorrect_fired.
  induction Hu as [|[g1 ts1] [g2 ts2] u u' [Hg Hts] _ IH]; simpl in *.
  - split; intros (g & ut & Hin & _); by apply elem_of_nil in Hin.
  - subst g2. split; intros (g & ut & Hin & Hs);
      apply elem_of_cons in Hin as [[= -> ->]|Hin].
    + exists g1, ts2. split; [left|].
      by rewrite <- (list_to_set_perm_eq _ _ Hts), <- (group_set_permuted t t').
    + destruct IH as [IH _]. destruct IH as (g' & ut' & ? & ?); [by exists g, ut|].
      exists g', ut'. split; [by right | done].
    + exists g1, ts1. split; [left|].
      by rewrite (list_to_set_perm_eq _ _ Hts), (group_set_permuted t t').
    + destruct IH as [_ IH]. destruct IH as (g' & ut' & ? & ?); [by exists g, ut|].
      exists g', ut'. split; [by right | done].
Qed.

Lemma iranScore_permuted (iran : option string)
      (u u' : UserGroups) (t t' : CorrectGroups) :
  permuted_within u u' → permuted_within t t' →
  fired (iranScore iran u t) = fired (iranScore iran u' t').
Proof.
  intros Hu Ht. unfold iranScore. destruct iran as [e|]; [|done].
  destruct (truthy e); [|done].
  apply eq_true_iff_eq. rewrite !checkIranGroupCorrect_fired.
  rewrite (findGroupWithTeam_permuted u u' e Hu).
  rewrite (findGroupWithTeam_permuted t t' e Ht).
  split; intros (g & ? & ? & ? & Hs); exists g; repeat split; try done.
  - by rewrite <- (group_set_permuted u u'), <- (group_set_permuted t t').
  - by rewrite (group_set_permuted u u'), (group_set_permuted t t').
Qed.

End ScoringFacts.

(** ** Claims on the scoring kernel *)

Section ScoringClaims.
Import Js Scoring ScoringSpec.

Local Ltac in_scores :=
  apply list_elem_of_In; unfold score_values; cbn [In SCORES]; tauto.

Local Ltac earlier_rules :=
  let j := fresh "j" in let r := fresh "r" in
  let Hlt := fresh "Hlt" in let Hj := fresh "Hj" in
  intros j r Hlt Hj;
  repeat (destruct j as [|j];
          [injection Hj as <-; simpl; first [lia | tauto] |]);
  simpl in Hlt; lia.

(** C1. The score of [scoreUser] is one of 0, 20, 40, 50, 60, 80, 100; the
    rule it returns is the first rule of the priority order ALL_CORRECT,
    TWO_MISPLACED, THREE_MISPLACED, IRAN_GROUP_CORRECT, PERFECT_GROUP,
    THREE_CORRECT, NO_MATCH whose condition of the rule table holds, and the
    score is the one attached to that rule.  The user prediction is a
    mapping (its labels are distinct); the ground truth is what
    [getCorrectGroups] builds (no empty label) and the designated entity,
    when there is one, carries a non-empty database id. *)
Theorem scoreUser_first_satisfied_rule
        (iran : option string) (u : UserGroups) (t : CorrectGroups) :
  NoDup (labels u) → "" ∉ labels t → iran ≠ Some "" →
  score (scoreUser iran u t) ∈ score_values ∧
  first_satisfied (condition iran u t) (rule (scoreUser iran u t)) ∧
  score (scoreUser iran u t) = score_of (rule (scoreUser iran u t)).
Proof.
  intros Hnd Hlab Hid.
  pose proof (collectMisplaced_length u t Hnd) as Hn.
  pose proof (iran_condition iran u t Hlab Hid) as Hi.
  pose proof (perfect_condition iran u t Hnd) as Hp.
  pose proof (three_condition iran u t Hnd) as Ht.
  rewrite scoreUser_score, scoreUser_rule. unfold decide_rule.
  rewrite Hn.
  destruct (misplaced u t =? 0)%nat eqn:E0;
    [apply Nat.eqb_eq in E0 | apply Nat.eqb_neq in E0].
  { split; [in_scores|]. split; [|done].
    exists 0%nat. repeat split; [done|]. earlier_rules. }
  destruct (misplaced u t =? 2)%nat eqn:E2;
    [apply Nat.eqb_eq in E2 | apply Nat.eqb_neq in E2].
  { split; [in_scores|]. split; [|done].
    exists 1%nat. repeat split; [done|]. earlier_rules. }
  destruct (misplaced u t =? 3)%nat eqn:E3;
    [apply Nat.eqb_eq in E3 | apply Nat.eqb_neq in E3].
  { split; [in_scores|]. split; [|done].
    exists 2%nat. repeat split; [done|]. earlier_rules. }
  destruct (fired (iranScore iran u t)) eqn:Ei.
  { split; [in_scores|]. split; [|done].
    exists 3%nat. repeat split; [by apply Hi|]. earlier_rules. }
  assert (¬ condition iran u t IRAN_GROUP_CORRECT) as Hni
      by (rewrite <- Hi; congruence).
  destruct (fired (checkPerfectGroup u t)) eqn:Ep.
  { split; [in_scores|]. split; [|done].
    exists 4%nat. repeat split; [by apply Hp|]. earlier_rules. }
  assert (¬ condition iran u t PERFECT_GROUP) as Hnp
      by (rewrite <- Hp; congruence).
  destruct (fired (checkThreeCorrect u t)) eqn:Et.
  { split; [in_scores|]. split; [|done].
    exists 5%nat. repeat split; [by apply Ht|]. earlier_rules. }
  assert (¬ condition iran u t THREE_CORRECT) as Hnt
      by (rewrite <- Ht; congruence).
  split; [in_scores|]. split; [|done].
  exists 6%nat. repeat split. earlier_rules.
Qed.

(** C6. Permuting the entity ids inside any group's sequence, in the user
    prediction or in the ground truth, changes neither the score nor the
    selected rule of [scoreUser]. *)
Theorem scoreUser_permutation_invariant
        (iran : option string) (u u' : UserGroups) (t t' : CorrectGroups) :
  permuted_within u u' → permuted_within t t' →
  score (scoreUser iran u t) = score (scoreUser iran u' t') ∧
  rule (scoreUser iran u t) = rule (scoreUser iran u' t').
Proof.
  intros Hu Ht.
  assert (rule (scoreUser iran u t) = rule (scoreUser iran u' t')) as Hrule.
  { rewrite !scoreUser_rule.
    rewrite (collectMisplaced_permuted u u' t t' Hu Ht).
    rewrite (iranScore_permuted iran u u' t t' Hu Ht).
    rewrite (checkPerfectGroup_permuted u u' t t' Hu Ht).
    by rewrite (checkThreeCorrect_permuted u u' t t' Hu Ht). }
  split; [|done]. by rewrite !scoreUser_score, Hrule.
Qed.

End ScoringClaims.

(** ** Claims on the broker adapter *)

Section BrokerClaims.
Import Broker.

(** The decision of [handleMessageRetry]: the message is republished
    exactly when the incremented counter is below the limit. *)
Lemma handleMessageRetry_decision (configured : option Z) (msg : Message)
      (queueName error : string) :
  let n := or_default (retry_header msg) 0 in
  let maxRetries := or_default configured 3 in
  ((n + 1 < maxRetries)%Z ∧
   handleMessageRetry configured msg queueName error
   = [publish "" queueName (content msg)
        (mkProperties
           (Some (with_retry (headers (properties msg)) (n + 1) error))
           (other_properties (properties msg)));
      ack msg])
  ∨ ((maxRetries ≤ n + 1)%Z ∧
     handleMessageRetry configured msg queueName error = [nack msg false false]).
Proof.
  intros n maxRetries. unfold handleMessageRetry. fold n. fold maxRetries.
  destruct (Z.ltb_spec (n + 1) maxRetries); [left | right]; done.
Qed.

(** C4. With MAX_RETRIES = 3, a failing message whose [x-retry-count] is 2,
    strictly below the limit, is not republished with the counter at 3:
    it is nacked without requeue and goes to the dead-letter queue. *)
Theorem handleMessageRetry_last_retry_dead_lettered :
  retry_header twice_retried = Some 2%Z ∧
  (2 < or_default (Some 3%Z) 3)%Z ∧
  processMessage (Some 3%Z) twice_retried "prediction.process" (Some "boom")
  = [nack twice_retried false false].
Proof. repeat split. Qed.

End BrokerClaims.

(** ** Facts about the decimal form of a number *)

Section DecimalFacts.
Import Otp.
Open Scope Z_scope.

Lemma digit_cases (d : Z) :
  0 ≤ d < 10 →
  d = 0 ∨ d = 1 ∨ d = 2 ∨ d = 3 ∨ d = 4 ∨ d = 5 ∨ d = 6 ∨ d = 7 ∨ d = 8 ∨ d = 9.
Proof. lia. Qed.

Lemma digit_char_is_digit (d : Z) : 0 ≤ d < 10 → is_digit (digit_char d) = true.
Proof. intros H. destruct (digit_cases d H) as [->|H']; [done|]. naive_solver. Qed.

Lemma digit_char_nonzero (d : Z) : 1 ≤ d < 10 → digit_char d ≠ "0"%char.
Proof.
  intros H. assert (0 ≤ d < 10) as H0 by lia.
  destruct (digit_cases d H0) as [->|H']; [lia|]. naive_solver.
Qed.

Lemma digit_val_char (d : Z) : 0 ≤ d < 10 → digit_val (digit_char d) = d.
Proof. intros H. destruct (digit_cases d H) as [->|H']; [done|]. naive_solver. Qed.

(** A number of [10^k, 10^(k+1)) is written with exactly [k + 1] digits, the
    first of them not a zero, and reads back as itself. *)
Lemma digits_onto_spec (k : nat) :
  ∀ (fuel : nat) (n : Z) (acc : string),
    10 ^ Z.of_nat k ≤ n < 10 ^ Z.of_nat (S k) → (S k ≤ fuel)%nat →
    String.length (digits_onto fuel n acc) = (S k + String.length acc)%nat ∧
    (all_digits acc = true → all_digits (digits_onto fuel n acc) = true) ∧
    (∃ c rest, digits_onto fuel n acc = String c rest ∧ c ≠ "0"%char) ∧
    (∀ v, parse_onto (digits_onto fuel n acc) v
          = parse_onto acc (v * 10 ^ Z.of_nat (S k) + n)).
Proof.
  induction k as [|k IH]; intros fuel n acc Hn Hfuel;
    (destruct fuel as [|fuel]; [lia|]); cbn [digits_onto].
  - change (10 ^ Z.of_nat 0) with 1 in Hn. change (10 ^ Z.of_nat 1) with 10 in *.
    destruct (Z.ltb_spec n 10); [|lia].
    rewrite Z.mod_small by lia.
    split; [done|]. split; [|split].
    + cbn [all_digits]. intros ->. by rewrite digit_char_is_digit by lia.
    + exists (digit_char n), acc. split; [done|]. apply digit_char_nonzero. lia.
    + intros v. cbn [parse_onto]. rewrite digit_val_char by lia. f_equal. lia.
  - rewrite !Nat2Z.inj_succ, !Z.pow_succ_r in Hn by lia.
    assert (0 < 10 ^ Z.of_nat k) as Hpos by (apply Z.pow_pos_nonneg; lia).
    destruct (Z.ltb_spec n 10); [lia|].
    pose proof (Z.div_mod n 10 ltac:(lia)) as Hdm.
    pose proof (Z.mod_pos_bound n 10 ltac:(lia)) as Hmod.
    destruct (IH fuel (n / 10) (String (digit_char (n mod 10)) acc))
      as (Hlen & Hdig & Hfst & Hparse).
    { rewrite !Nat2Z.inj_succ, !Z.pow_succ_r by lia. lia. }
    { lia. }
    split; [|split; [|split]].
    + rewrite Hlen. cbn [String.length]. lia.
    + intros Hacc. apply Hdig. cbn [all_digits].
      by rewrite digit_char_is_digit, Hacc.
    + done.
    + intros v. rewrite Hparse. cbn [parse_onto]. rewrite digit_val_char by lia.
      f_equal. rewrite !Nat2Z.inj_succ, !Z.pow_succ_r by lia. lia.
Qed.

Lemma log2_fuel (k : nat) (n : Z) :
  10 ^ Z.of_nat k ≤ n → (S k ≤ S (Z.to_nat (Z.log2 n)))%nat.
Proof.
  intros Hn.
  assert (2 ^ Z.of_nat k ≤ 10 ^ Z.of_nat k) as H2
      by (apply Z.pow_le_mono_l; lia).
  assert (Z.of_nat k ≤ Z.log2 n) as Hlog.
  { rewrite <- (Z.log2_pow2 (Z.of_nat k)) by lia. apply Z.log2_le_mono. lia. }
  lia.
Qed.

Lemma toString_spec (k : nat) (n : Z) :
  10 ^ Z.of_nat k ≤ n < 10 ^ Z.of_nat (S k) →
  String.length (toString n) = S k ∧
  all_digits (toString n) = true ∧
  (∃ c rest, toString n = String c rest ∧ c ≠ "0"%char) ∧
  parse_onto (toString n) 0 = n.
Proof.
  intros Hn. unfold toString.
  destruct (digits_onto_spec k (S (Z.to_nat (Z.log2 n))) n "" Hn)
    as (Hlen & Hdig & Hfst & Hparse).
  { apply log2_fuel. lia. }
  repeat split.
  - rewrite Hlen. simpl. lia.
  - by apply Hdig.
  - done.
  - rewrite Hparse. simpl. lia.
Qed.

End DecimalFacts.

(** ** Facts about the rounding of doubles *)

Section DoubleFacts.
Import Double.
Open Scope Z_scope.

Lemma round_half_even_sandwich (a b A B : Z) :
  0 < b → A * b ≤ a ≤ B * b → A ≤ round_half_even a b ≤ B.
Proof.
  intros Hb [HA HB]. unfold round_half_even.
  pose proof (Z.div_mod a b ltac:(lia)) as Hdm.
  pose proof (Z.mod_pos_bound a b Hb) as Hmod.
  assert (A ≤ a / b) by (apply Z.div_le_lower_bound; lia).
  assert (a / b ≤ B) by (apply Z.div_le_upper_bound; lia).
  destruct (Z.ltb_spec (2 * (a mod b)) b); [lia|].
  assert (a / b < B) by nia.
  destruct (Z.ltb_spec b (2 * (a mod b))); [lia|].
  destruct (Z.even (a / b)); lia.
Qed.

Lemma round_half_even_below (a b A : Z) :
  0 < b → 2 * a < (2 * A - 1) * b → round_half_even a b ≤ A - 1.
Proof.
  intros Hb Ha. unfold round_half_even.
  pose proof (Z.div_mod a b ltac:(lia)) as Hdm.
  pose proof (Z.mod_pos_bound a b Hb) as Hmod.
  assert (a / b ≤ A - 1) by nia.
  destruct (Z.ltb_spec (2 * (a mod b)) b); [lia|].
  assert (a / b ≤ A - 2) by nia.
  destruct (Z.ltb_spec b (2 * (a mod b))); [lia|].
  destruct (Z.even (a / b)); lia.
Qed.

Lemma log2_floor_lt (n d E : Z) :
  0 < n → 0 < d → 1 ≤ E → n < d * 2 ^ E → log2_floor n d < E.
Proof.
  intros Hn Hd HE Hlt. unfold log2_floor.
  destruct (Z.leb_spec d n) as [Hdn|Hdn].
  - assert (0 < n / d) by (apply Z.div_str_pos; lia).
    apply Z.log2_lt_pow2; [done|].
    apply Z.div_lt_upper_bound; [done|]. lia.
  - pose proof (Z.log2_up_nonneg ((d + n - 1) / n)). lia.
Qed.

Lemma log2_floor_eq (n d e : Z) :
  0 < d → 0 ≤ e → d * 2 ^ e ≤ n < d * 2 ^ (e + 1) → log2_floor n d = e.
Proof.
  intros Hd He [Hlo Hhi]. unfold log2_floor.
  assert (0 < 2 ^ e) as Hpos by (apply Z.pow_pos_nonneg; lia).
  destruct (Z.leb_spec d n) as [Hdn|Hdn]; [|nia].
  apply Z.log2_unique; [done|]. split.
  - apply Z.div_le_lower_bound; lia.
  - replace (Z.succ e) with (e + 1) by lia.
    apply Z.div_lt_upper_bound; lia.
Qed.

(** Rounding does not cross a point of the grid: when the fraction is below
    [2 ^ (53 - j)], the multiples of [2 ^ - j] are doubles, and bounds of
    that form on the fraction are bounds on the rounded value. *)
Lemma round_sandwich (n d j A B : Z) :
  0 ≤ n → 0 < d → 0 ≤ j ≤ 52 → n < d * 2 ^ (53 - j) →
  A * d ≤ n * 2 ^ j ≤ B * d →
  0 < den (round n d) ∧
  A * den (round n d) ≤ num (round n d) * 2 ^ j ≤ B * den (round n d).
Proof.
  intros Hn Hd Hj Hlt [HA HB]. unfold round.
  assert (0 < 2 ^ j) as Hpj by (apply Z.pow_pos_nonneg; lia).
  destruct (Z.eqb_spec n 0) as [->|Hn0].
  - unfold num, den. cbn [mantissa exponent].
    change (Z.max 0 (- 0)) with 0. change (Z.max 0 0) with 0.
    change (2 ^ 0) with 1. nia.
  - set (e := log2_floor n d).
    assert (e < 53 - j) as He by (apply log2_floor_lt; lia).
    set (q := Z.max (e - 52) (-1074)).
    assert (q ≤ - j) as Hq by lia.
    unfold num, den. cbn [mantissa exponent].
    rewrite (Z.max_l 0 q), (Z.max_r 0 (- q)) by lia.
    change (2 ^ 0) with 1. rewrite !Z.mul_1_r.
    assert (2 ^ (- q) = 2 ^ (- q - j) * 2 ^ j) as Hsplit
        by (rewrite <- Z.pow_add_r by lia; f_equal; lia).
    assert (0 < 2 ^ (- q - j)) as Hpc by (apply Z.pow_pos_nonneg; lia).
    split; [apply Z.pow_pos_nonneg; lia|].
    destruct (round_half_even_sandwich (n * 2 ^ (- q)) d
                (A * 2 ^ (- q - j)) (B * 2 ^ (- q - j)) Hd) as [Hlo Hhi].
    { rewrite Hsplit. nia. }
    set (m := round_half_even (n * 2 ^ (- q)) d) in *.
    rewrite Hsplit. nia.
Qed.

(** The largest draw is 1 - 2^-53. *)
Lemma double_draw_below_one (r : Otp.Draw) :
  Otp.double_draw r →
  0 ≤ Otp.num r ∧ 0 < Otp.den r ∧ Otp.num r < Otp.den r ∧
  Otp.num r * 2 ^ 53 ≤ Otp.den r * (2 ^ 53 - 1).
Proof.
  intros [[H0 Hlt] (k & Hk & Hden & Hnum)].
  split; [done|]. split; [lia|]. split; [done|].
  rewrite Hden in *.
  destruct (Z.le_gt_cases k 53) as [Hk53|Hk53].
  - assert (2 ^ k ≤ 2 ^ 53) by (apply Z.pow_le_mono_r; lia). nia.
  - assert (2 ^ 53 ≤ 2 ^ k) by (apply Z.pow_le_mono_r; lia). nia.
Qed.

(** At the top of the range: with [lo + N] in the binade of [N], a draw
    below one keeps [lo + draw * N], rounded twice, below [lo + N]. *)
Lemma round_top (lo N e n d : Z) :
  0 < lo → 0 ≤ e ≤ 51 → 2 ^ e < N → lo + N ≤ 2 ^ (e + 1) →
  0 ≤ n → 0 < d → n * 2 ^ 53 ≤ d * (2 ^ 53 - 1) →
  let product := round (n * N) d in
  floor (round (lo * den product + num product) (den product)) ≤ lo + N - 1.
Proof.
  intros Hlo He HN Htop Hn Hd Hr product.
  set (j := 52 - e).
  assert (0 < 2 ^ j) as Hpj by (apply Z.pow_pos_nonneg; lia).
  assert (0 < 2 ^ e) as Hpe by (apply Z.pow_pos_nonneg; lia).
  assert (2 ^ e * 2 ^ j = 2 ^ 52) as H52
      by (rewrite <- Z.pow_add_r by lia; f_equal; lia).
  assert (2 ^ (e + 1) = 2 * 2 ^ e) as He1
      by (rewrite Z.pow_add_r by lia; change (2 ^ 1) with 2; lia).
  assert (2 ^ 53 = 2 * 2 ^ 52) as H53 by reflexivity.
  assert (n < d) as Hnd by lia.
  assert (0 < den product ∧ 0 ≤ num product ∧
          num product * 2 ^ j ≤ (N * 2 ^ j - 1) * den product) as (Hden & Hnum & Hp).
  { destruct (Z.lt_ge_cases (n * N) (d * 2 ^ e)) as [Hsmall|Hbig].
    - destruct (round_sandwich (n * N) d j 0 (2 ^ 52)) as (Hd' & Hl & Hu);
        [nia | done | lia | | | ].
      { replace (53 - j) with (e + 1) by lia. nia. }
      { nia. }
      unfold product. assert (2 ^ 52 ≤ N * 2 ^ j - 1) by nia.
      split; [done|]. split; [nia|]. nia.
    - unfold product, round.
      destruct (Z.eqb_spec (n * N) 0) as [H0|H0]; [nia|].
      rewrite (log2_floor_eq (n * N) d e) by (try lia; nia).
      rewrite (Z.max_l (e - 52) (-1074)) by lia.
      unfold num, den. cbn [mantissa exponent].
      replace (e - 52) with (- j) by lia. rewrite Z.opp_involutive.
      rewrite (Z.max_l 0 (- j)), (Z.max_r 0 j) by lia.
      change (2 ^ 0) with 1. rewrite !Z.mul_1_r.
      pose proof (round_half_even_below (n * N * 2 ^ j) d (N * 2 ^ j) Hd) as Hb.
      destruct (round_half_even_sandwich (n * N * 2 ^ j) d 0 (N * 2 ^ j) Hd)
        as [Hl _]; [nia|].
      split; [done|]. split; [done|].
      assert (round_half_even (n * N * 2 ^ j) d ≤ N * 2 ^ j - 1); [|nia].
      apply Hb. clear Hb Hl.
      assert (2 ^ 52 + 2 ^ j ≤ N * 2 ^ j) as H2 by nia.
      assert ((2 ^ 52 + 2 ^ j) * (d - n) ≤ N * 2 ^ j * (d - n)) as H3
          by (apply Z.mul_le_mono_nonneg_r; lia).
      assert (0 < 2 ^ j * (d - n)) as H4 by (apply Z.mul_pos_pos; lia).
      rewrite Z.mul_add_distr_r, Z.mul_sub_distr_l in H3.
      replace (2 * (n * N * 2 ^ j)) with (2 * (N * 2 ^ j * n)) by ring.
      replace ((2 * (N * 2 ^ j) - 1) * d) with (2 * (N * 2 ^ j * d) - d) by ring.
      change (2 ^ 53) with 9007199254740992 in Hr.
      change (2 ^ 52) with 4503599627370496 in H3.
      lia. }
  clearbody product. clear Hr Hnd.
  set (P := num product) in *. set (Q := den product) in *.
  set (X := 2 ^ j) in *.
  assert (P < N * Q) as HPQ.
  { apply Z.mul_lt_mono_pos_r with (p := X); [done|].
    rewrite Z.mul_sub_distr_r in Hp.
    replace (N * Q * X) with (N * X * Q) by ring. lia. }
  assert ((lo + N) * Q ≤ 2 ^ (e + 1) * Q) as Hbin
      by (apply Z.mul_le_mono_nonneg_r; lia).
  destruct (round_sandwich (lo * Q + P) Q j 0 ((lo + N) * X - 1))
    as (Hd' & _ & Hu); [nia | done | lia | | | ].
  { replace (53 - j) with (e + 1) by lia. lia. }
  { fold X. split; [nia|].
    rewrite Z.mul_sub_distr_r in Hp |- *.
    replace ((lo + N) * X * Q) with (lo * Q * X + N * X * Q) by ring.
    replace ((lo * Q + P) * X) with (lo * Q * X + P * X) by ring. lia. }
  fold X in Hu.
  set (s := round (lo * Q + P) Q) in *.
  unfold floor. apply Z.lt_le_pred, Z.div_lt_upper_bound; [done|].
  apply Z.mul_lt_mono_pos_r with (p := X); [done|].
  rewrite Z.mul_sub_distr_r in Hu.
  replace (den s * (lo + N) * X) with ((lo + N) * X * den s) by ring. lia.
Qed.

Lemma floor_sandwich (x : t) (j A B : Z) :
  0 ≤ j → 0 < den x → A * 2 ^ j * den x ≤ num x * 2 ^ j →
  num x * 2 ^ j < (B + 1) * 2 ^ j * den x → A ≤ floor x ≤ B.
Proof.
  intros Hj Hd HA HB. unfold floor.
  assert (0 < 2 ^ j) by (apply Z.pow_pos_nonneg; lia).
  split.
  - apply Z.div_le_lower_bound; [done|]. nia.
  - apply Z.lt_succ_r, Z.div_lt_upper_bound; [done|]. nia.
Qed.

End DoubleFacts.

(** ** Claims on the one-time code *)

Section OtpClaims.
Import Otp.
Open Scope Z_scope.

Lemma otp_binade (L : Z) :
  1 ≤ L ≤ 15 →
  10 ^ L < 2 ^ 50 ∧
  ∃ e, 0 ≤ e ≤ 51 ∧ 2 ^ e < 9 * 10 ^ (L - 1) ∧
       10 ^ (L - 1) + 9 * 10 ^ (L - 1) ≤ 2 ^ (e + 1).
Proof.
  intros HL.
  assert (((10 ^ L <? 2 ^ 50) &&
           (let e := Z.log2 (9 * 10 ^ (L - 1)) in
            (0 <=? e) && (e <=? 51) && (2 ^ e <? 9 * 10 ^ (L - 1)) &&
            (10 ^ (L - 1) + 9 * 10 ^ (L - 1) <=? 2 ^ (e + 1)))) = true) as Hb.
  { assert (L = 1 ∨ L = 2 ∨ L = 3 ∨ L = 4 ∨ L = 5 ∨ L = 6 ∨ L = 7 ∨ L = 8 ∨
            L = 9 ∨ L = 10 ∨ L = 11 ∨ L = 12 ∨ L = 13 ∨ L = 14 ∨ L = 15)
      as Hcases by lia.
    repeat (destruct Hcases as [->|Hcases]; [vm_compute; reflexivity|]).
    subst L. vm_compute. reflexivity. }
  cbv zeta in Hb.
  apply andb_true_iff in Hb as [H50 Hb].
  apply andb_true_iff in Hb as [Hb H4].
  apply andb_true_iff in Hb as [Hb H3].
  apply andb_true_iff in Hb as [H1 H2].
  apply Z.ltb_lt in H50, H3. apply Z.leb_le in H1, H2, H4.
  split; [done|]. by exists (Z.log2 (9 * 10 ^ (L - 1))).
Qed.

(** The value behind the code: an integer [v] of the range, at most one
    above the exact [lo + floor(draw * 9 * lo)]. *)
Lemma generateOtpCode_value (L : Z) (r : Draw) :
  1 ≤ L ≤ 15 → double_draw r →
  ∃ (k : nat) (v : Z), L = Z.of_nat (S k) ∧
    let lo := 10 ^ Z.of_nat k in
    let q := num r * (9 * lo) / den r in
    10 ^ (L - 1) = lo ∧ 10 ^ L = 10 * lo ∧ 0 < lo ∧
    lo ≤ v ≤ 10 * lo - 1 ∧ lo + q ≤ v ≤ lo + q + 1 ∧
    generateOtpCode L r = toString v.
Proof.
  intros HL Hr. exists (Z.to_nat (L - 1)).
  assert (L = Z.of_nat (S (Z.to_nat (L - 1)))) as HLk by lia.
  set (lo := 10 ^ Z.of_nat (Z.to_nat (L - 1))).
  assert (10 ^ (L - 1) = lo) as Hlo by (unfold lo; f_equal; lia).
  assert (10 ^ L = 10 * lo) as Hhi.
  { unfold lo. rewrite HLk at 1. rewrite Nat2Z.inj_succ, Z.pow_succ_r; lia. }
  assert (0 < lo) as Hpos by (apply Z.pow_pos_nonneg; lia).
  destruct (otp_binade L HL) as (H50 & e & He & HeN & Htop).
  rewrite Hlo in HeN, Htop. rewrite Hhi in H50.
  destruct (double_draw_below_one r Hr) as (Hn0 & Hd0 & Hnd & Hr1).
  set (q := num r * (9 * lo) / den r).
  pose proof (Z.div_mod (num r * (9 * lo)) (den r) ltac:(lia)) as Hdm.
  pose proof (Z.mod_pos_bound (num r * (9 * lo)) (den r) Hd0) as Hmod.
  fold q in Hdm.
  set (product := Double.round (num r * (9 * lo)) (den r)).
  set (sum := Double.round (lo * Double.den product + Double.num product)
                           (Double.den product)).
  assert (generateOtpCode L r = toString (Double.floor sum)) as Hcode.
  { unfold generateOtpCode. rewrite Hlo, Hhi.
    replace (10 * lo - 1 - lo + 1) with (9 * lo) by lia. reflexivity. }
  assert (2 ^ 53 = 8 * 2 ^ 50) as H53 by reflexivity.
  destruct (round_sandwich (num r * (9 * lo)) (den r) 0 q (q + 1))
    as (Hdp & Hpl & Hpu); [nia | done | lia | nia | |].
  { change (2 ^ 0) with 1. nia. }
  fold product in Hdp, Hpl, Hpu. change (2 ^ 0) with 1 in Hpl, Hpu.
  assert (0 ≤ q < 9 * lo) as Hq.
  { unfold q. split; [apply Z.div_pos; nia|].
    apply Z.div_lt_upper_bound; nia. }
  destruct (round_sandwich (lo * Double.den product + Double.num product)
              (Double.den product) 0 (lo + q) (lo + q + 1))
    as (Hds & Hsl & Hsu); [nia | done | lia | nia | |].
  { change (2 ^ 0) with 1. nia. }
  fold sum in Hds, Hsl, Hsu. change (2 ^ 0) with 1 in Hsl, Hsu.
  assert (lo + q ≤ Double.floor sum ≤ lo + q + 1) as Hv.
  { unfold Double.floor. split.
    - apply Z.div_le_lower_bound; lia.
    - apply Z.div_le_upper_bound; lia. }
  pose proof (round_top lo (9 * lo) e (num r) (den r) Hpos He HeN Htop
                Hn0 Hd0 Hr1) as Htopv.
  cbv zeta in Htopv. fold product in Htopv. fold sum in Htopv.
  exists (Double.floor sum). split; [done|]. cbv zeta.
  split; [done|]. split; [done|]. split; [done|].
  split; [lia|]. split; [done|]. done.
Qed.

(** C5 (amended).  For OTP_LENGTH from 1 to 15, where the doubles of the
    source hold the bounds exactly, the generated code is the decimal form
    of an integer of [10^(L-1), 10^L - 1]: a string of exactly OTP_LENGTH
    decimal digits whose first digit is not '0'.  Every such code is a
    possible output, and the code for a draw r is lo + floor(r * 9 *
    10^(L-1)) or, when rounding carries the double over the next integer,
    one more: the draws are spread over the codes evenly up to rounding. *)
Theorem generateOtpCode_digits_no_leading_zero (L : Z) (r : Draw) :
  1 ≤ L ≤ 15 → double_draw r →
  let code := generateOtpCode L r in
  let lo := 10 ^ (L - 1) in
  let hi := 10 ^ L - 1 in
  String.length code = Z.to_nat L ∧
  all_digits code = true ∧
  (∃ c rest, code = String c rest ∧ c ≠ "0"%char) ∧
  (∀ n, lo ≤ n ≤ hi →
        ∃ r', double_draw r' ∧ generateOtpCode L r' = toString n) ∧
  (∃ v, code = toString v ∧ lo ≤ v ≤ hi ∧
        let exact := lo + num r * (hi - lo + 1) / den r in
        exact ≤ v ≤ exact + 1).
Proof.
  intros HL Hr code lo hi.
  destruct (generateOtpCode_value L r HL Hr)
    as (k & v & HLk & Hlo & Hhi & Hpos & Hv & Hq & Hcode).
  fold lo in Hlo. fold code in Hcode.
  destruct (toString_spec k v) as (Hlen & Hdig & Hfst & _).
  { rewrite Nat2Z.inj_succ, Z.pow_succ_r by lia. lia. }
  rewrite <- Hcode in Hlen, Hdig, Hfst.
  split; [rewrite Hlen; lia|]. split; [done|]. split; [done|]. split.
  - intros n Hn. unfold hi in Hn. rewrite Hhi, Hlo in Hn.
    set (N := 9 * 10 ^ Z.of_nat k).
    set (m := (2 * (n - 10 ^ Z.of_nat k) + 1) * 2 ^ 52 / N).
    destruct (otp_binade L HL) as (H50 & _). rewrite Hhi in H50.
    assert (2 ^ 53 = 2 * 2 ^ 52) as H53 by reflexivity.
    assert (2 ^ 52 = 4 * 2 ^ 50) as H52 by reflexivity.
    assert (0 < 2 ^ 50) as Hp50 by reflexivity.
    pose proof (Z.div_mod ((2 * (n - 10 ^ Z.of_nat k) + 1) * 2 ^ 52) N
                  ltac:(unfold N; lia)) as Hdm.
    pose proof (Z.mod_pos_bound ((2 * (n - 10 ^ Z.of_nat k) + 1) * 2 ^ 52) N
                  ltac:(unfold N; lia)) as Hmod.
    fold m in Hdm.
    assert (0 ≤ m < 2 ^ 53) as Hm.
    { unfold m. split; [apply Z.div_pos; unfold N; nia|].
      apply Z.div_lt_upper_bound; unfold N; nia. }
    exists (mkDraw m (2 ^ 53)).
    assert (double_draw (mkDraw m (2 ^ 53))) as Hdraw.
    { split; [unfold valid_draw; cbn [num den]; lia|].
      exists 53. cbn [num den]. lia. }
    split; [done|].
    unfold generateOtpCode. cbn [num den]. fold lo. rewrite Hlo, Hhi.
    replace (10 * 10 ^ Z.of_nat k - 1 - 10 ^ Z.of_nat k + 1) with N
      by (unfold N; lia).
    set (product := Double.round (m * N) (2 ^ 53)).
    set (c := n - 10 ^ Z.of_nat k) in *.
    destruct (round_sandwich (m * N) (2 ^ 53) 1 (2 * c) (2 * c + 1))
      as (Hdp & Hpl & Hpu); [unfold N; nia | lia | lia | | |].
    { change (53 - 1) with 52. unfold N in *. nia. }
    { change (2 ^ 1) with 2. unfold N in *. nia. }
    fold product in Hdp, Hpl, Hpu. change (2 ^ 1) with 2 in Hpl, Hpu.
    destruct (round_sandwich
                (10 ^ Z.of_nat k * Double.den product + Double.num product)
                (Double.den product) 1 (2 * n) (2 * n + 1))
      as (Hds & Hsl & Hsu); [nia | done | lia | | |].
    { change (53 - 1) with 52. unfold c, N in *. nia. }
    { change (2 ^ 1) with 2. unfold c in *. nia. }
    change (2 ^ 1) with 2 in Hsl, Hsu.
    f_equal. unfold Double.floor.
    symmetry. apply Z.div_unique with
      (r := Double.num (Double.round
               (10 ^ Z.of_nat k * Double.den product + Double.num product)
               (Double.den product))
            - n * Double.den (Double.round
               (10 ^ Z.of_nat k * Double.den product + Double.num product)
               (Double.den product))); lia.
  - exists v. split; [done|]. unfold hi. rewrite Hhi, Hlo.
    split; [lia|]. cbv zeta.
    replace (10 * 10 ^ Z.of_nat k - 1 - 10 ^ Z.of_nat k + 1)
      with (9 * 10 ^ Z.of_nat k) by lia.
    done.
Qed.

Lemma generateOtpCode_digits_no_leading_zero_witness :
  double_draw (mkDraw 123456 1048576) ∧
  String.length (generateOtpCode 6 (mkDraw 123456 1048576)) = Z.to_nat 6.
Proof.
  assert (double_draw (mkDraw 123456 1048576)) as Hr.
  { split; [unfold valid_draw; simpl; lia|]. exists 20. simpl. lia. }
  split; [exact Hr|].
  apply (generateOtpCode_digits_no_leading_zero 6 (mkDraw 123456 1048576));
    [lia | exact Hr].
Defined.

(** C5, as claimed: no draw of the generator gives the six-digit code
    "012345", so not every code of the length is a possible output. *)
Lemma generateOtpCode_never_012345 :
  ¬ ∃ r : Draw, valid_draw r ∧ generateOtpCode 6 r = "012345"%string.
Proof.
  intros (r & [Hn Hd] & Heq). unfold generateOtpCode in Heq.
  change (10 ^ (6 - 1)) with 100000 in Heq.
  change (10 ^ 6 - 1 - 100000 + 1) with 900000 in Heq.
  set (product := Double.round (num r * 900000) (den r)) in Heq.
  set (sum := Double.round (100000 * Double.den product + Double.num product)
                           (Double.den product)) in Heq.
  assert (2 ^ 53 = 9007199254740992) as H53 by reflexivity.
  destruct (round_sandwich (num r * 900000) (den r) 0 0 900000)
    as (Hdp & Hpl & Hpu); [lia | lia | lia | lia | |].
  { change (2 ^ 0) with 1. lia. }
  fold product in Hdp, Hpl, Hpu. change (2 ^ 0) with 1 in Hpl, Hpu.
  destruct (round_sandwich (100000 * Double.den product + Double.num product)
              (Double.den product) 0 100000 1000000)
    as (Hds & Hsl & Hsu); [lia | done | lia | lia | |].
  { change (2 ^ 0) with 1. lia. }
  fold sum in Hds, Hsl, Hsu. change (2 ^ 0) with 1 in Hsl, Hsu.
  assert (100000 ≤ Double.floor sum ≤ 1000000) as Hv.
  { unfold Double.floor. split.
    - apply Z.div_le_lower_bound; lia.
    - apply Z.div_le_upper_bound; lia. }
  destruct (Z.eq_dec (Double.floor sum) 1000000) as [H6|H6].
  - rewrite H6 in Heq. vm_compute in Heq. discriminate.
  - destruct (toString_spec 5 (Double.floor sum))
      as (_ & _ & (c & rest & Hs & Hc) & _).
    { change (10 ^ Z.of_nat 5) with 100000.
      change (10 ^ Z.of_nat 6) with 1000000. lia. }
    rewrite Heq in Hs. injection Hs as <- _. by apply Hc.
Qed.

(** The rounding of the sum shows in the code: on the double nearest to one
    third, [100000 + r * 900000] is 399999.99999999994 in exact arithmetic
    and 400000 as a double. *)
Example generateOtpCode_rounds_up :
  double_draw (mkDraw 6004799503160661 18014398509481984) ∧
  generateOtpCode 6 (mkDraw 6004799503160661 18014398509481984) = "400000"%string ∧
  100000 + 6004799503160661 * 900000 / 18014398509481984 = 399999.
Proof.
  split; [|split; reflexivity].
  split; [split; cbn; lia|]. exists 54. cbn. split; [lia|]. split; [reflexivity | lia].
Qed.

End OtpClaims.

(** ** Facts about the cache *)

Section RedisFacts.
Open Scope Z_scope.

Lemma get_setex_eq (now t secs : Z) (r : gmap string Redis.Entry)
      (k : string) (v : Redis.Value) :
  t < now + secs * 1000 → Redis.get t (Redis.setex now r k secs v) k = Some v.
Proof.
  intros Ht. unfold Redis.get, Redis.setex. rewrite lookup_insert_eq.
  unfold Redis.live. simpl. by destruct (Z.ltb_spec t (now + secs * 1000)); [|lia].
Qed.

Lemma get_setex_ne (now t secs : Z) (r : gmap string Redis.Entry)
      (k k' : string) (v : Redis.Value) :
  k ≠ k' → Redis.get t (Redis.setex now r k secs v) k' = Redis.get t r k'.
Proof.
  intros Hne. unfold Redis.get, Redis.setex. by rewrite lookup_insert_ne.
Qed.


Lemma get_expire_ne (now t secs : Z) (r : gmap string Redis.Entry) (k k' : string) :
  k ≠ k' → Redis.get t (Redis.expire now r k secs) k' = Redis.get t r k'.
Proof.
  intros Hne. unfold Redis.get, Redis.expire.
  destruct (r !! k) as [e|]; [|done].
  destruct (Redis.live now e); [|done]. by rewrite lookup_insert_ne.
Qed.

Lemma get_incr_ne (now t n : Z) (r r' : gmap string Redis.Entry) (k k' : string) :
  k ≠ k' → Redis.incr now r k = Some (n, r') → Redis.get t r' k' = Redis.get t r k'.
Proof.
  intros Hne. unfold Redis.get, Redis.incr.
  destruct (r !! k) as [e|].
  - destruct (Redis.live now e).
    + destruct (Redis.value e); try done. intros [= _ <-]. by rewrite lookup_insert_ne.
    + intros [= _ <-]. by rewrite lookup_insert_ne.
  - intros [= _ <-]. by rewrite lookup_insert_ne.
Qed.

End RedisFacts.

(** ** Claims on sending a one-time code *)

Section SendOtpClaims.
Import Otp.
Open Scope Z_scope.

Lemma otp_keys_distinct (phone : string) :
  sendLimitKey phone ≠ lastRequestKey phone ∧
  otpKey phone ≠ sendLimitKey phone ∧
  otpKey phone ≠ lastRequestKey phone.
Proof.
  unfold sendLimitKey, lastRequestKey, otpKey.
  repeat split; intros H; cbv [String.append] in H; congruence.
Qed.

(** C8. When the rate limits let the request through and the SMS provider
    raises an error, [sendOtp] fails with that error, yet the one-time code
    and both cooldown keys stay in the cache until they expire: during the
    cooldown every further [sendOtp] for the phone fails with
    EXCEEDED_SEND_LIMIT and changes nothing, whatever the provider would
    do. *)
Theorem sendOtp_sms_failure_not_rolled_back
        (cfg : Config) (w : World) (r : gmap string Redis.Entry)
        (phone ip userAgent e : string) :
  checkRateLimits w r phone = None →
  sms w phone (generateOtpCode (otp_length cfg) (draw w)) = Some e →
  let r' := snd (sendOtp cfg w r phone ip userAgent) in
  fst (sendOtp cfg w r phone ip userAgent) = inr (Error e) ∧
  (∀ t, t < now w + expirySeconds cfg * 1000 →
        Redis.get t r' (otpKey phone)
        = Some (Redis.OtpJson
                  (Redis.mkOtpData (generateOtpCode (otp_length cfg) (draw w))
                     (now w + expirySeconds cfg * 1000) 0 phone ip userAgent))) ∧
  (∀ t, t < now w + sendCooldownSeconds cfg * 1000 →
        Redis.get t r' (sendLimitKey phone) = Some (Redis.Str "1") ∧
        Redis.get t r' (lastRequestKey phone) = Some (Redis.Str "1")) ∧
  (∀ w' ip' userAgent',
      now w' < now w + sendCooldownSeconds cfg * 1000 →
      sendOtp cfg w' r' phone ip' userAgent'
      = (inr (TooManyRequestsException "EXCEEDED_SEND_LIMIT"), r')).
Proof.
  intros Hlimits Hsms r'.
  destruct (otp_keys_distinct phone) as (Hsl & Hos & Hol).
  assert (sendOtp cfg w r phone ip userAgent
          = (inr (Error e),
             setRateLimitKeys w
               (storeOtp w r phone (generateOtpCode (otp_length cfg) (draw w))
                  (expirySeconds cfg) ip userAgent)
               phone (sendCooldownSeconds cfg))) as Hrun.
  { unfold sendOtp. by rewrite Hlimits, Hsms. }
  unfold r'. rewrite Hrun. simpl fst. simpl snd.
  assert (∀ t, t < now w + sendCooldownSeconds cfg * 1000 →
               Redis.get t
                 (setRateLimitKeys w
                    (storeOtp w r phone (generateOtpCode (otp_length cfg) (draw w))
                       (expirySeconds cfg) ip userAgent)
                    phone (sendCooldownSeconds cfg)) (sendLimitKey phone)
               = Some (Redis.Str "1")) as Hlimit.
  { intros t Ht. unfold setRateLimitKeys.
    rewrite get_setex_ne by congruence. by apply get_setex_eq. }
  split; [done|]. split; [|split].
  - intros t Ht. unfold setRateLimitKeys, storeOtp.
    rewrite !get_setex_ne by congruence. by apply get_setex_eq.
  - intros t Ht. split; [by apply Hlimit|].
    unfold setRateLimitKeys. by apply get_setex_eq.
  - intros w' ip' userAgent' Ht. unfold sendOtp, checkRateLimits.
    by rewrite (Hlimit (now w') Ht).
Qed.

End SendOtpClaims.

(** ** Facts about the session table *)

Section SessionFacts.
Import Auth.
Open Scope Z_scope.

Lemma insert_desc_perm (s : Session) (l : list Session) :
  insert_desc s l ≡ₚ s :: l.
Proof.
  induction l as [|x l IH]; simpl; [done|].
  destruct (createdAt x <=? createdAt s); [done|].
  rewrite IH. apply perm_swap.
Qed.

Lemma order_createdAt_desc_perm (l : list Session) :
  order_createdAt_desc l ≡ₚ l.
Proof.
  induction l as [|x l IH]; simpl; [done|].
  by rewrite insert_desc_perm, IH.
Qed.

Lemma find_recent_elem (now : Z) (db : list Session) (s : Session) :
  s ∈ find_recent now db → s ∈ db ∧ now < expiresAt s.
Proof.
  unfold find_recent. intros Hin. apply subseteq_take in Hin.
  apply list_elem_of_In in Hin.
  apply (Permutation_in _ (order_createdAt_desc_perm _)) in Hin.
  apply filter_In in Hin as [Hin Hlive].
  split; [by apply list_elem_of_In|].
  unfold not_expired in Hlive. by apply Z.ltb_lt.
Qed.

Lemma findOne_id_elem (db : list Session) (sid : string) (s : Session) :
  findOne_id db sid = Some s → s ∈ db ∧ id s = sid.
Proof.
  unfold findOne_id. intros H. apply find_some in H as [Hin Heq].
  split; [by apply list_elem_of_In | by apply String.eqb_eq].
Qed.

Lemma findOne_id_NoDup (db : list Session) (s : Session) :
  NoDup (id <$> db) → s ∈ db → findOne_id db (id s) = Some s.
Proof.
  unfold findOne_id. induction db as [|x db IH]; simpl.
  - intros _ H. by apply elem_of_nil in H.
  - rewrite NoDup_cons, elem_of_cons. intros [Hx Hnd] [->|Hin].
    + by rewrite String.eqb_refl.
    + destruct (String.eqb_spec (id x) (id s)) as [Heq|Hne]; [|auto].
      exfalso. apply Hx. rewrite Heq. apply list_elem_of_fmap. by exists s.
Qed.

Section Verified.
Variable compare : string → string → bool.

Lemma first_verified_elem (token : string) (rows : list Session) (s : Session) :
  first_verified compare token rows = Some s →
  s ∈ rows ∧ compare token (tokenHash s) = true.
Proof.
  induction rows as [|x rows IH]; simpl; [done|].
  destruct (compare token (tokenHash x)) eqn:Hc.
  - intros [= <-]. split; [left | done].
  - intros H. destruct (IH H). split; [by right | done].
Qed.



Lemma validateTokenFromCache_sessions (cfg : Config) (now : Z) (st : State)
      (token tokenPrefix : string) :
  sessions (snd (validateTokenFromCache compare now st token tokenPrefix))
  = sessions st.
Proof.
  unfold validateTokenFromCache.
  destruct (getCachedSessionByAccessToken _ _ _); [|done].
  destruct (findOne_id _ _); [|done].
  destruct (now <? _); [|done]. by destruct (compare _ _).
Qed.

End Verified.

End SessionFacts.

(** ** Claims on session validation *)

Section ValidateClaims.
Import Auth.
Open Scope Z_scope.

(** When the cache server refuses nothing, [validateSession] does what
    [Auth.validateSession] says. *)
Lemma validateSession_accepted (compare : string → string → bool) (cfg : Config)
      (now : Z) (st st' : State) (token : string) (found : option Session) :
  Refusal.validateSession compare cfg now st token = (inl found, st') →
  validateSession compare cfg now st token = (found, st').
Proof.
  unfold Refusal.validateSession, validateSession.
  destruct (negb (validateTokenFormat cfg token)); [by intros [= <- <-]|].
  destruct (validateTokenFromCache compare now st token (getTokenPrefix token))
    as [[session|] st1]; [by intros [= <- <-]|].
  unfold Refusal.validateTokenFromDatabase, validateTokenFromDatabase.
  destruct (first_verified compare token (find_recent now (sessions st1)))
    as [session|]; [|by intros [= <- <-]].
  unfold Refusal.recacheSession, Refusal.setex, recacheSession, cacheAccessToken.
  destruct (0 <? Z.min ((expiresAt session - now) / 1000) (ttlSeconds cfg));
    [by intros [= <- <-] | done].
Qed.




(** Half a second before the newest session expires, its token no longer
    validates from the database: the call raises. *)
Example validateSession_raises_in_last_second :
  2592003500 < expiresAt Scenario.s4 ∧
  fst (Refusal.validateSession Scenario.toy_compare Scenario.cfg0 2592003500
         Scenario.state0 Scenario.token_d) = inr Refusal.ReplyError.
Proof. split; [reflexivity|]. vm_compute. reflexivity. Qed.

End ValidateClaims.

(** ** Claims on deleting and refreshing a session *)

Section SessionClaims.
Import Auth AuthSpec.
Open Scope Z_scope.

(** On ids in the form the database stores them in, [deleteSession] does
    what [Auth.deleteSession] says, and raises nothing. *)
Lemma deleteSession_accepted (uuid_in : string → option string) (st : State)
      (user sessionId : string) :
  uuid_in sessionId = Some sessionId → uuid_in user = Some user →
  Refusal.deleteSession uuid_in st user sessionId
  = (None, deleteSession st user sessionId).
Proof.
  intros Hsid Huid. unfold Refusal.deleteSession, deleteSession.
  rewrite Hsid, Huid. by destruct (List.find _ (sessions st)).
Qed.

Lemma delete_where_elem (sid user : string) (db : list Session) (s : Session) :
  s ∈ delete_where sid user db ↔ s ∈ db ∧ ¬ targeted user sid s.
Proof.
  unfold delete_where, targeted.
  rewrite !list_elem_of_In, filter_In, negb_true_iff, andb_false_iff.
  rewrite !String.eqb_neq. split.
  - intros [Hin Hne]. split; [done|]. intros [? ?]. destruct Hne; done.
  - intros [Hin Hne]. split; [done|].
    destruct (decide (id s = sid)); [right | left; done].
    intros ?. by apply Hne.
Qed.

Lemma delete_where_id (sid user : string) (db : list Session) :
  (∀ s, s ∈ db → ¬ targeted user sid s) → delete_where sid user db = db.
Proof.
  unfold delete_where, targeted. induction db as [|x db IH]; simpl; [done|].
  intros H.
  destruct (String.eqb_spec (id x) sid) as [Hid|Hid];
    destruct (String.eqb_spec (userId x) user) as [Hu|Hu]; simpl;
    try (f_equal; apply IH; intros s Hs; apply H; by right).
  exfalso. apply (H x); [left | done].
Qed.

Lemma delete_where_length (sid user : string) (db : list Session) :
  NoDup (id <$> db) →
  (length db ≤ S (length (delete_where sid user db)))%nat.
Proof.
  induction db as [|x db IH]; simpl; [lia|].
  rewrite NoDup_cons. intros [Hx Hnd].
  destruct (String.eqb_spec (id x) sid) as [Hid|Hid]; simpl.
  - destruct (String.eqb (userId x) user); simpl; [|specialize (IH Hnd); lia].
    fold (delete_where sid user db). rewrite delete_where_id; [lia|].
    intros s Hs [Hsid _]. apply Hx. rewrite Hid, <- Hsid.
    apply list_elem_of_fmap. by exists s.
  - fold (delete_where sid user db). specialize (IH Hnd). lia.
Qed.

(** C9 (amended). When [sessionId] and [userId] are in uuid syntax,
    [deleteSession] returns without error, leaves the cache alone and
    removes from the session table exactly the rows whose id is that
    [sessionId] and whose owner is that [userId], as the database reads
    them: at most one row, ids being unique.  When there is no such row, in
    particular when the id belongs to another user, the whole state is
    unchanged.  When one of the two is not in uuid syntax, the database
    refuses the query, the call raises and nothing is changed. *)
Theorem deleteSession_frame (uuid_in : string → option string)
        (st : State) (user sessionId : string) :
  let run := Refusal.deleteSession uuid_in st user sessionId in
  (uuid_in sessionId = None ∨ uuid_in user = None →
   run = (Some Refusal.QueryFailedError, st)) ∧
  (∀ sid uid, uuid_in sessionId = Some sid → uuid_in user = Some uid →
     fst run = None ∧
     redis (snd run) = redis st ∧
     (∀ s, s ∈ sessions (snd run) ↔ s ∈ sessions st ∧ ¬ targeted uid sid s) ∧
     ((∀ s, s ∈ sessions st → ¬ targeted uid sid s) → snd run = st) ∧
     (NoDup (id <$> sessions st) →
      (length (sessions st) ≤ S (length (sessions (snd run))))%nat)).
Proof.
  intros run. unfold run, Refusal.deleteSession. split.
  - intros [-> | Hu]; [done|]. rewrite Hu. by destruct (uuid_in sessionId).
  - intros sid uid -> ->.
    destruct (List.find _ (sessions st)) as [s0|] eqn:Hfind; simpl.
    + split; [done|]. split; [done|]. split; [|split].
      * intros s. apply delete_where_elem.
      * intros Hnone. exfalso. apply find_some in Hfind as [Hin Hm].
        apply andb_true_iff in Hm as [Hi Hu].
        apply (Hnone s0); [by apply list_elem_of_In|].
        split; by apply String.eqb_eq.
      * apply delete_where_length.
    + split; [done|]. split; [done|]. split; [|split].
      * intros s. split; [|tauto]. intros Hs. split; [done|]. intros [Hid Hu].
        apply list_elem_of_In in Hs.
        pose proof (find_none _ _ Hfind s Hs) as Hm. simpl in Hm.
        by rewrite Hid, Hu, !String.eqb_refl in Hm.
      * done.
      * intros _. lia.
Qed.

Lemma deleteSession_frame_witness :
  Refusal.deleteSession Postgres.uuid_in Examples.state_uuid
                        Examples.user_a Examples.sid_2
  = (None, Examples.state_uuid).
Proof.
  destruct (proj2 (deleteSession_frame Postgres.uuid_in Examples.state_uuid
                     Examples.user_a Examples.sid_2)
                  Examples.sid_2 Examples.user_a)
    as (Hret & _ & _ & Hsame & _); [reflexivity | reflexivity |].
  rewrite (surjective_pairing (Refusal.deleteSession _ _ _ _)).
  rewrite Hret, Hsame; [reflexivity|].
  intros s Hs [Hid Hu]. simpl in Hs.
  repeat (apply elem_of_cons in Hs as [->|Hs]; [discriminate|]).
  by apply elem_of_nil in Hs.
Defined.

(** C9, as claimed: a [sessionId] that is not a uuid, which the controller
    passes on as it stands in the path, makes the call raise. *)
Lemma deleteSession_raises_on_malformed_id :
  fst (Refusal.deleteSession Postgres.uuid_in Examples.state_uuid
         Examples.user_a "42")
  = Some Refusal.QueryFailedError.
Proof. reflexivity. Qed.

(** The database compares uuids, not their spelling: the owner deletes a
    session under the upper-case form of its id. *)
Example deleteSession_upper_case_id :
  sessions (snd (Refusal.deleteSession Postgres.uuid_in Examples.state_uuid
                   Examples.user_a "{AAAAAAAA-0000-4000-8000-000000000001}"))
  = [Examples.session_b].
Proof. vm_compute. reflexivity. Qed.

(** *** Refreshing *)

Lemma session_keys_distinct (p q u : string) :
  "refresh:frequency:" ++ u ≠ refreshCachePrefix ++ p ∧
  cachePrefix ++ q ≠ refreshCachePrefix ++ p ∧
  cachePrefix ++ q ≠ "refresh:frequency:" ++ u.
Proof.
  unfold refreshCachePrefix, cachePrefix.
  repeat split; intros H; cbv [String.append] in H; congruence.
Qed.

Lemma NoDup_id_eq (db : list Session) (x y : Session) :
  NoDup (id <$> db) → x ∈ db → y ∈ db → id x = id y → x = y.
Proof.
  induction db as [|z db IH]; simpl; [by intros _ ?%elem_of_nil|].
  rewrite NoDup_cons, !elem_of_cons. intros [Hz Hnd] [->|Hx] [->|Hy] Heq; auto.
  - exfalso. apply Hz. rewrite Heq. apply list_elem_of_fmap. by exists y.
  - exfalso. apply Hz. rewrite <- Heq. apply list_elem_of_fmap. by exists x.
Qed.

Lemma find_map {A B} (p : B → bool) (f : A → B) (l : list A) :
  List.find p (map f l) = f <$> List.find (fun x => p (f x)) l.
Proof. induction l as [|x l IH]; simpl; [done|]. by destruct (p (f x)). Qed.


Section Frame.
Variable compare : string → string → bool.
Variable now : Z.
Variable f : Session → Session.
Hypothesis f_id : ∀ x, id (f x) = id x.
Hypothesis f_expiresAt : ∀ x, expiresAt (f x) = expiresAt x.
Hypothesis f_refresh : ∀ x, refreshTokenHash (f x) = refreshTokenHash x.


Lemma findOne_id_frame (db : list Session) (sid : string) :
  findOne_id (map f db) sid = f <$> findOne_id db sid.
Proof.
  unfold findOne_id. rewrite find_map. f_equal.
  induction db as [|x db IH]; simpl; [done|]. by rewrite f_id, IH.
Qed.



End Frame.

Lemma findSessionByRefreshToken_elem (compare : string → string → bool)
      (now : Z) (st : State) (rt : string) (s : Session) :
  findSessionByRefreshToken compare now st rt = Some s → s ∈ sessions st.
Proof.
  unfold findSessionByRefreshToken, findSessionByRefreshTokenFromDatabase.
  assert (∀ x, List.find (refresh_verified compare rt)
                         (find_bulk now (sessions st)) = Some x →
               x ∈ sessions st) as Hdb.
  { intros x Hx. apply find_some in Hx as [Hin _]. unfold find_bulk in Hin.
    apply list_elem_of_In, subseteq_take in Hin.
    apply list_elem_of_In, filter_In in Hin as [Hin _]. by apply list_elem_of_In. }
  destruct (getCachedSessionByRefreshToken _ _ _) as [cid|]; [|apply Hdb].
  destruct (findOne_id (sessions st) cid) as [x|] eqn:Hf; [|apply Hdb].
  destruct (_ && _); [|apply Hdb].
  intros [= <-]. by apply findOne_id_elem in Hf as [? _].
Qed.

Lemma save_rehashed (db : list Session) (s : Session) (h : string) :
  NoDup (id <$> db) → s ∈ db →
  save (rehashed h s) db = only_access_hash_rewritten (id s) h db.
Proof.
  intros Hnd Hin. unfold save, only_access_hash_rewritten.
  assert (existsb (fun x => String.eqb (id x) (id (rehashed h s))) db = true) as ->.
  { apply existsb_exists. exists s. split; [by apply list_elem_of_In|].
    apply String.eqb_refl. }
  apply map_ext_in. intros x Hx. simpl.
  destruct (String.eqb_spec (id x) (id s)) as [Heq|]; [|done].
  f_equal. symmetry. apply (NoDup_id_eq db); [done| |done..].
  by apply list_elem_of_In.
Qed.

Lemma incr_lookup (now n : Z) (r r1 : gmap string Redis.Entry) (k : string) :
  Redis.incr now r k = Some (n, r1) →
  ∃ e, r1 !! k = Some e ∧ Redis.live now e = true ∧ Redis.value e = Redis.Num n.
Proof.
  unfold Redis.incr. destruct (r !! k) as [e|] eqn:Hk.
  - destruct (Redis.live now e) eqn:Hl.
    + destruct (Redis.value e); try done. intros [= <- <-].
      eexists. rewrite lookup_insert_eq. by repeat split.
    + intros [= <- <-]. eexists. rewrite lookup_insert_eq. by repeat split.
  - intros [= <- <-]. eexists. rewrite lookup_insert_eq. by repeat split.
Qed.





End SessionClaims.

(** ** Claims on the auth guard *)

Section GuardClaims.
Import Auth Guard.
Open Scope Z_scope.

Lemma truthy_opt_Some (o : option string) :
  truthy_opt o = true → ∃ a, o = Some a ∧ a ≠ "".
Proof.
  destruct o as [a|]; [|done]. unfold truthy_opt, Js.truthy.
  destruct (String.eqb_spec a ""); [done|]. intros _. by exists a.
Qed.

(** C10. The guard rejects with SESSION_IP_MISMATCH only when IP validation
    is enabled, the validated session stored a non-empty address, the
    request presents a client address ([request.ip], else the remote address
    of the connection) and the two differ.  A session without a stored
    address and a request without a client address are therefore never
    rejected with that error. *)
Theorem canActivate_ip_mismatch_only_when
        (compare : string → string → bool) (cfg : Config) (now : Z)
        (st st' : State) (req : Request) :
  canActivate compare cfg now st req = (Unauthorized "SESSION_IP_MISMATCH", st') →
  enableIpValidation cfg = true ∧
  ∃ token session stored current,
    extractTokenFromHeader req = Some token ∧
    validateSession compare cfg now st token = (Some session, st') ∧
    ipAddress session = Some stored ∧ stored ≠ "" ∧
    or_else (ip req) (remoteAddress req) = Some current ∧ current ≠ "" ∧
    stored ≠ current.
Proof.
  unfold canActivate.
  destruct (extractTokenFromHeader req) as [token|]; [|done].
  destruct (negb (Js.truthy token)); [done|].
  destruct (validateSession compare cfg now st token) as [[session|] st1] eqn:Hv;
    [|done].
  destruct (enableIpValidation cfg); [|done]. simpl.
  destruct (truthy_opt (ipAddress session)) eqn:Hstored; [|done]. simpl.
  destruct (truthy_opt (or_else (ip req) (remoteAddress req))) eqn:Hcur; [|done].
  simpl.
  destruct (negb (opt_eqb _ (Some "undefined"))); [|done]. simpl.
  destruct (negb (opt_eqb (ipAddress session) _)) eqn:Hdiff; [|done].
  intros [= <-]. split; [done|].
  apply truthy_opt_Some in Hstored as (stored & Hs & Hs0).
  apply truthy_opt_Some in Hcur as (current & Hc & Hc0).
  exists token, session, stored, current. repeat split; try done.
  apply negb_true_iff in Hdiff. unfold opt_eqb in Hdiff.
  apply bool_decide_eq_false in Hdiff. congruence.
Qed.

End GuardClaims.

(** ** Claims on the worker *)

Section WorkerClaims.
Import Worker.
Open Scope Z_scope.

Lemma rows_of_app (pid : string) (rs rs' : list Result) :
  rows_of pid (rs ++ rs') = (rows_of pid rs ++ rows_of pid rs')%list.
Proof. unfold rows_of. apply List.filter_app. Qed.

Lemma find_rows_of (pid : string) (rs : list Result) :
  List.find (fun r => String.eqb (predictionId r) pid) rs = None
  ↔ rows_of pid rs = [].
Proof.
  unfold rows_of. induction rs as [|r rs IH]; simpl; [done|].
  destruct (String.eqb (predictionId r) pid); [done | exact IH].
Qed.

Lemma getCorrectGroups_ok (now : Z) (st : State) :
  groups_cache_ok (redis st) →
  ∃ g r1, getCorrectGroups now st = Some (g, r1) ∧ groups_cache_ok r1 ∧
          ∀ k, k ≠ CORRECT_GROUPS → r1 !! k = redis st !! k.
Proof.
  intros Hok. unfold getCorrectGroups, Redis.get.
  assert (∀ v, groups_cache_ok
                 (Redis.setex now (redis st) CORRECT_GROUPS
                    CACHE_TTL_CORRECT_GROUPS (Redis.GroupsJson v))) as Hset.
  { intros v e. unfold Redis.setex. rewrite lookup_insert_eq.
    intros [= <-]. by eexists. }
  assert (∀ v k, k ≠ CORRECT_GROUPS →
            Redis.setex now (redis st) CORRECT_GROUPS CACHE_TTL_CORRECT_GROUPS v
              !! k = redis st !! k) as Hne.
  { intros v k Hk. unfold Redis.setex. by rewrite lookup_insert_ne. }
  destruct (redis st !! CORRECT_GROUPS) as [e|] eqn:He.
  - destruct (Hok e He) as [g Hg]. destruct (Redis.live now e).
    + rewrite Hg. cbn [Redis.truthy]. by eexists _, _.
    + cbn [Redis.truthy]. eexists _, _. split; [done|]. split; [apply Hset|].
      intros k Hk. by apply Hne.
  - cbn [Redis.truthy]. eexists _, _. split; [done|]. split; [apply Hset|].
    intros k Hk. by apply Hne.
Qed.

(** Groups that are all arrays can be iterated over, and only those. *)
Lemma iterable_all_arrays (p : list (string * Value)) :
  if all_arrays p then is_Some (iterable (flattenPredictionGroups p))
  else iterable (flattenPredictionGroups p) = None.
Proof.
  induction p as [|[g [elements|fields]] p IH]; cbn [all_arrays forallb andb];
    [by eexists| |done].
  fold (all_arrays p). cbn [flattenPredictionGroups map iterable].
  fold (flattenPredictionGroups p).
  destruct (all_arrays p).
  - destruct IH as [u ->]. by eexists.
  - by rewrite IH.
Qed.

(** The stored prediction a job names is the one [findOne] returns. *)
Lemma find_prediction (pid : string) (ps : list Prediction) :
  (∃ p, p ∈ ps ∧ prediction_id p = pid) →
  ∃ p, List.find (fun p => String.eqb (prediction_id p) pid) ps = Some p ∧
       p ∈ ps ∧ prediction_id p = pid.
Proof.
  intros (p & Hin & Hpid).
  destruct (List.find _ ps) as [p0|] eqn:Hfind.
  - apply find_some in Hfind as [Hin0 Hp0]. apply String.eqb_eq in Hp0.
    exists p0. split; [done|]. split; [by apply list_elem_of_In | done].
  - exfalso. apply list_elem_of_In in Hin.
    pose proof (find_none _ _ Hfind p Hin) as Hne. cbn beta in Hne.
    by rewrite Hpid, String.eqb_refl in Hne.
Qed.

(** What one delivery does to the result table: nothing, or one new row
    for the job's submission, which had none. *)
Lemma processPredictionJob_results (now : Z) (job : PredictionJob) (st : State) :
  let st' := snd (processPredictionJob now job st) in
  results st' = results st
  ∨ ∃ row, results st' = (results st ++ [row])%list ∧
           predictionId row = job_submission job ∧
           rows_of (job_submission job) (results st) = [].
Proof.
  unfold processPredictionJob, job_submission.
  destruct (invalid_id (job_predictionId job)); [by left|].
  destruct (invalid_id (job_userId job)); [by left|].
  destruct (List.find _ (results st)) as [r0|] eqn:Hres; [by left|].
  destruct (List.find _ (predictions st)) as [p0|] eqn:Hpred; [|by left].
  destruct (getCorrectGroups now st) as [[correct r1]|]; [|by left].
  destruct (scoreUser _ _ correct) as [[scoreResult u]|e]; [|by left].
  apply find_some in Hpred as [_ Hpid]. apply String.eqb_eq in Hpid.
  apply find_rows_of in Hres.
  destruct (Redis.incr now r1 STATS_PROCESSED) as [[n r2]|]; simpl;
    right; eexists; (split; [reflexivity|]); by split.
Qed.

Lemma processPredictionJob_keeps_one (now : Z) (job : PredictionJob) (st : State) :
  at_most_one_result st →
  at_most_one_result (snd (processPredictionJob now job st)).
Proof.
  intros Hinv pid.
  destruct (processPredictionJob_results now job st)
    as [->|(row & -> & Hrow & Hnone)]; [apply Hinv|].
  rewrite rows_of_app, length_app.
  destruct (decide (pid = job_submission job)) as [->|Hne].
  - rewrite Hnone. unfold rows_of. cbn [List.filter].
    destruct (String.eqb (predictionId row) (job_submission job)); simpl; lia.
  - assert (rows_of pid [row] = []) as ->.
    { unfold rows_of. cbn [List.filter]. rewrite Hrow.
      by destruct (String.eqb_spec (job_submission job) pid). }
    specialize (Hinv pid). simpl. lia.
Qed.

Lemma processPredictionJob_existing (now : Z) (job : PredictionJob) (st : State) :
  well_formed job → rows_of (job_submission job) (results st) ≠ [] →
  processPredictionJob now job st = (None, st).
Proof.
  intros [Hp Hu] Hrows. unfold processPredictionJob. rewrite Hp, Hu.
  fold (job_submission job).
  destruct (List.find _ (results st)) eqn:Hres; [done|].
  by apply find_rows_of in Hres.
Qed.

Lemma processPredictionJob_inserts (now : Z) (job : PredictionJob) (st : State) :
  well_formed job →
  rows_of (job_submission job) (results st) = [] →
  (∃ p, p ∈ predictions st ∧ prediction_id p = job_submission job) →
  (∀ p, p ∈ predictions st → prediction_id p = job_submission job →
        all_arrays (predict p) = true) →
  groups_cache_ok (redis st) →
  ∃ row, results (snd (processPredictionJob now job st))
         = (results st ++ [row])%list ∧
         predictionId row = job_submission job.
Proof.
  intros [Hp Hu] Hrows Hstored Harrays Hok.
  unfold processPredictionJob. rewrite Hp, Hu. fold (job_submission job).
  apply find_rows_of in Hrows as Hres. rewrite Hres.
  destruct (find_prediction _ _ Hstored) as (p0 & -> & Hin & Hp0).
  destruct (getCorrectGroups_ok now st Hok) as (correct & r1 & -> & _).
  pose proof (iterable_all_arrays (predict p0)) as Hit.
  rewrite (Harrays p0 Hin Hp0) in Hit. destruct Hit as [u Hu'].
  unfold scoreUser. rewrite Hu'.
  destruct (Redis.incr now r1 STATS_PROCESSED) as [[n r2]|]; cbn [snd results];
    by eexists.
Qed.

Lemma deliver_existing (times : list Z) (job : PredictionJob) (st : State) :
  well_formed job → rows_of (job_submission job) (results st) ≠ [] →
  deliver times job st = (map (fun _ => None) times, st).
Proof.
  intros Hwf Hrows. induction times as [|now later IH]; [done|].
  cbn [deliver map]. rewrite processPredictionJob_existing by done.
  by rewrite IH.
Qed.

Lemma rows_of_one (pid : string) (rs : list Result) (row : Result) :
  rows_of pid rs = [] → predictionId row = pid →
  rows_of pid (rs ++ [row]) = [row].
Proof.
  intros Hnone Hrow. rewrite rows_of_app, Hnone. unfold rows_of.
  cbn [List.filter app]. by rewrite Hrow, String.eqb_refl.
Qed.

(** C3. One delivery of a job adds nothing to the result table, or one row
    for the job's submission, which had none; so the worker keeps 'at most
    one result row per submission' wherever it holds.  A well-formed job
    whose submission already has a result row changes nothing and returns
    without error, however often it is delivered.  When the submission has
    no row, is stored with groups that are all arrays, and the cached
    grouping is one that [getCorrectGroups] wrote, delivering the job one
    or more times, one delivery after the other, leaves exactly one row
    for it. *)
Theorem processPredictionJob_at_most_once
        (now : Z) (job : PredictionJob) (st : State) :
  let run := processPredictionJob now job st in
  let pid := job_submission job in
  (results (snd run) = results st
   ∨ ∃ row, results (snd run) = (results st ++ [row])%list ∧
            predictionId row = pid ∧ rows_of pid (results st) = []) ∧
  (at_most_one_result st → at_most_one_result (snd run)) ∧
  (well_formed job → rows_of pid (results st) ≠ [] →
   run = (None, st) ∧
   ∀ times, deliver times job st = (map (fun _ => None) times, st)) ∧
  (well_formed job → rows_of pid (results st) = [] →
   (∃ p, p ∈ predictions st ∧ prediction_id p = pid) →
   (∀ p, p ∈ predictions st → prediction_id p = pid →
         all_arrays (predict p) = true) →
   groups_cache_ok (redis st) →
   ∀ later,
     length (rows_of pid (results (snd (deliver (now :: later) job st))))
     = 1%nat).
Proof.
  intros run pid. split; [|split; [|split]].
  - apply processPredictionJob_results.
  - apply processPredictionJob_keeps_one.
  - intros Hwf Hrows. split; [by apply processPredictionJob_existing|].
    intros times. by apply deliver_existing.
  - intros Hwf Hrows Hstored Harrays Hok later.
    destruct (processPredictionJob_inserts now job st Hwf Hrows Hstored Harrays Hok)
      as (row & Hres & Hrow).
    cbn [deliver].
    destruct (processPredictionJob now job st) as [outcome st1] eqn:Hrun.
    cbn [snd] in Hres.
    assert (rows_of pid (results st1) = [row]) as Hone.
    { rewrite Hres. by apply rows_of_one. }
    rewrite deliver_existing; [|done|]; cbn [snd].
    + by rewrite Hone.
    + unfold pid in Hone. by rewrite Hone.
Qed.

(** C3, the claim as the specification words it: after the worker has
    scored a submission, the synchronous mode scores it again; it returns
    without error and the submission has two result rows.  So it has after
    two runs of the synchronous mode. *)
Lemma processPredictionBatch_second_row :
  at_most_one_result Scenario.scored_by_worker ∧
  fst (processPredictionBatch 2000 (fun _ => 2000) 1000 Scenario.scored_by_worker)
  = None ∧
  length (rows_of "p1" (results Scenario.scored_again)) = 2%nat ∧
  ¬ at_most_one_result Scenario.scored_again ∧
  length (rows_of "p1" (results Scenario.batched_twice)) = 2%nat.
Proof.
  split; [|split; [|split; [|split]]].
  - apply processPredictionJob_keeps_one. intros pid. cbn. lia.
  - reflexivity.
  - reflexivity.
  - intros H. specialize (H "p1"). vm_compute in H. lia.
  - reflexivity.
Qed.

End WorkerClaims.

(** ** The theorems at concrete inputs *)

Section Witnesses.
Import Scoring ScoringSpec Scenario.
Open Scope Z_scope.

Lemma scoreUser_first_satisfied_rule_witness :
  NoDup (labels two_swap) ∧ "" ∉ labels truth12 ∧
  first_satisfied (condition (Some "17") two_swap truth12)
                  (rule (scoreUser (Some "17") two_swap truth12)).
Proof.
  assert (NoDup (labels two_swap)) as Hnd
      by (apply (bool_decide_unpack _); vm_compute; exact I).
  assert ("" ∉ labels truth12) as Hlab
      by (apply (bool_decide_unpack _); vm_compute; exact I).
  split; [exact Hnd|]. split; [exact Hlab|].
  apply (scoreUser_first_satisfied_rule (Some "17") two_swap truth12 Hnd Hlab).
  discriminate.
Defined.

Lemma scoreUser_permutation_invariant_witness :
  permuted_within two_swap two_swap_reordered ∧
  rule (scoreUser (Some "17") two_swap truth12)
  = rule (scoreUser (Some "17") two_swap_reordered truth12).
Proof.
  assert (permuted_within two_swap two_swap_reordered) as Hu.
  { constructor.
    - split; [reflexivity | exact (Permutation_rev ["5";"2";"3";"4"])].
    - repeat (constructor; [split; reflexivity|]). constructor. }
  assert (permuted_within truth12 truth12) as Ht.
  { repeat (constructor; [split; reflexivity|]). constructor. }
  split; [exact Hu|].
  apply (scoreUser_permutation_invariant (Some "17") _ _ _ _ Hu Ht).
Defined.

Lemma sendOtp_sms_failure_not_rolled_back_witness :
  Otp.checkRateLimits sms_down ∅ "09123456789" = None ∧
  fst (Otp.sendOtp otp_cfg sms_down ∅ "09123456789" "10.0.0.1" "Mozilla/5.0")
  = inr (Otp.Error "Failed to send SMS").
Proof.
  split; [reflexivity|].
  apply (sendOtp_sms_failure_not_rolled_back otp_cfg sms_down ∅
           "09123456789" "10.0.0.1" "Mozilla/5.0" "Failed to send SMS");
    reflexivity.
Defined.


Lemma canActivate_ip_mismatch_only_when_witness :
  fst (Guard.canActivate toy_compare cfg0 5000 state0 request_elsewhere)
  = Guard.Unauthorized "SESSION_IP_MISMATCH" ∧
  Auth.enableIpValidation cfg0 = true.
Proof.
  split; [vm_compute; reflexivity|].
  apply (canActivate_ip_mismatch_only_when toy_compare cfg0 5000 state0
           (snd (Guard.canActivate toy_compare cfg0 5000 state0 request_elsewhere))
           request_elsewhere).
  vm_compute. reflexivity.
Defined.

Lemma processPredictionJob_at_most_once_witness :
  length (Worker.rows_of "p1"
            (Worker.results
               (snd (Worker.deliver [1000; 1001; 1002] job_p1 small_state))))
  = 1%nat.
Proof.
  apply (proj2 (proj2 (proj2
           (processPredictionJob_at_most_once 1000 job_p1 small_state)))).
  - split; reflexivity.
  - reflexivity.
  - eexists. split; [left | reflexivity].
  - intros p Hp _. apply list_elem_of_In in Hp.
    destruct Hp as [<-|[]]. reflexivity.
  - intros e H. cbn [small_state Worker.redis] in H. rewrite lookup_empty in H.
    discriminate.
Defined.

End Witnesses.


(** ** Further properties of the scoring kernel *)

Section ScoringExtras.
Import Js Scoring ScoringSpec ScoringAux.

Lemma collectMisplaced_elem (u : UserGroups) (t : CorrectGroups) (e : string) :
  e ∈ collectMisplaced u t
  ↔ ∃ g ut, (g, ut) ∈ u ∧ e ∈ ut ∧ e ∉ correct_of t g.
Proof.
  unfold collectMisplaced. rewrite list_elem_of_In, in_flat_map. split.
  - intros ([g ut] & Hin & He). exists g, ut.
    apply list_elem_of_In in Hin. split; [done|].
    unfold misplaced_in in He.
    rewrite <- list_elem_of_In, list_elem_of_filter in He. destruct He as [Hno Hyes].
    rewrite new_Set_elem in Hyes. split; [done|].
    rewrite negb_true_iff in Hno. unfold has in Hno.
    intros Hc. rewrite <- (new_Set_elem (correct_of t g)), <- includes_elem in Hc.
    congruence.
  - intros (g & ut & Hin & He & Hno). exists (g, ut).
    split; [by apply list_elem_of_In|].
    unfold misplaced_in.
    rewrite <- list_elem_of_In, list_elem_of_filter, new_Set_elem.
    split; [|done].
    rewrite negb_true_iff, <- not_true_iff_false. unfold has.
    by rewrite includes_elem, new_Set_elem.
Qed.

Lemma decide_rule_all_correct (n : nat) (i p h : bool) :
  decide_rule n i p h = ALL_CORRECT ↔ n = 0%nat.
Proof.
  unfold decide_rule. destruct (Nat.eqb_spec n 0) as [->|Hn]; [done|].
  split; [|done].
  destruct (n =? 2)%nat; [done|]. destruct (n =? 3)%nat; [done|].
  by destruct i, p, h.
Qed.

(** X1. [scoreUser] gives ALL_CORRECT, and 100 points, exactly when every id
    the prediction lists under a label belongs to the truth group of that
    label: ids that are missing are not counted, so a prediction with fewer
    groups or fewer ids, and the empty prediction, score 100 as well. *)
Theorem scoreUser_all_correct_iff
        (iran : option string) (u : UserGroups) (t : CorrectGroups) :
  (rule (scoreUser iran u t) = ALL_CORRECT
   ↔ ∀ g ut e, (g, ut) ∈ u → e ∈ ut → e ∈ correct_of t g) ∧
  (rule (scoreUser iran u t) = ALL_CORRECT ↔ score (scoreUser iran u t) = 100%Z) ∧
  score (scoreUser iran [] t) = 100%Z.
Proof.
  split; [|split].
  - rewrite scoreUser_rule, decide_rule_all_correct, length_zero_iff_nil. split.
    + intros Hnil g ut e Hin He.
      destruct (decide (e ∈ correct_of t g)) as [|Hno]; [done|]. exfalso.
      assert (e ∈ collectMisplaced u t) as Hm
          by (apply collectMisplaced_elem; by exists g, ut).
      rewrite Hnil in Hm. by apply elem_of_nil in Hm.
    + intros Hall. destruct (collectMisplaced u t) as [|e l] eqn:Hm; [done|].
      exfalso. assert (e ∈ collectMisplaced u t) as He by (rewrite Hm; left).
      apply collectMisplaced_elem in He as (g & ut & Hin & He & Hno).
      apply Hno. by apply (Hall g ut).
  - rewrite scoreUser_score.
    destruct (rule (scoreUser iran u t)); simpl; split; done.
  - reflexivity.
Qed.

Lemma partition_lengths (has_it : string → bool) (l : list string) :
  (length (filter (fun x => has_it x = true) l)
   + length (filter (fun x => negb (has_it x) = true) l))%nat = length l.
Proof.
  induction l as [|x l IH]; [done|].
  rewrite !filter_cons. destruct (has_it x); simpl;
    repeat case_decide; try done; simpl; lia.
Qed.

Lemma countCorrectTeams_from (u : UserGroups) (t : CorrectGroups) (n : nat) :
  fold_left (fun correctCount '(group, userTeams) =>
               (correctCount
                + length (intersection_of userTeams (correct_of t group)))%nat)
            u n
  = (n + countCorrectTeams u t)%nat.
Proof.
  unfold countCorrectTeams. revert n.
  induction u as [|[g ut] u IH]; intros n; simpl; [lia|].
  rewrite IH. rewrite (IH (length _)). lia.
Qed.

(** X2. Every distinct id of every group is counted exactly once, as correct
    or as misplaced: [countCorrectTeams] plus the misplaced count is the
    number of distinct ids the prediction lists.  In particular the
    [correctTeamsCount] reported with ALL_CORRECT is that number. *)
Theorem correct_plus_misplaced (u : UserGroups) (t : CorrectGroups) :
  (countCorrectTeams u t + length (collectMisplaced u t))%nat = listed u ∧
  ∀ iran, rule (scoreUser iran u t) = ALL_CORRECT →
          correctTeamsCount (details (scoreUser iran u t)) = Some (listed u).
Proof.
  assert ((countCorrectTeams u t + length (collectMisplaced u t))%nat = listed u)
    as Hsum.
  { unfold listed, collectMisplaced. induction u as [|[g ut] u IH]; [done|].
    unfold countCorrectTeams in *. cbn [fold_left flat_map fmap list_fmap sum_list].
    rewrite countCorrectTeams_from, length_app. simpl.
    unfold countCorrectTeams. rewrite <- IH, <- new_Set_length.
    rewrite <- (partition_lengths (has (new_Set (correct_of t g))) (new_Set ut)).
    unfold intersection_of, misplaced_in. lia. }
  split; [done|]. intros iran Hrule.
  assert (length (collectMisplaced u t) = 0%nat) as H0
      by (by rewrite scoreUser_rule, decide_rule_all_correct in Hrule).
  unfold scoreUser. rewrite H0. simpl. f_equal. lia.
Qed.

Lemma decide_rule_floor (n : nat) (i p h : bool) :
  (p = true → 40 ≤ SCORES (decide_rule n i p h))%Z ∧
  (h = true → 20 ≤ SCORES (decide_rule n i p h))%Z.
Proof.
  unfold decide_rule.
  destruct (n =? 0)%nat; [simpl; lia|]. destruct (n =? 2)%nat; [simpl; lia|].
  destruct (n =? 3)%nat; [simpl; lia|].
  destruct i, p, h; simpl; split; intros; try done; lia.
Qed.

Lemma countPerfectGroups_names (u : UserGroups) (t : CorrectGroups) :
  countPerfectGroups u t = length (getCorrectGroupNames u t).
Proof.
  unfold countPerfectGroups, getCorrectGroupNames.
  induction u as [|[g ut] u IH]; [done|]. cbn [List.filter flat_map].
  destruct (isGroupPerfect ut (correct_of t g)); simpl; by rewrite IH.
Qed.

(** X3. [countPerfectGroups] is the number of names [getCorrectGroupNames]
    lists; the group that PERFECT_GROUP reports is the first of them in the
    order of the prediction; and a prediction with a perfect group never
    scores below 40. *)
Theorem perfect_groups_counted
        (iran : option string) (u : UserGroups) (t : CorrectGroups) :
  countPerfectGroups u t = length (getCorrectGroupNames u t) ∧
  (checkPerfectGroup u t ≫= fun r => groupName (details r))
  = head (getCorrectGroupNames u t) ∧
  ((0 < countPerfectGroups u t)%nat → (40 ≤ score (scoreUser iran u t))%Z).
Proof.
  split; [apply countPerfectGroups_names|]. split.
  - unfold getCorrectGroupNames, isGroupPerfect.
    induction u as [|[g ut] u IH]; [done|]. cbn [checkPerfectGroup flat_map].
    destruct (areSetsEqual _ _); [done|]. exact IH.
  - rewrite countPerfectGroups_names. intros Hpos.
    rewrite scoreUser_score, scoreUser_rule. apply decide_rule_floor.
    apply checkPerfectGroup_fired.
    unfold getCorrectGroupNames in Hpos.
    induction u as [|[g ut] u IH]; [simpl in Hpos; lia|].
    cbn [flat_map] in Hpos. unfold isGroupPerfect in Hpos at 1.
    destruct (areSetsEqual _ _) eqn:Heq.
    + exists g, ut. split; [left|]. by apply areSetsEqual_sets in Heq.
    + destruct (IH Hpos) as (g' & ut' & Hin & Hs). exists g', ut'.
      split; [by right | done].
Qed.

Lemma perfect_groups_counted_witness :
  (0 < countPerfectGroups Scenario.two_swap truth12)%nat ∧
  (40 ≤ score (scoreUser (Some "17") Scenario.two_swap truth12))%Z.
Proof.
  assert (0 < countPerfectGroups Scenario.two_swap truth12)%nat as Hpos
      by (apply Nat.ltb_lt; vm_compute; reflexivity).
  split; [exact Hpos|].
  apply (perfect_groups_counted (Some "17") Scenario.two_swap truth12). exact Hpos.
Defined.

Lemma countThree_from (u : UserGroups) (t : CorrectGroups) (n : nat) :
  fold_left (fun threeCorrectCount '(group, userTeams) =>
               let correctInGroup :=
                 length (intersection_of userTeams (correct_of t group)) in
               if (3 <=? correctInGroup)%nat
               then (threeCorrectCount + 1)%nat else threeCorrectCount) u n
  = (n + countThreeCorrectTeamsGroups u t)%nat.
Proof.
  unfold countThreeCorrectTeamsGroups. revert n.
  induction u as [|[g ut] u IH]; intros n; cbn [fold_left]; [lia|].
  destruct (3 <=? length (intersection_of ut (correct_of t g)))%nat.
  - rewrite (IH (n + 1)%nat), (IH (0 + 1)%nat). lia.
  - apply IH.
Qed.

Lemma countThree_pos (u : UserGroups) (t : CorrectGroups) :
  (0 < countThreeCorrectTeamsGroups u t)%nat →
  ∃ g ut, (g, ut) ∈ u ∧
          (3 ≤ size (list_to_set ut ∩ list_to_set (correct_of t g) : gset string))%nat.
Proof.
  induction u as [|[g ut] u IH]; [unfold countThreeCorrectTeamsGroups; simpl; lia|].
  unfold countThreeCorrectTeamsGroups. cbn [fold_left]. rewrite countThree_from.
  destruct (Nat.leb_spec 3 (length (intersection_of ut (correct_of t g))))
    as [Hge|Hlt].
  - intros _. exists g, ut. split; [left|]. by rewrite <- intersection_of_size.
  - intros Hpos. destruct IH as (g' & ut' & Hin & Hs); [lia|].
    exists g', ut'. split; [by right | done].
Qed.

(** X4. When no group, predicted or true, has more than four distinct ids, a
    prediction for which [countThreeCorrectTeamsGroups] is positive scores at
    least 20: a group with three correct ids triggers THREE_CORRECT unless a
    better rule applies, and one with four is a perfect group. *)
Theorem three_correct_floor
        (iran : option string) (u : UserGroups) (t : CorrectGroups) :
  (∀ g ut, (g, ut) ∈ u →
           (size (list_to_set ut : gset string) ≤ 4)%nat ∧
           (size (list_to_set (correct_of t g) : gset string) ≤ 4)%nat) →
  (0 < countThreeCorrectTeamsGroups u t)%nat →
  (20 ≤ score (scoreUser iran u t))%Z.
Proof.
  intros Hfour Hpos.
  destruct (countThree_pos u t Hpos) as (g & ut & Hin & Hthree).
  destruct (Hfour g ut Hin) as [Hu Ht].
  set (A := list_to_set ut : gset string) in *.
  set (B := list_to_set (correct_of t g) : gset string) in *.
  rewrite scoreUser_score, scoreUser_rule.
  destruct (decide (size (A ∩ B) = 3%nat)) as [H3|Hn3].
  - apply decide_rule_floor. apply checkThreeCorrect_fired. by exists g, ut.
  - assert (A ∩ B ⊆ A) as HsA by set_solver.
    assert (A ∩ B ⊆ B) as HsB by set_solver.
    pose proof (subseteq_size _ _ HsA) as HlA.
    pose proof (subseteq_size _ _ HsB) as HlB.
    assert (A ∩ B ≡ A) as HeqA by (apply set_subseteq_size_equiv; [done | lia]).
    assert (A ∩ B ≡ B) as HeqB by (apply set_subseteq_size_equiv; [done | lia]).
    assert (A = B) as Heq by (apply leibniz_equiv; by rewrite <- HeqA, HeqB).
    pose proof (decide_rule_floor (length (collectMisplaced u t))
                  (fired (iranScore iran u t)) (fired (checkPerfectGroup u t))
                  (fired (checkThreeCorrect u t))) as [H40 _].
    assert (fired (checkPerfectGroup u t) = true) as Hp
        by (apply checkPerfectGroup_fired; by exists g, ut).
    specialize (H40 Hp). lia.
Qed.

Lemma three_correct_floor_witness :
  (0 < countThreeCorrectTeamsGroups Scenario.two_swap truth12)%nat ∧
  (20 ≤ score (scoreUser (Some "17") Scenario.two_swap truth12))%Z.
Proof.
  assert (0 < countThreeCorrectTeamsGroups Scenario.two_swap truth12)%nat as Hpos
      by (apply Nat.ltb_lt; vm_compute; reflexivity).
  split; [exact Hpos|].
  apply (three_correct_floor (Some "17") Scenario.two_swap truth12); [|exact Hpos].
  intros g ut Hin. unfold Scenario.two_swap in Hin.
  repeat (apply elem_of_cons in Hin as [Hin|Hin];
          [injection Hin as -> ->; split; apply Nat.leb_le; vm_compute; reflexivity|]).
  by apply elem_of_nil in Hin.
Defined.

(** X5. [isGroupPerfect], which compares sizes and checks one inclusion only,
    holds exactly when the two arrays have the same elements, whatever the
    order and the repetitions; it is symmetric in its arguments. *)
Theorem isGroupPerfect_same_elements (a b : list string) :
  (isGroupPerfect a b = true ↔ ∀ e, e ∈ a ↔ e ∈ b) ∧
  isGroupPerfect a b = isGroupPerfect b a.
Proof.
  assert (∀ a b, isGroupPerfect a b = true ↔ ∀ e, e ∈ a ↔ e ∈ b) as Hspec.
  { intros x y. unfold isGroupPerfect. rewrite areSetsEqual_sets, set_eq.
    apply forall_proper. intros e. by rewrite !elem_of_list_to_set. }
  split; [apply Hspec|].
  apply eq_true_iff_eq. rewrite !Hspec. split; intros H e; by rewrite H.
Qed.

(** X6. [findGroupWithTeam] returns the label of a group that lists the
    team, and null exactly when no group lists it. *)
Theorem findGroupWithTeam_found (m : list (string * list string)) (e : string) :
  match findGroupWithTeam m e with
  | Some g => ∃ ts, (g, ts) ∈ m ∧ e ∈ ts
  | None => ∀ g ts, (g, ts) ∈ m → e ∉ ts
  end.
Proof.
  induction m as [|[g ts] m IH]; simpl.
  - intros g ts H. by apply elem_of_nil in H.
  - destruct (includes ts e) eqn:Hinc.
    + exists ts. split; [left | by apply includes_elem].
    + destruct (findGroupWithTeam m e) as [g'|].
      * destruct IH as (ts' & Hin & He). exists ts'. split; [by right | done].
      * intros g' ts' Hin. apply elem_of_cons in Hin as [[= -> ->]|Hin].
        -- rewrite <- includes_elem. congruence.
        -- by apply (IH g').
Qed.

(** X7. [flattenPredictionGroups] keeps the labels and their order and
    leaves a group that is not an array as it is.  On a payload of the
    declared type it lists under a label exactly the ids of its inner
    arrays, every group can then be iterated over, and a payload that wraps
    every id in an array of its own comes back as the plain groups. *)
Theorem flattenPredictionGroups_wrapped
        (q : list (string * Worker.Value))
        (p : list (string * list (list string))) (u : UserGroups) :
  (Worker.flattenPredictionGroups q).*1 = q.*1 ∧
  (∀ g fields, (g, Worker.PlainObject fields) ∈ q →
               (g, Worker.NotArray fields) ∈ Worker.flattenPredictionGroups q) ∧
  (∀ g tss e, (g, tss) ∈ p →
              (e ∈ concat tss ↔ ∃ ts, ts ∈ tss ∧ e ∈ ts) ∧
              (g, Worker.Teams (concat tss))
              ∈ Worker.flattenPredictionGroups (Worker.typed p)) ∧
  Worker.iterable (Worker.flattenPredictionGroups (Worker.typed p))
  = Some (map (fun '(g, tss) => (g, concat tss)) p) ∧
  Worker.iterable (Worker.flattenPredictionGroups (Worker.typed (wrapped u)))
  = Some u.
Proof.
  assert (∀ tss : list (list string),
            Worker.flat (map Worker.Ids tss) = concat tss) as Hflat.
  { intros tss. unfold Worker.flat. by rewrite map_map, map_id. }
  assert (∀ p : list (string * list (list string)),
            Worker.iterable (Worker.flattenPredictionGroups (Worker.typed p))
            = Some (map (fun '(g, tss) => (g, concat tss)) p)) as Hiter.
  { induction p0 as [|[g tss] p0 IH]; [done|].
    cbn [Worker.typed map Worker.flattenPredictionGroups Worker.iterable].
    fold (Worker.typed p0). fold (Worker.flattenPredictionGroups (Worker.typed p0)).
    by rewrite IH, Hflat. }
  split; [|split; [|split; [|split]]].
  - unfold Worker.flattenPredictionGroups.
    induction q as [|[g v] q IH]; [done|]. simpl. f_equal. exact IH.
  - intros g fields Hin. unfold Worker.flattenPredictionGroups.
    apply list_elem_of_In, in_map_iff. exists (g, Worker.PlainObject fields).
    split; [done | by apply list_elem_of_In].
  - intros g tss e Hin. split.
    + rewrite list_elem_of_In, in_concat. split.
      * intros (ts & Hts & He). exists ts. by rewrite !list_elem_of_In.
      * intros (ts & Hts & He). exists ts. by rewrite <- !list_elem_of_In.
    + unfold Worker.flattenPredictionGroups, Worker.typed. rewrite map_map.
      apply list_elem_of_In, in_map_iff. exists (g, tss).
      split; [by rewrite Hflat | by apply list_elem_of_In].
  - apply Hiter.
  - rewrite Hiter. f_equal. unfold wrapped.
    induction u as [|[g ts] u IH]; [done|]. simpl. rewrite IH. do 2 f_equal.
    induction ts as [|x ts IHts]; [done|]. simpl. by rewrite IHts.
Qed.

End ScoringExtras.


(** ** Further properties of the broker adapter *)

Section BrokerExtras.
Import Broker BrokerAux.
Open Scope Z_scope.

(** X8. Whatever the handler does, [processMessage] settles the delivery
    exactly once, by an [ack] of the message or by a [nack] of it without
    requeue.  It publishes only after an error, once, before the [ack], to
    the default exchange with the queue as routing key; the copy has the
    same body, the same properties and other headers, [x-retry-count] one
    above the (defaulted) old value and [x-last-error] set to the message of
    the error. *)
Theorem processMessage_settles_once
        (configured : option Z) (msg : Message) (queueName : string)
        (outcome : option string) :
  let calls := processMessage configured msg queueName outcome in
  length (List.filter settles calls) = 1%nat ∧
  (∀ m a r, nack m a r ∈ calls → m = msg ∧ a = false ∧ r = false) ∧
  (∀ m, ack m ∈ calls → m = msg) ∧
  (∀ ex rk body opts, publish ex rk body opts ∈ calls →
     calls = [publish ex rk body opts; ack msg] ∧
     ex = "" ∧ rk = queueName ∧ body = content msg ∧
     other_properties opts = other_properties (properties msg) ∧
     ∃ h e, outcome = Some e ∧ headers opts = Some h ∧
            x_retry_count h = Some (or_default (retry_header msg) 0 + 1) ∧
            x_last_error h = Some e ∧
            other_headers h
            = default ∅ (other_headers <$> headers (properties msg))).
Proof.
  intros calls. unfold calls, processMessage.
  destruct outcome as [e|].
  - destruct (handleMessageRetry_decision configured msg queueName e)
      as [[_ ->]|[_ ->]].
    + split; [done|]. split; [|split].
      * intros m a r H. repeat (apply elem_of_cons in H as [H|H]; [done|]).
        by apply elem_of_nil in H.
      * intros m H. apply elem_of_cons in H as [H|H]; [done|].
        apply elem_of_cons in H as [[= ->]|H]; [done|]. by apply elem_of_nil in H.
      * intros ex rk body opts H. apply elem_of_cons in H as [[= -> -> -> ->]|H].
        -- repeat split; try done. eexists _, e. repeat split; try done.
           all: unfold with_retry; by destruct (headers (properties msg)).
        -- apply elem_of_cons in H as [H|H]; [done|]. by apply elem_of_nil in H.
    + split; [done|]. split; [|split].
      * intros m a r H. apply elem_of_cons in H as [[= -> -> ->]|H]; [done|].
        by apply elem_of_nil in H.
      * intros m H. apply elem_of_cons in H as [H|H]; [done|].
        by apply elem_of_nil in H.
      * intros ex rk body opts H. apply elem_of_cons in H as [H|H]; [done|].
        by apply elem_of_nil in H.
  - split; [done|]. split; [|split].
    + intros m a r H. apply elem_of_cons in H as [H|H]; [done|].
      by apply elem_of_nil in H.
    + intros m H. apply elem_of_cons in H as [[= ->]|H]; [done|].
      by apply elem_of_nil in H.
    + intros ex rk body opts H. apply elem_of_cons in H as [H|H]; [done|].
      by apply elem_of_nil in H.
Qed.

Lemma or_default_zero (x : option Z) : or_default x 0 = default 0 x.
Proof. destruct x as [n|]; [|done]. simpl. destruct (Z.eqb_spec n 0); lia. Qed.

Lemma deliveries_count (k : nat) :
  ∀ (fuel : nat) (configured : option Z) (msg : Message) (queueName error : string),
    Z.to_nat (or_default configured 3 - or_default (retry_header msg) 0 - 1) = k →
    (S k ≤ fuel)%nat →
    deliveries fuel configured msg queueName error = S k.
Proof.
  induction k as [|k IH]; intros fuel configured msg queueName error Hk Hfuel;
    (destruct fuel as [|fuel]; [lia|]); cbn [deliveries];
    unfold processMessage;
    destruct (handleMessageRetry_decision configured msg queueName error)
      as [[Hlt ->]|[Hge ->]]; cbn [redelivered].
  - exfalso. lia.
  - done.
  - rewrite !String.eqb_refl. cbn [andb]. cbv beta iota. f_equal.
    apply IH; [|lia].
    unfold retry_header. cbn [properties headers].
    assert (x_retry_count
              (with_retry (headers (properties msg))
                 (or_default (retry_header msg) 0 + 1) error)
            = Some (or_default (retry_header msg) 0 + 1)) as Hx
        by (unfold with_retry; by destruct (headers (properties msg))).
    unfold retry_header in Hx. rewrite Hx.
    rewrite (or_default_zero (Some _)). simpl. unfold retry_header in Hk. lia.
  - exfalso. lia.
Qed.

(** X9. A message whose handler always fails is delivered a bounded number
    of times and then dead-lettered: with limit M = maxRetries (3 when it is
    not configured) and retry counter c (0 without the header) the handler
    sees it exactly max(1, M - c) times.  A message published by
    [publishToQueue] is thus attempted M times, M - 1 of them retries. *)
Theorem failing_message_delivered_maxRetries_times
        (fuel : nat) (configured : option Z) (msg : Message)
        (queueName error : string) :
  let M := or_default configured 3 in
  let c := or_default (retry_header msg) 0 in
  Z.max 1 (M - c) ≤ Z.of_nat fuel →
  Z.of_nat (deliveries fuel configured msg queueName error) = Z.max 1 (M - c).
Proof.
  intros M c Hfuel.
  rewrite (deliveries_count (Z.to_nat (M - c - 1)) fuel configured msg
             queueName error); [lia | done | lia].
Qed.

Lemma failing_message_delivered_maxRetries_times_witness :
  Z.of_nat (deliveries 10 None (fresh_message "{}") "prediction.process" "boom") = 3.
Proof.
  apply (failing_message_delivered_maxRetries_times 10 None (fresh_message "{}")
           "prediction.process" "boom").
  vm_compute. discriminate.
Defined.

End BrokerExtras.


(** ** Further properties of the one-time code service *)

Section OtpExtras.
Import Otp OtpVerify.
Open Scope Z_scope.

Local Ltac key_neq :=
  let H := fresh in
  intros H;
  unfold otpKey, sendLimitKey, lastRequestKey, attemptKey, failureKey,
    ipFailureKey in H;
  cbv [String.append] in H; congruence.



Lemma get_trackFailure_ne (now t : Z) (r r' : gmap string Redis.Entry)
      (k k' : string) :
  k ≠ k' → trackFailure now r k = Some r' → Redis.get t r' k' = Redis.get t r k'.
Proof.
  intros Hne. unfold trackFailure.
  destruct (Redis.incr now r k) as [[n r0]|] eqn:Hincr; [|done].
  intros [= <-]. rewrite get_expire_ne by done.
  by apply (get_incr_ne now t n r r0 k k').
Qed.

Lemma sendOtp_success (cfg : Otp.Config) (w : World) (r r1 : gmap string Redis.Entry)
      (phone ip userAgent : string) (reply : option string) :
  sendOtp cfg w r phone ip userAgent = (inl reply, r1) →
  checkRateLimits w r phone = None ∧
  r1 = setRateLimitKeys w
         (storeOtp w r phone (generateOtpCode (otp_length cfg) (draw w))
            (expirySeconds cfg) ip userAgent)
         phone (sendCooldownSeconds cfg).
Proof.
  unfold sendOtp. destruct (checkRateLimits w r phone); [done|].
  destruct (sms w phone _); [done|]. by intros [= _ <-].
Qed.



Lemma incr_countable (now : Z) (r : gmap string Redis.Entry) (k : string) :
  countable now r k → is_Some (Redis.incr now r k).
Proof.
  unfold countable, Redis.get, Redis.incr. intros Hc.
  destruct (r !! k) as [e|]; [|done].
  destruct (Redis.live now e); [|done].
  destruct (Hc (Redis.value e) eq_refl) as [n ->]. done.
Qed.

Lemma trackFailure_countable (now : Z) (r : gmap string Redis.Entry) (k : string) :
  countable now r k → is_Some (trackFailure now r k).
Proof.
  intros Hc. unfold trackFailure.
  by destruct (incr_countable now r k Hc) as [[n r'] ->].
Qed.

Lemma get_incr_eq (now t n secs : Z) (r r' : gmap string Redis.Entry) (k : string) :
  Redis.incr now r k = Some (n, r') → t < now + secs * 1000 →
  Redis.get t (Redis.expire now r' k secs) k = Some (Redis.Num n).
Proof.
  intros Hincr Ht.
  destruct (incr_lookup now n r r' k Hincr) as (e & He & Hl & Hv).
  unfold Redis.expire. rewrite He, Hl.
  unfold Redis.get. rewrite lookup_insert_eq. unfold Redis.live. simpl.
  destruct (Z.ltb_spec t (now + secs * 1000)); [by rewrite Hv | lia].
Qed.

(** X11. Once the attempts counted against a phone have reached the limit,
    [verifyOtp] fails with EXCEEDED_VERIFICATION_ATTEMPTS for every code, the
    right one included: the stored code and the users are left as they
    were, the attempt is counted and the window starts again. *)
Theorem verifyOtp_locked_out
        (vcfg : Config) (now n : Z) (new_id : string) (st : State)
        (phone code : string) :
  Redis.get now (redis st) (attemptKey phone) = Some (Redis.Num n) →
  maxVerifyAttempts vcfg ≤ n →
  countable now (redis st) (failureKey phone) →
  let run := verifyOtp vcfg now new_id st phone code in
  fst run = inr (TooManyRequestsException "EXCEEDED_VERIFICATION_ATTEMPTS") ∧
  users (snd run) = users st ∧
  (∀ t, Redis.get t (redis (snd run)) (otpKey phone)
        = Redis.get t (redis st) (otpKey phone)) ∧
  (∀ t, t < now + verifyWindowSeconds vcfg * 1000 →
        Redis.get t (redis (snd run)) (attemptKey phone) = Some (Redis.Num (n + 1))).
Proof.
  intros Hatt Hmax Hcount run.
  assert (∃ r0, Redis.incr now (redis st) (attemptKey phone) = Some (n + 1, r0))
    as [r0 Hincr].
  { unfold Redis.get in Hatt. unfold Redis.incr.
    destruct (redis st !! attemptKey phone) as [e|]; [|done].
    destruct (Redis.live now e); [|done]. injection Hatt as ->. eauto. }
  set (r1 := Redis.expire now r0 (attemptKey phone) (verifyWindowSeconds vcfg)).
  assert (∀ t k, k ≠ attemptKey phone → Redis.get t r1 k = Redis.get t (redis st) k)
    as Hframe.
  { intros t k Hk. unfold r1. rewrite get_expire_ne by done.
    apply (get_incr_ne now t (n + 1) (redis st) r0 (attemptKey phone) k);
      [congruence | done]. }
  assert (countable now r1 (failureKey phone)) as Hcount1.
  { intros v. rewrite Hframe by key_neq. apply Hcount. }
  destruct (trackFailure_countable now r1 _ Hcount1) as [r2 Htrack].
  assert (run = (inr (TooManyRequestsException "EXCEEDED_VERIFICATION_ATTEMPTS"),
                 mkState r2 (users st))) as ->.
  { unfold run, verifyOtp. rewrite Hincr. fold r1.
    destruct (Z.ltb_spec (maxVerifyAttempts vcfg) (n + 1)); [|lia].
    by rewrite Htrack. }
  cbn [fst snd redis users]. repeat split.
  - intros t.
    rewrite (get_trackFailure_ne now t r1 r2 (failureKey phone) (otpKey phone)
               ltac:(key_neq) Htrack).
    apply Hframe. key_neq.
  - intros t Ht.
    rewrite (get_trackFailure_ne now t r1 r2 (failureKey phone) (attemptKey phone)
               ltac:(key_neq) Htrack).
    by apply (get_incr_eq now t (n + 1) _ (redis st) r0).
Qed.

(** X12. A wrong code does not use up the stored one: when the attempt is
    within the limit and the stored code has not expired, [verifyOtp] with
    another code fails with INVALID_OTP_CODE, creates or updates no user and
    leaves the stored code in place for the next attempt. *)
Theorem verifyOtp_wrong_code_keeps_otp
        (vcfg : Config) (now a : Z) (new_id : string) (st : State)
        (r0 : gmap string Redis.Entry) (phone code : string) (d : Redis.OtpData) :
  Redis.incr now (redis st) (attemptKey phone) = Some (a, r0) →
  a ≤ maxVerifyAttempts vcfg →
  Redis.get now (redis st) (otpKey phone) = Some (Redis.OtpJson d) →
  now ≤ Redis.otp_expiresAt d →
  code ≠ Redis.otp_code d →
  countable now (redis st) (ipFailureKey (Redis.otp_ip d)) →
  let run := verifyOtp vcfg now new_id st phone code in
  fst run = inr (BadRequestException "INVALID_OTP_CODE") ∧
  users (snd run) = users st ∧
  (∀ t, Redis.get t (redis (snd run)) (otpKey phone)
        = Redis.get t (redis st) (otpKey phone)).
Proof.
  intros Hincr Ha Hotp Hlive Hcode Hcount run.
  set (r1 := Redis.expire now r0 (attemptKey phone) (verifyWindowSeconds vcfg)).
  assert (∀ t k, k ≠ attemptKey phone → Redis.get t r1 k = Redis.get t (redis st) k)
    as Hframe.
  { intros t k Hk. unfold r1. rewrite get_expire_ne by done.
    apply (get_incr_ne now t a (redis st) r0 (attemptKey phone) k);
      [congruence | done]. }
  assert (countable now r1 (ipFailureKey (Redis.otp_ip d))) as Hcount1.
  { intros v. rewrite Hframe by key_neq. apply Hcount. }
  destruct (trackFailure_countable now r1 _ Hcount1) as [r2 Htrack].
  assert (run = (inr (BadRequestException "INVALID_OTP_CODE"),
                 mkState r2 (users st))) as ->.
  { unfold run, verifyOtp. rewrite Hincr. fold r1.
    destruct (Z.ltb_spec (maxVerifyAttempts vcfg) a); [lia|].
    rewrite Hframe by key_neq. rewrite Hotp. cbn [Redis.truthy negb].
    destruct (Z.ltb_spec (Redis.otp_expiresAt d) now); [lia|].
    destruct (String.eqb_spec (Redis.otp_code d) code); [congruence|].
    cbn [negb]. by rewrite Htrack. }
  cbn [fst snd redis users]. repeat split.
  intros t.
  rewrite (get_trackFailure_ne now t r1 r2 (ipFailureKey (Redis.otp_ip d))
             (otpKey phone) ltac:(key_neq) Htrack).
  apply Hframe. key_neq.
Qed.

(** X13. At most one [sendOtp] succeeds per phone and cooldown: after a
    successful call at time t0, every call for the same phone before
    t0 + SEND_COOLDOWN fails with EXCEEDED_SEND_LIMIT, sends nothing and
    leaves the cache as it is, so the code and the cooldown are not renewed. *)
Theorem sendOtp_once_per_cooldown
        (cfg cfg' : Otp.Config) (w w' : World) (r r1 : gmap string Redis.Entry)
        (phone ip userAgent ip' userAgent' : string) (reply : option string) :
  sendOtp cfg w r phone ip userAgent = (inl reply, r1) →
  now w' < now w + sendCooldownSeconds cfg * 1000 →
  sendOtp cfg' w' r1 phone ip' userAgent'
  = (inr (TooManyRequestsException "EXCEEDED_SEND_LIMIT"), r1).
Proof.
  intros Hsend Ht. apply sendOtp_success in Hsend as [_ ->].
  unfold sendOtp, checkRateLimits.
  assert (Redis.get (now w')
            (setRateLimitKeys w
               (storeOtp w r phone (generateOtpCode (otp_length cfg) (draw w))
                  (expirySeconds cfg) ip userAgent)
               phone (sendCooldownSeconds cfg)) (sendLimitKey phone)
          = Some (Redis.Str "1")) as ->; [|done].
  unfold setRateLimitKeys. rewrite get_setex_ne by key_neq.
  by apply get_setex_eq.
Qed.

Lemma filter_chars_idem (keep : ascii → bool) (s : string) :
  filter_chars keep (filter_chars keep s) = filter_chars keep s.
Proof.
  induction s as [|c s IH]; [done|]. cbn [filter_chars].
  destruct (keep c) eqn:Hc; [|done]. cbn [filter_chars]. by rewrite Hc, IH.
Qed.

Lemma filter_chars_kept (keep : ascii → bool) (s : string) (c : ascii) :
  In c (String.list_ascii_of_string (filter_chars keep s)) → keep c = true.
Proof.
  induction s as [|c0 s IH]; [done|]. cbn [filter_chars].
  destruct (keep c0) eqn:Hc; [|done]. cbn [String.list_ascii_of_string In].
  intros [<-|Hin]; [done | by apply IH].
Qed.

(** X15. [normalizePhoneNumber] is idempotent and its result holds only
    digits and '+'; a number whose kept characters begin with the country
    code 98 gets a '+' in front, every other number is just stripped. *)
Theorem normalizePhoneNumber_idempotent (phone : string) :
  normalizePhoneNumber (normalizePhoneNumber phone) = normalizePhoneNumber phone ∧
  (∀ c, In c (String.list_ascii_of_string (normalizePhoneNumber phone)) →
        digit_or_plus c = true) ∧
  (normalizePhoneNumber phone
   = if String.prefix "98" (filter_chars digit_or_plus phone)
     then String "+" (filter_chars digit_or_plus phone)
     else filter_chars digit_or_plus phone).
Proof.
  assert (∀ n, String.prefix "98" n && negb (String.prefix "+98" n)
               = String.prefix "98" n) as Hcond.
  { intros [|c n]; [done|]. cbn [String.prefix].
    destruct (ascii_dec "9" c) as [<-|]; [|done].
    destruct (ascii_dec "+" "9"); [done|]. cbn [negb]. apply andb_true_r. }
  unfold normalizePhoneNumber. rewrite !Hcond.
  set (n := filter_chars digit_or_plus phone).
  assert (filter_chars digit_or_plus n = n) as Hn by apply filter_chars_idem.
  destruct (String.prefix "98" n) eqn:Hp.
  - assert (filter_chars digit_or_plus ("+" ++ n) = String "+" n) as Hplus.
    { change ("+" ++ n)%string with (String "+" n). cbn [filter_chars].
      change (digit_or_plus "+") with true. cbv iota. by rewrite Hn. }
    rewrite !Hplus. split; [|split].
    + assert (String.prefix "98" (String "+" n) = false) as ->; [|done].
      cbn [String.prefix]. by destruct (ascii_dec "9" "+").
    + intros c [<-|Hin]; [done|]. by apply (filter_chars_kept _ phone).
    + done.
  - rewrite !Hn, Hp. split; [done|]. split; [|done].
    intros c Hin. by apply (filter_chars_kept _ phone).
Qed.

End OtpExtras.


(** ** Further properties of the session service *)

Section SessionExtras.
Import Auth AuthSpec Sessions.
Open Scope Z_scope.

Section Compare.
Variable compare : string → string → bool.
Variable cfg : Config.
Variable now : Z.

Lemma validateSession_sessions (st : State) (token : string) :
  sessions (snd (validateSession compare cfg now st token)) = sessions st.
Proof.
  unfold validateSession. destruct (negb (validateTokenFormat cfg token)); [done|].
  pose proof (validateTokenFromCache_sessions compare cfg now st token
                (getTokenPrefix token)) as Hc.
  destruct (validateTokenFromCache compare now st token (getTokenPrefix token))
    as [[s|] st1]; [done|]. simpl in Hc.
  unfold validateTokenFromDatabase. rewrite Hc.
  by destruct (first_verified compare token (find_recent now (sessions st))).
Qed.

Lemma validateSession_sound (st : State) (token : string) (s : Session) :
  fst (validateSession compare cfg now st token) = Some s →
  validateTokenFormat cfg token = true ∧ s ∈ sessions st ∧
  now < expiresAt s ∧ compare token (tokenHash s) = true.
Proof.
  unfold validateSession.
  destruct (validateTokenFormat cfg token) eqn:Hfmt; [|done]. cbn [negb].
  pose proof (validateTokenFromCache_sessions compare cfg now st token
                (getTokenPrefix token)) as Hsess.
  unfold validateTokenFromCache in *.
  assert (∀ st1, sessions st1 = sessions st →
            fst (validateTokenFromDatabase compare cfg now st1 token
                   (getTokenPrefix token)) = Some s →
            true = true ∧ s ∈ sessions st ∧ now < expiresAt s ∧
            compare token (tokenHash s) = true) as Hdb.
  { intros st1 Hst1. unfold validateTokenFromDatabase. rewrite Hst1.
    destruct (first_verified compare token (find_recent now (sessions st)))
      as [s'|] eqn:Hfv; [|done].
    intros [= ->]. apply first_verified_elem in Hfv as [Hin Hc].
    apply find_recent_elem in Hin as [Hin Hlive]. done. }
  destruct (getCachedSessionByAccessToken now (redis st) (getTokenPrefix token))
    as [cid|]; [|by apply Hdb].
  destruct (findOne_id (sessions st) cid) as [s0|] eqn:Hfind; [|by apply Hdb].
  apply findOne_id_elem in Hfind as [Hin0 _].
  destruct (Z.ltb_spec now (expiresAt s0)); [|by apply Hdb].
  destruct (compare token (tokenHash s0)) eqn:Hc0; [|by apply Hdb].
  by intros [= <-].
Qed.

(** X16. [validateSession] is sound and read-only on the table: the session
    it returns is stored, unexpired and its access hash verifies the token,
    which has the valid format; the session table is never modified; and a
    token of invalid format is rejected before the cache or the table is
    consulted, leaving the whole state unchanged. *)
Theorem validateSession_sound_and_readonly (st : State) (token : string) :
  (∀ s, fst (validateSession compare cfg now st token) = Some s →
        validateTokenFormat cfg token = true ∧ s ∈ sessions st ∧
        now < expiresAt s ∧ compare token (tokenHash s) = true) ∧
  sessions (snd (validateSession compare cfg now st token)) = sessions st ∧
  (validateTokenFormat cfg token = false →
   validateSession compare cfg now st token = (None, st)).
Proof.
  split; [apply validateSession_sound|]. split; [apply validateSession_sessions|].
  intros Hfmt. unfold validateSession. by rewrite Hfmt.
Qed.

Lemma deleteSession_elem (st : State) (user sessionId : string) (s : Session) :
  s ∈ sessions (deleteSession st user sessionId) →
  s ∈ sessions st ∧ ¬ targeted user sessionId s.
Proof.
  unfold deleteSession.
  destruct (List.find _ (sessions st)) as [s0|] eqn:Hfind; simpl.
  - apply delete_where_elem.
  - intros Hs. split; [done|]. intros [Hid Hu].
    apply list_elem_of_In in Hs.
    pose proof (find_none _ _ Hfind s Hs) as Hm. simpl in Hm.
    by rewrite Hid, Hu, !String.eqb_refl in Hm.
Qed.

(** X17. Deleting a session revokes its token even though the cache is not
    cleared: when the token verifies against no stored session but the one
    addressed by [deleteSession], [validateSession] returns null after the
    deletion, whatever the cache still maps the prefix to. *)
Theorem deleteSession_revokes_token (st : State) (user sessionId token : string) :
  (∀ s, s ∈ sessions st → compare token (tokenHash s) = true →
        targeted user sessionId s) →
  fst (validateSession compare cfg now (deleteSession st user sessionId) token)
  = None.
Proof.
  intros Honly.
  destruct (fst (validateSession compare cfg now
                   (deleteSession st user sessionId) token)) as [s|] eqn:Hv;
    [|done].
  exfalso. apply validateSession_sound in Hv as (_ & Hin & _ & Hc).
  apply deleteSession_elem in Hin as [Hin Hnot]. apply Hnot. by apply Honly.
Qed.

(** X18. [deleteAllUserSessions] logs a user out everywhere and nobody
    else: afterwards [getUserSessions] is empty for that user and unchanged
    for every other user, no token validates to a session of that user, and
    the cache is left as it was. *)
Theorem deleteAllUserSessions_logs_out (st : State) (user : string) :
  let st' := deleteAllUserSessions st user in
  getUserSessions st' user = [] ∧
  (∀ other, other ≠ user → getUserSessions st' other = getUserSessions st other) ∧
  (∀ token s, fst (validateSession compare cfg now st' token) = Some s →
              userId s ≠ user) ∧
  redis st' = redis st.
Proof.
  intros st'. unfold st', deleteAllUserSessions, getUserSessions. simpl.
  split; [|split; [|split; [|done]]].
  - replace (List.filter _ (List.filter _ (sessions st))) with (@nil Session);
      [done|].
    symmetry. induction (sessions st) as [|x l IH]; simpl; [done|].
    destruct (String.eqb (userId x) user) eqn:Hx; simpl; [done|].
    by rewrite Hx.
  - intros other Hne. f_equal.
    induction (sessions st) as [|x l IH]; simpl; [done|].
    destruct (String.eqb_spec (userId x) user) as [Hx|Hx]; simpl.
    + destruct (String.eqb_spec (userId x) other); [congruence | done].
    + by rewrite IH.
  - intros token s Hv. apply validateSession_sound in Hv as (_ & Hin & _).
    simpl in Hin. apply list_elem_of_In, filter_In in Hin as [_ Hne].
    apply negb_true_iff in Hne. by apply String.eqb_neq.
Qed.

Lemma findOne_id_app_new (db : list Session) (x : Session) :
  id x ∉ id <$> db → findOne_id (db ++ [x]) (id x) = Some x.
Proof.
  unfold findOne_id. induction db as [|y db IH]; simpl.
  - intros _. by rewrite String.eqb_refl.
  - rewrite not_elem_of_cons. intros [Hne Hnot].
    destruct (String.eqb_spec (id y) (id x)); [congruence | auto].
Qed.

Lemma truthy_ne (a : string) : a ≠ "" → Js.truthy a = true.
Proof. unfold Js.truthy. by destruct (String.eqb_spec a ""). Qed.

(** X19. The two tokens handed out by [createSession] are usable at once:
    the new row is stored for the user, the access token validates to it
    from the cache for as long as the cache entry lives, and the refresh
    token locates it until the session expires. *)
Theorem createSession_tokens_usable
        (st st' : State) (user ip agent new_id : string)
        (access refresh : string * string) (later : Z)
        (session : Session) (accessToken refreshToken : string) :
  createSession cfg now st user ip agent new_id access refresh
  = (session, accessToken, refreshToken, st') →
  new_id ∉ id <$> sessions st → new_id ≠ "" →
  later < now + refreshTokenTtlSeconds cfg * 1000 →
  (userId session = user ∧ id session = new_id ∧ session ∈ sessions st' ∧
   accessToken = access.1 ∧ refreshToken = refresh.1) ∧
  (validateTokenFormat cfg accessToken = true →
   compare accessToken access.2 = true →
   later < now + accessTokenTtlSeconds cfg * 1000 →
   validateSession compare cfg later st' accessToken = (Some session, st')) ∧
  (refresh.2 ≠ "" → compare refreshToken refresh.2 = true →
   findSessionByRefreshToken compare later st' refreshToken = Some session).
Proof.
  destruct access as [tokA hA], refresh as [tokR hR]. unfold createSession.
  intros [= <- <- <- <-] Hnew Hid Hlive. cbn [fst snd id userId].
  split; [|split].
  - repeat split. simpl. apply elem_of_app. right. by left.
  - intros Hfmt Hcmp Hcache. unfold validateSession. rewrite Hfmt. cbn [negb].
    unfold validateTokenFromCache, getCachedSessionByAccessToken.
    cbn [redis sessions]. unfold cacheRefreshToken, cacheAccessToken.
    rewrite get_setex_ne
      by (intros H; by apply (session_keys_distinct (getTokenPrefix tokR)
                                (getTokenPrefix tokA) "")).
    rewrite get_setex_eq by done. cbn [cached_id]. rewrite (truthy_ne _ Hid).
    match goal with
    | |- context [findOne_id (_ ++ [?x]) new_id] =>
        let Hf := fresh in
        pose proof (findOne_id_app_new (sessions st) x Hnew) as Hf;
        cbn [id] in Hf; rewrite Hf; clear Hf
    end.
    cbn [expiresAt tokenHash]. rewrite Hcmp.
    by destruct (Z.ltb_spec later (now + refreshTokenTtlSeconds cfg * 1000));
      [|lia].
  - intros HhR Hcmp. unfold findSessionByRefreshToken, getCachedSessionByRefreshToken.
    cbn [redis sessions]. unfold cacheRefreshToken.
    rewrite get_setex_eq by done. cbn [cached_id]. rewrite (truthy_ne _ Hid).
    match goal with
    | |- context [findOne_id (_ ++ [?x]) new_id] =>
        let Hf := fresh in
        pose proof (findOne_id_app_new (sessions st) x Hnew) as Hf;
        cbn [id] in Hf; rewrite Hf; clear Hf
    end.
    unfold refresh_verified. cbn [expiresAt refreshTokenHash].
    rewrite (truthy_ne _ HhR), Hcmp.
    by destruct (Z.ltb_spec later (now + refreshTokenTtlSeconds cfg * 1000));
      [|lia].
Qed.

Lemma findSessionByRefreshToken_live (st : State) (rt : string) (s : Session) :
  findSessionByRefreshToken compare now st rt = Some s → now < expiresAt s.
Proof.
  unfold findSessionByRefreshToken, findSessionByRefreshTokenFromDatabase.
  assert (∀ x, List.find (refresh_verified compare rt)
                         (find_bulk now (sessions st)) = Some x →
               now < expiresAt x) as Hdb.
  { intros x Hx. apply find_some in Hx as [Hin _]. unfold find_bulk in Hin.
    apply list_elem_of_In, subseteq_take in Hin.
    apply list_elem_of_In, filter_In in Hin as [_ Hl]. unfold not_expired in Hl.
    by apply Z.ltb_lt. }
  destruct (getCachedSessionByRefreshToken _ _ _) as [cid|]; [|apply Hdb].
  destruct (findOne_id (sessions st) cid) as [x|] eqn:Hf; [|apply Hdb].
  destruct (Z.ltb_spec now (expiresAt x)); [|apply Hdb].
  destruct (refresh_verified compare rt x); [|apply Hdb].
  by intros [= <-].
Qed.

Lemma only_access_hash_rewritten_elem (sid h : string) (db : list Session)
      (y : Session) :
  y ∈ only_access_hash_rewritten sid h db →
  ∃ x, x ∈ db ∧ (id x = sid ∧ y = rehashed h x ∨ id x ≠ sid ∧ y = x).
Proof.
  unfold only_access_hash_rewritten. intros Hy.
  apply list_elem_of_In, in_map_iff in Hy as (x & Hx & Hin).
  exists x. split; [by apply list_elem_of_In|].
  destruct (String.eqb_spec (id x) sid); [left | right]; done.
Qed.

(** X20. [refreshSession] rotates the access token: the token it returns
    validates at once to the located session (with the new hash), and a
    token that verified against that session only, such as the previous
    access token, is rejected from then on unless it also verifies against
    the new hash. *)
Theorem refreshSession_rotates_access_token
        (st st' : State) (refreshToken : string) (fresh : string * string)
        (accessToken : string) (s : Session) :
  NoDup (id <$> sessions st) →
  findSessionByRefreshToken compare now st refreshToken = Some s →
  refreshSession compare cfg now st refreshToken fresh = (inl accessToken, st') →
  (validateTokenFormat cfg fresh.1 = true → compare fresh.1 fresh.2 = true →
   id s ≠ "" → 0 < accessTokenTtlSeconds cfg →
   validateSession compare cfg now st' accessToken
   = (Some (rehashed fresh.2 s), st')) ∧
  (∀ old, compare old fresh.2 = false →
          (∀ x, x ∈ sessions st → compare old (tokenHash x) = true → x = s) →
          fst (validateSession compare cfg now st' old) = None).
Proof.
  intros Hnd Hfind Hrun. unfold refreshSession in Hrun. rewrite Hfind in Hrun.
  destruct (incrementRefreshFrequency now (redis st) (userId s))
    as [[n r1]|] eqn:Hincr; [|done].
  destruct fresh as [tok h]. simpl in Hrun. injection Hrun as <- <-.
  apply findSessionByRefreshToken_elem in Hfind as Hin.
  apply findSessionByRefreshToken_live in Hfind as Hlive.
  fold (rehashed h s). rewrite (save_rehashed _ _ _ Hnd Hin).
  cbn [fst snd]. split.
  - intros Hfmt Hcmp Hid Httl. unfold validateSession. rewrite Hfmt. cbn [negb].
    unfold validateTokenFromCache, getCachedSessionByAccessToken.
    cbn [redis sessions id rehashed]. unfold cacheAccessToken.
    rewrite get_setex_eq by lia. cbn [cached_id]. rewrite (truthy_ne _ Hid).
    unfold only_access_hash_rewritten.
    rewrite (findOne_id_frame
               (fun x => if String.eqb (id x) (id s) then rehashed h x else x))
      by (intros x; by destruct (String.eqb (id x) (id s))).
    rewrite (findOne_id_NoDup _ _ Hnd Hin). cbn [fmap option_fmap option_map].
    rewrite String.eqb_refl. cbn [expiresAt tokenHash rehashed]. rewrite Hcmp.
    by destruct (Z.ltb_spec now (expiresAt s)); [|lia].
  - intros old Hnew Honly.
    match goal with
    | |- fst ?v = None => destruct (fst v) as [y|] eqn:Hv; [|done]
    end.
    exfalso. apply validateSession_sound in Hv as (_ & Hy & _ & Hc).
    cbn [sessions] in Hy.
    apply only_access_hash_rewritten_elem in Hy as (x & Hx & [[Hid ->]|[Hid ->]]).
    + cbn [tokenHash rehashed] in Hc. congruence.
    + apply Hid. f_equal. by apply Honly.
Qed.

Lemma filter_negb_expired_elem (db : list Session) (s : Session) :
  s ∈ List.filter (fun s => negb (expired now s)) db ↔ s ∈ db ∧ now ≤ expiresAt s.
Proof.
  rewrite !list_elem_of_In, filter_In. unfold expired.
  rewrite negb_true_iff, Z.ltb_ge. done.
Qed.

Lemma cleanupExpiredSessions_sessions (found_at : Z) (st : State) :
  let run := cleanupExpiredSessions found_at now st in
  (fst run = 0%nat ∧ snd run = st) ∨
  (fst run ≠ 0%nat ∧ redis (snd run) = redis st ∧
   sessions (snd run) = List.filter (fun s => negb (expired now s)) (sessions st)).
Proof.
  unfold cleanupExpiredSessions.
  destruct (Nat.eqb_spec (length (List.filter (expired found_at) (sessions st))) 0)
    as [H0|H0]; [by left | by right].
Qed.

Lemma filter_expired_mono (earlier : Z) (db : list Session) :
  earlier ≤ now →
  (length (List.filter (expired earlier) db)
   ≤ length (List.filter (expired now) db))%nat.
Proof.
  intros Hle. induction db as [|x l IH]; simpl; [done|]. unfold expired in *.
  destruct (Z.ltb_spec (expiresAt x) earlier), (Z.ltb_spec (expiresAt x) now);
    simpl; lia.
Qed.

Lemma filter_expired_length (db : list Session) :
  (length (List.filter (fun s => negb (expired now s)) db)
   + length (List.filter (expired now) db) = length db)%nat.
Proof.
  induction db as [|x l IH]; simpl; [done|].
  destruct (expired now x); simpl; lia.
Qed.

Lemma filter_active_kept (later : Z) (db : list Session) :
  now ≤ later →
  List.filter (not_expired later) (List.filter (fun s => negb (expired now s)) db)
  = List.filter (not_expired later) db.
Proof.
  intros Hlater. induction db as [|x l IH]; simpl; [done|].
  unfold expired, not_expired in *.
  destruct (Z.ltb_spec (expiresAt x) now); simpl.
  - destruct (Z.ltb_spec later (expiresAt x)); [lia | done].
  - by rewrite IH.
Qed.

Lemma filter_expired_nil (db : list Session) :
  List.filter (expired now) (List.filter (fun s => negb (expired now s)) db) = [].
Proof.
  induction db as [|x l IH]; simpl; [done|].
  destruct (expired now x) eqn:Hx; simpl; [done|]. by rewrite Hx.
Qed.

(** X21. The scheduled cleanup reads the clock for its query and again
    for its deletion.  It returns the number of sessions whose expiry lies
    before the first reading and leaves the cache alone.  When that number
    is zero nothing changes; otherwise it deletes exactly the sessions
    whose expiry lies before the second reading.  It never deletes a
    session that has not expired by the second reading.  When the clock
    did not go back between the readings, the rows deleted are at least as
    many as the number returned, and exactly as many when the readings
    agree; the number of active sessions at any later time is unchanged;
    and a cleanup whose query reads no later clock than the first one's
    finds nothing to delete. *)
Theorem cleanupExpiredSessions_removes_expired (found_at : Z) (st : State) :
  let count := fst (cleanupExpiredSessions found_at now st) in
  let st' := snd (cleanupExpiredSessions found_at now st) in
  redis st' = redis st ∧
  count = getExpiredSessionsCount found_at st ∧
  (count = 0%nat → st' = st) ∧
  (count ≠ 0%nat → ∀ s, s ∈ sessions st' ↔ s ∈ sessions st ∧ now ≤ expiresAt s) ∧
  (∀ s, s ∈ sessions st' → s ∈ sessions st) ∧
  (∀ s, s ∈ sessions st → now ≤ expiresAt s → s ∈ sessions st') ∧
  (found_at ≤ now →
   (length (sessions st') + count ≤ length (sessions st))%nat ∧
   (∀ later, now ≤ later →
             getActiveSessionsCount later st' = getActiveSessionsCount later st) ∧
   (∀ again deleted_again, again ≤ found_at →
      cleanupExpiredSessions again deleted_again st' = (0%nat, st'))) ∧
  (found_at = now → (length (sessions st') + count = length (sessions st))%nat).
Proof.
  intros count st'.
  assert (count = getExpiredSessionsCount found_at st) as Hcount.
  { unfold count, cleanupExpiredSessions, getExpiredSessionsCount.
    by destruct (Nat.eqb_spec
                   (length (List.filter (expired found_at) (sessions st))) 0). }
  assert (∀ again deleted_again (st0 : State),
            getExpiredSessionsCount again st0 = 0%nat →
            cleanupExpiredSessions again deleted_again st0 = (0%nat, st0)) as Hnone.
  { intros again deleted_again st0 H0. unfold cleanupExpiredSessions.
    unfold getExpiredSessionsCount in H0. by rewrite H0. }
  destruct (cleanupExpiredSessions_sessions found_at st) as [[H0 Hst]|(H0 & Hr & Hs)];
    fold count in H0; fold st' in Hst || fold st' in Hr, Hs.
  - rewrite Hst. repeat (split; [done|]). split.
    + intros Hle. rewrite H0, Nat.add_0_r. split; [done|]. split; [done|].
      intros again deleted_again Hagain. apply Hnone.
      rewrite Hcount in H0. unfold getExpiredSessionsCount in *.
      assert (length (List.filter (expired again) (sessions st))
              ≤ length (List.filter (expired found_at) (sessions st)))%nat; [|lia].
      clear -Hagain. induction (sessions st) as [|x l IH]; simpl; [done|].
      unfold expired in *.
      destruct (Z.ltb_spec (expiresAt x) again), (Z.ltb_spec (expiresAt x) found_at);
        simpl; lia.
    + intros _. rewrite H0. lia.
  - split; [done|]. split; [done|]. split; [done|].
    split; [intros _ s; rewrite Hs; apply filter_negb_expired_elem|].
    split; [intros s; rewrite Hs; by intros [? _]%filter_negb_expired_elem|].
    split; [intros s Hin Hlive; rewrite Hs; by apply filter_negb_expired_elem|].
    split.
    + intros Hle. split; [|split].
      * rewrite Hcount, Hs. unfold getExpiredSessionsCount.
        pose proof (filter_expired_length (sessions st)).
        pose proof (filter_expired_mono found_at (sessions st) Hle). lia.
      * intros later Hlater. unfold getActiveSessionsCount. rewrite Hs. f_equal.
        by apply filter_active_kept.
      * intros again deleted_again Hagain. apply Hnone.
        unfold getExpiredSessionsCount. rewrite Hs.
        assert (List.filter (expired again)
                  (List.filter (fun s => negb (expired now s)) (sessions st)) = [])
          as ->; [|done].
        clear -Hagain Hle. induction (sessions st) as [|x l IH]; simpl; [done|].
        unfold expired in *. destruct (Z.ltb_spec (expiresAt x) now); simpl; [done|].
        destruct (Z.ltb_spec (expiresAt x) again); [lia | done].
    + intros ->. rewrite Hcount, Hs. apply filter_expired_length.
Qed.

Lemma findOne_id_filter (keep : Session → bool) (db : list Session) (sid : string) :
  NoDup (id <$> db) →
  findOne_id (List.filter keep db) sid
  = match findOne_id db sid with
    | Some x => if keep x then Some x else None
    | None => None
    end.
Proof.
  unfold findOne_id. induction db as [|y db IH]; simpl; [done|].
  rewrite NoDup_cons. intros [Hy Hnd].
  destruct (String.eqb_spec (id y) sid) as [Heq|Hne].
  - destruct (keep y) eqn:Hk; simpl; [by rewrite Heq, String.eqb_refl|].
    destruct (List.find _ (List.filter keep db)) as [z|] eqn:Hz; [|done].
    exfalso. apply find_some in Hz as [Hin Hid]. apply filter_In in Hin as [Hin _].
    apply String.eqb_eq in Hid. apply Hy. rewrite Heq, <- Hid.
    apply list_elem_of_fmap. exists z. split; [done | by apply list_elem_of_In].
  - destruct (keep y); simpl; [|by apply IH].
    destruct (String.eqb_spec (id y) sid); [done | by apply IH].
Qed.

(** X22. The cleanup is invisible to validation: with unique ids, at the
    time of its deletion and at any later time, every token validates to
    the same session, and leaves the same cache, whether or not the cleanup
    has run, whatever the clock read for its query. *)
Theorem cleanupExpiredSessions_invisible
        (found_at : Z) (st : State) (later : Z) (token : string) :
  NoDup (id <$> sessions st) → now ≤ later →
  let st' := snd (cleanupExpiredSessions found_at now st) in
  fst (validateSession compare cfg later st' token)
  = fst (validateSession compare cfg later st token) ∧
  redis (snd (validateSession compare cfg later st' token))
  = redis (snd (validateSession compare cfg later st token)).
Proof.
  intros Hnd Hlater st'.
  destruct (cleanupExpiredSessions_sessions found_at st) as [[_ Hst]|(_ & Hr & Hs)];
    fold st' in Hst || fold st' in Hr, Hs; [by rewrite Hst|].
  unfold validateSession. destruct (negb (validateTokenFormat cfg token)); [done|].
  assert (find_recent later (sessions st') = find_recent later (sessions st))
    as Hrecent.
  { unfold find_recent. do 2 f_equal. rewrite Hs. by apply filter_active_kept. }
  assert (∀ r, validateTokenFromDatabase compare cfg later
                 (mkState r (sessions st')) token (getTokenPrefix token)
               = let v := validateTokenFromDatabase compare cfg later
                            (mkState r (sessions st)) token (getTokenPrefix token)
                 in (fst v, mkState (redis (snd v)) (sessions st'))) as Hdb.
  { intros r. unfold validateTokenFromDatabase. cbn [sessions]. rewrite Hrecent.
    by destruct (first_verified compare token (find_recent later (sessions st))). }
  unfold validateTokenFromCache. rewrite Hr, Hs.
  destruct st as [r db]. cbn [redis sessions] in *.
  destruct st' as [r' db']. cbn [redis sessions] in *. subst r' db'.
  destruct (getCachedSessionByAccessToken later r (getTokenPrefix token))
    as [cid|]; [|by rewrite Hdb].
  rewrite (findOne_id_filter _ _ _ Hnd).
  destruct (findOne_id db cid) as [s0|]; [|by rewrite Hdb].
  unfold expired. destruct (Z.ltb_spec (expiresAt s0) now); cbn [negb].
  - destruct (Z.ltb_spec later (expiresAt s0)); [lia|]. by rewrite Hdb.
  - destruct (later <? expiresAt s0); [|by rewrite Hdb].
    destruct (compare token (tokenHash s0)); [done|]. by rewrite Hdb.
Qed.

Lemma validateTokenFromCache_hit (st st1 : State) (token : string) (s : Session) :
  validateTokenFromCache compare now st token (getTokenPrefix token)
  = (Some s, st1) → st1 = st.
Proof.
  unfold validateTokenFromCache.
  destruct (getCachedSessionByAccessToken _ _ _); [|done].
  destruct (findOne_id _ _) as [x|]; [|done].
  destruct (now <? expiresAt x); [|done].
  destruct (compare token (tokenHash x)); [|done]. by intros [= _ <-].
Qed.

(** X23. Validation is repeatable: with unique ids, a token that validated
    to a session validates to the same session when presented again, and
    that second validation is answered by the cache whenever the session id
    is not empty and the time to live chosen for the cache entry is
    positive. *)
Theorem validateSession_repeatable (st st' : State) (token : string) (s : Session) :
  NoDup (id <$> sessions st) →
  validateSession compare cfg now st token = (Some s, st') →
  fst (validateSession compare cfg now st' token) = Some s ∧
  (id s ≠ "" → 0 < Z.min ((expiresAt s - now) / 1000) (ttlSeconds cfg) →
   validateTokenFromCache compare now st' token (getTokenPrefix token)
   = (Some s, st')).
Proof.
  intros Hnd Hv.
  assert (fst (validateSession compare cfg now st token) = Some s) as Hsound
      by (by rewrite Hv).
  apply validateSession_sound in Hsound as (Hfmt & Hin & Hlive & Hcmp).
  assert (∀ st1, sessions st1 = sessions st →
            getCachedSessionByAccessToken now (redis st1) (getTokenPrefix token)
            = Some (id s) →
            validateTokenFromCache compare now st1 token (getTokenPrefix token)
            = (Some s, st1)) as Hhit.
  { intros st1 Hs1 Hc. unfold validateTokenFromCache. rewrite Hc, Hs1.
    rewrite (findOne_id_NoDup _ _ Hnd Hin), Hcmp.
    by destruct (Z.ltb_spec now (expiresAt s)); [|lia]. }
  unfold validateSession in *. rewrite Hfmt in *. cbn [negb] in *.
  destruct (validateTokenFromCache compare now st token (getTokenPrefix token))
    as [[s1|] st1] eqn:Hcache.
  - injection Hv as -> ->. apply validateTokenFromCache_hit in Hcache as Heq.
    subst st'. rewrite Hcache. split; [done|]. by intros _ _.
  - pose proof (validateTokenFromCache_sessions compare cfg now st token
                  (getTokenPrefix token)) as Hs1. rewrite Hcache in Hs1.
    cbn [snd] in Hs1.
    unfold validateTokenFromDatabase in Hv. rewrite Hs1 in Hv.
    destruct (first_verified compare token (find_recent now (sessions st)))
      as [s2|] eqn:Hfv; [|done].
    injection Hv as -> <-.
    assert (sessions (recacheSession cfg now st1 (getTokenPrefix token) s)
            = sessions st) as Hs2 by done.
    split.
    + destruct (validateTokenFromCache compare now
                  (recacheSession cfg now st1 (getTokenPrefix token) s) token
                  (getTokenPrefix token)) as [[s3|] st3] eqn:Hc3.
      * assert (fst (validateSession compare cfg now
                       (recacheSession cfg now st1 (getTokenPrefix token) s)
                       token) = Some s3) as H3.
        { unfold validateSession. rewrite Hfmt. cbn [negb]. by rewrite Hc3. }
        apply validateSession_sound in H3 as (_ & Hin3 & _ & Hcmp3).
        rewrite Hs2 in Hin3. cbn [fst]. f_equal.
        unfold validateTokenFromCache in Hc3.
        destruct (getCachedSessionByAccessToken _ _ _) as [cid|] eqn:Hcid; [|done].
        rewrite Hs2 in Hc3.
        destruct (findOne_id (sessions st) cid) as [s4|] eqn:Hf4; [|done].
        destruct (now <? expiresAt s4); [|done].
        destruct (compare token (tokenHash s4)); [|done].
        injection Hc3 as -> _.
        apply findOne_id_elem in Hf4 as [_ Hid4].
        unfold getCachedSessionByAccessToken, recacheSession, cacheAccessToken
          in Hcid. cbn [redis] in Hcid.
        unfold Redis.get, Redis.setex in Hcid. rewrite lookup_insert_eq in Hcid.
        destruct (Redis.live now _); [|done]. cbn [Redis.value cached_id] in Hcid.
        destruct (Js.truthy (id s)); [|done]. injection Hcid as <-.
        by apply (NoDup_id_eq (sessions st)).
      * pose proof (validateTokenFromCache_sessions compare cfg now
                      (recacheSession cfg now st1 (getTokenPrefix token) s) token
                      (getTokenPrefix token)) as Hs3. rewrite Hc3 in Hs3.
        cbn [snd] in Hs3. unfold validateTokenFromDatabase.
        rewrite Hs3, Hs2, Hfv. done.
    + intros Hid Httl. apply Hhit; [done|].
      unfold getCachedSessionByAccessToken, recacheSession, cacheAccessToken.
      cbn [redis]. rewrite get_setex_eq by lia. cbn [cached_id].
      by rewrite (truthy_ne _ Hid).
Qed.

End Compare.

End SessionExtras.

(** ** Further properties of the auth guard *)

Section GuardExtras.
Import Auth Guard.
Open Scope Z_scope.

Lemma append_String (a : ascii) (t r : string) :
  String a t ++ r = String a (t ++ r).
Proof. reflexivity. Qed.

Lemma append_empty_l (r : string) : "" ++ r = r.
Proof. reflexivity. Qed.

Lemma append_empty_r (t : string) : t ++ "" = t.
Proof. induction t as [|a t IH]; [done|]. by rewrite append_String, IH. Qed.

Lemma split_space_cons (s : string) : ∃ w ws, split_space s = w :: ws.
Proof.
  induction s as [|c s IH]; simpl; [by eexists _, _|].
  destruct IH as (w & ws & ->). destruct (Ascii.eqb c " "); by eexists _, _.
Qed.

Lemma split_space_head (s w : string) (ws : list string) :
  split_space s = w :: ws →
  match ws with
  | [] => s = w
  | b :: l => ∃ r, s = w ++ " " ++ r ∧ split_space r = b :: l
  end.
Proof.
  revert w ws. induction s as [|c s IH]; intros w ws; simpl.
  - by intros [= <- <-].
  - destruct (split_space_cons s) as (w' & ws' & Hs). rewrite Hs.
    specialize (IH _ _ Hs).
    destruct (Ascii.eqb_spec c " ") as [->|Hc].
    + intros [= <- <-]. by exists s.
    + intros [= <- <-]. destruct ws' as [|b l].
      * by rewrite IH.
      * destruct IH as (r & -> & Hr). by exists r.
Qed.

Lemma all_hex_split_space (t : string) :
  all_hex t = true → split_space t = [t].
Proof.
  induction t as [|c t IH]; simpl; [done|].
  intros [Hc Ht]%andb_true_iff. rewrite (IH Ht).
  destruct (Ascii.eqb_spec c " ") as [->|_]; [|done].
  by vm_compute in Hc.
Qed.

(** X24. The guard lets a request through only on a verified session: when
    [canActivate] returns true, the Authorization header is [Bearer],
    one space and a non-empty token (possibly followed by more), that token
    has the valid format and verifies against the access hash of a stored,
    unexpired session, and [request.user] carries that session's user and id.
    The session table is left as it was. *)
Theorem canActivate_only_on_verified_session
        (compare : string → string → bool) (cfg : Config) (now : Z)
        (st st' : State) (req : Request) (user sessionId : string) :
  canActivate compare cfg now st req = (Activated user sessionId, st') →
  ∃ token rest s,
    authorization req = Some ("Bearer " ++ token ++ rest) ∧ token ≠ "" ∧
    validateTokenFormat cfg token = true ∧
    s ∈ sessions st ∧ now < expiresAt s ∧ compare token (tokenHash s) = true ∧
    user = userId s ∧ sessionId = id s ∧ sessions st' = sessions st.
Proof.
  unfold canActivate.
  destruct (extractTokenFromHeader req) as [token|] eqn:Hext; [|done].
  destruct (Js.truthy token) eqn:Htok; [|done]. cbn [negb].
  destruct (validateSession compare cfg now st token) as [[s|] st1] eqn:Hv;
    [|done].
  destruct (_ && _ && _); [done|]. intros [= <- <- <-].
  pose proof (validateSession_sessions compare cfg now st token) as Hsess.
  assert (fst (validateSession compare cfg now st token) = Some s) as Hs
      by (by rewrite Hv).
  apply validateSession_sound in Hs as (Hfmt & Hin & Hlive & Hcmp).
  rewrite Hv in Hsess. cbn [snd] in Hsess.
  unfold extractTokenFromHeader in Hext.
  destruct (authorization req) as [h|]; [|done].
  destruct (negb (Js.truthy h)); [done|].
  destruct (split_space h) as [|type [|tok ws]] eqn:Hsplit; [done..|].
  destruct (String.eqb_spec type "Bearer") as [->|]; [|done].
  injection Hext as ->.
  apply split_space_head in Hsplit as (r & -> & Hr).
  apply split_space_head in Hr.
  assert (∃ rest, r = token ++ rest) as [rest ->].
  { destruct ws as [|b l].
    - exists "". by rewrite Hr, append_empty_r.
    - destruct Hr as (r' & -> & _). by eexists. }
  exists token, rest, s. split; [done|]. split.
  - intros ->. done.
  - done.
Qed.

(** X25. A well-formed bearer header with a token that validates is let
    through, with [request.user] set from the session, whenever IP
    validation is switched off or the client address of the request is the
    one stored with the session.  The user agent plays no part. *)
Theorem canActivate_accepts_valid_bearer
        (compare : string → string → bool) (cfg : Config) (now : Z)
        (st st' : State) (req : Request) (token : string) (s : Session) :
  authorization req = Some ("Bearer " ++ token) →
  validateSession compare cfg now st token = (Some s, st') →
  enableIpValidation cfg = false ∨
  or_else (ip req) (remoteAddress req) = ipAddress s →
  canActivate compare cfg now st req = (Activated (userId s) (id s), st').
Proof.
  intros Hauth Hv Hip.
  assert (fst (validateSession compare cfg now st token) = Some s) as Hs
      by (by rewrite Hv).
  apply validateSession_sound in Hs as (Hfmt & _).
  unfold validateTokenFormat in Hfmt.
  apply andb_true_iff in Hfmt as [[Htruthy _]%andb_true_iff Hhex].
  assert (extractTokenFromHeader req = Some token) as Hext.
  { unfold extractTokenFromHeader. rewrite Hauth.
    rewrite !append_String, append_empty_l.
    cbn [Js.truthy String.eqb negb split_space].
    rewrite (all_hex_split_space _ Hhex). done. }
  unfold canActivate. rewrite Hext, Htruthy, Hv. cbn [negb].
  destruct Hip as [-> | Hsame]; [done|].
  rewrite Hsame. unfold opt_eqb at 2. rewrite bool_decide_eq_true_2 by done.
  cbn [negb]. by rewrite !andb_false_r.
Qed.

End GuardExtras.

(** ** Further properties of the group data, the worker and the dispatcher *)

Section WorkerExtras.
Import Js Scoring ScoringSpec Worker Dispatcher.
Open Scope Z_scope.

Lemma push_team_get (g tid : string) (acc : CorrectGroups) (g' : string) :
  Js.get (push_team g tid acc) g'
  = if String.eqb g' g then Some (default [] (Js.get acc g) ++ [tid])%list
    else Js.get acc g'.
Proof.
  induction acc as [|[k ts] rest IH]; simpl.
  - by destruct (String.eqb g' g).
  - destruct (String.eqb_spec k g) as [->|Hk]; simpl.
    + rewrite String.eqb_refl. by destruct (String.eqb g' g).
    + rewrite IH. destruct (String.eqb_spec g k) as [->|_]; [done|].
      destruct (String.eqb_spec g' k) as [->|_]; [|done].
      by destruct (String.eqb_spec k g).
Qed.

Lemma push_team_keys (g tid : string) (acc : CorrectGroups) :
  (push_team g tid acc).*1
  = if bool_decide (g ∈ acc.*1) then acc.*1 else (acc.*1 ++ [g])%list.
Proof.
  induction acc as [|[k ts] rest IH]; [done|]. cbn [push_team].
  destruct (String.eqb_spec k g) as [->|Hk]; rewrite !fmap_cons; cbn [fst].
  - rewrite bool_decide_eq_true_2; [done | left].
  - rewrite IH. destruct (decide (g ∈ rest.*1)) as [Hin|Hin].
    + rewrite !bool_decide_eq_true_2; [done | by right | done].
    + rewrite !bool_decide_eq_false_2; [done | | done].
      rewrite elem_of_cons. intros [?|?]; congruence.
Qed.

Lemma group_teams_from (ts : list Team) (acc : CorrectGroups) (g : string) :
  g ≠ "" →
  Js.get (fold_left (fun groups team =>
                       match group team with
                       | Some g => if Js.truthy g
                                   then push_team g (team_id team) groups
                                   else groups
                       | None => groups
                       end) ts acc) g
  = match team_id <$> List.filter (fun t => bool_decide (group t = Some g)) ts with
    | [] => Js.get acc g
    | l => Some (default [] (Js.get acc g) ++ l)%list
    end.
Proof.
  intros Hg. revert acc. induction ts as [|t ts IH]; intros acc; [done|].
  cbn [fold_left]. rewrite IH. cbn [List.filter].
  destruct (group t) as [g0|] eqn:Hgt.
  - destruct (decide (g0 = g)) as [->|Hne].
    + rewrite bool_decide_eq_true_2 by done.
      rewrite (truthy_ne _ Hg), fmap_cons, push_team_get, String.eqb_refl.
      cbn [default].
      destruct (team_id <$> List.filter _ ts) as [|x l]; [done|].
      unfold id. by rewrite <- app_assoc.
    + rewrite bool_decide_eq_false_2 by congruence.
      destruct (Js.truthy g0); [|done].
      rewrite push_team_get. by destruct (String.eqb_spec g g0); [congruence|].
  - by rewrite bool_decide_eq_false_2.
Qed.

Lemma group_teams_keys (ts : list Team) (acc : CorrectGroups) :
  NoDup (acc.*1) → "" ∉ acc.*1 →
  let m := fold_left (fun groups team =>
                        match group team with
                        | Some g => if Js.truthy g
                                    then push_team g (team_id team) groups
                                    else groups
                        | None => groups
                        end) ts acc in
  NoDup (m.*1) ∧ "" ∉ m.*1.
Proof.
  revert acc. induction ts as [|t ts IH]; intros acc Hnd He; [done|].
  cbn [fold_left]. apply IH.
  - destruct (group t) as [g0|]; [|done]. destruct (Js.truthy g0); [|done].
    rewrite push_team_keys. destruct (decide (g0 ∈ acc.*1)).
    + by rewrite bool_decide_eq_true_2.
    + rewrite bool_decide_eq_false_2 by done.
      apply NoDup_app. split; [done|]. split; [|apply NoDup_singleton].
      intros x Hx ->%list_elem_of_singleton. done.
  - destruct (group t) as [g0|]; [|done]. unfold Js.truthy.
    destruct (String.eqb_spec g0 ""); [done|]. cbn [negb].
    rewrite push_team_keys. destruct (bool_decide _); [done|].
    rewrite elem_of_app, list_elem_of_singleton. intros [?|?]; [done|congruence].
Qed.

(** X26. The grouping that [getCorrectGroups] builds from the team table is
    a partition by label: labels are distinct and never empty, and under
    each non-empty label stand exactly the ids of the teams carrying that
    label, in table order; a label no team carries is absent.  Teams whose
    group is null or empty are left out. *)
Theorem group_teams_partition (ts : list Team) :
  NoDup ((group_teams ts).*1) ∧ "" ∉ (group_teams ts).*1 ∧
  ∀ g, g ≠ "" →
    Js.get (group_teams ts) g
    = match team_id <$> List.filter (fun t => bool_decide (group t = Some g)) ts with
      | [] => None
      | l => Some l
      end.
Proof.
  destruct (group_teams_keys ts []) as [Hnd He];
    [apply NoDup_nil_2 | apply not_elem_of_nil|].
  split; [done|]. split; [done|].
  intros g Hg. unfold group_teams. by rewrite group_teams_from.
Qed.

(** X27. [getCorrectGroups] answers from the cache once it has answered at
    all: a second call at the same time returns the same groups without
    writing, whatever the team table holds by then; and after a cache miss
    the groups computed from the table are served unchanged during the
    next 3600 seconds, even when the table has changed. *)
Theorem getCorrectGroups_cached
        (now : Z) (st : State) (g : CorrectGroups) (r1 : gmap string Redis.Entry) :
  getCorrectGroups now st = Some (g, r1) →
  (∀ ts ps rs n,
     getCorrectGroups now (mkState ts ps rs n r1) = Some (g, r1)) ∧
  (Redis.truthy (Redis.get now (redis st) CORRECT_GROUPS) = false →
   g = group_teams (teams st) ∧
   ∀ later ts ps rs n,
     later < now + CACHE_TTL_CORRECT_GROUPS * 1000 →
     getCorrectGroups later (mkState ts ps rs n r1) = Some (g, r1)).
Proof.
  unfold getCorrectGroups.
  destruct (Redis.truthy (Redis.get now (redis st) CORRECT_GROUPS)) eqn:Htr.
  - destruct (Redis.get now (redis st) CORRECT_GROUPS) as [[| |d|g0]|] eqn:Hget;
      try done.
    intros [= -> <-]. split; [|done].
    intros ts ps rs n. cbn [redis]. by rewrite Hget.
  - intros [= <- <-].
    assert (∀ later, later < now + CACHE_TTL_CORRECT_GROUPS * 1000 →
              Redis.get later
                (Redis.setex now (redis st) CORRECT_GROUPS CACHE_TTL_CORRECT_GROUPS
                   (Redis.GroupsJson (group_teams (teams st)))) CORRECT_GROUPS
              = Some (Redis.GroupsJson (group_teams (teams st)))) as Hhit
        by (intros later Hl; by apply get_setex_eq).
    split; [|split; [done|]].
    + intros ts ps rs n. cbn [redis].
      rewrite Hhit by (unfold CACHE_TTL_CORRECT_GROUPS; lia). done.
    + intros later ts ps rs n Hl. cbn [redis]. by rewrite Hhit.
Qed.

(** X28. The worker takes the owner from the stored prediction, not from
    the job: the user id of a job is only checked for being a non-empty
    string, so two well-formed jobs for the same submission are handled
    identically; a row that is written carries the submission's id, the
    user id stored with the prediction, the time of processing, and one
    of the seven scores. *)
Theorem processPredictionJob_owner_from_prediction
        (now : Z) (job : PredictionJob) (st : State) :
  (∀ job', well_formed job → well_formed job' →
           job_predictionId job' = job_predictionId job →
           processPredictionJob now job' st = processPredictionJob now job st) ∧
  (∀ row, results (snd (processPredictionJob now job st))
          = (results st ++ [row])%list →
          predictionId row = job_submission job ∧ processedAt row = now ∧
          totalScore row ∈ score_values ∧
          ∃ p, p ∈ predictions st ∧ prediction_id p = job_submission job ∧
               result_userId row = prediction_userId p).
Proof.
  split.
  - intros job' [Hp Hu] [Hp' Hu'] Heq. unfold processPredictionJob.
    by rewrite Hp, Hu, Hp', Hu', Heq.
  - intros row. unfold processPredictionJob, job_submission.
    assert (∀ l : list Result, l ≠ (l ++ [row])%list) as Hneq.
    { intros l H. apply (f_equal length) in H. rewrite length_app in H.
      simpl in H. lia. }
    destruct (invalid_id (job_predictionId job)); [by intros ?%Hneq|].
    destruct (invalid_id (job_userId job)); [by intros ?%Hneq|].
    destruct (List.find _ (results st)) as [r0|]; [by intros ?%Hneq|].
    destruct (List.find _ (predictions st)) as [p0|] eqn:Hpred;
      [|by intros ?%Hneq].
    destruct (getCorrectGroups now st) as [[correct r1]|]; [|by intros ?%Hneq].
    apply find_some in Hpred as [Hin Hpid]. apply String.eqb_eq in Hpid.
    unfold scoreUser.
    destruct (iterable (flattenPredictionGroups (predict p0))) as [u|];
      [|by intros ?%Hneq].
    assert (score (Scoring.scoreUser
                     (team_id <$> getTeamByName IRAN_TEAM_NAME (teams st))
                     u correct)
            ∈ score_values) as Hscore.
    { rewrite scoreUser_score. apply list_elem_of_In. unfold score_values.
      destruct (rule _); cbn [In SCORES]; tauto. }
    destruct (Redis.incr now r1 STATS_PROCESSED) as [[n r2]|]; cbn [snd results];
      intros [= <-]%app_inv_head; cbn [predictionId processedAt totalScore
                                        result_userId];
      (split; [done|]); (split; [done|]); (split; [done|]);
      exists p0; (split; [by apply list_elem_of_In | done]).
Qed.

Lemma NoDup_prediction_id (ps : list Prediction) (p q : Prediction) :
  NoDup (prediction_id <$> ps) → p ∈ ps → q ∈ ps →
  prediction_id p = prediction_id q → p = q.
Proof.
  induction ps as [|x ps IH]; [by intros _ ?%elem_of_nil|].
  rewrite fmap_cons, NoDup_cons. intros [Hx Hnd] Hp Hq Heq.
  apply elem_of_cons in Hp as [->|Hp]; apply elem_of_cons in Hq as [->|Hq].
  - done.
  - exfalso. apply Hx. rewrite Heq. apply list_elem_of_fmap. by exists q.
  - exfalso. apply Hx. rewrite <- Heq. apply list_elem_of_fmap. by exists p.
  - by apply IH.
Qed.

Lemma processPredictionJob_fresh (now : Z) (p : Prediction) (st : State) (n : Z) :
  NoDup (prediction_id <$> predictions st) →
  p ∈ predictions st → prediction_id p ≠ "" → prediction_userId p ≠ "" →
  all_arrays (predict p) = true →
  rows_of (prediction_id p) (results st) = [] →
  groups_cache_ok (redis st) → processed_is (redis st) n →
  ∃ row r2,
    processPredictionJob now (job_of p) st
    = (None, mkState (teams st) (predictions st) (results st ++ [row])%list
                     (N.succ (next_result_id st)) r2) ∧
    predictionId row = prediction_id p ∧ groups_cache_ok r2 ∧
    processed_is r2 (n + 1) ∧ r2 !! STATS_TOTAL = redis st !! STATS_TOTAL.
Proof.
  intros Hnd Hin Hid Huid Harr Hrows Hok Hn. unfold processPredictionJob, job_of.
  cbn [job_predictionId job_userId invalid_id default from_option].
  rewrite (truthy_ne _ Hid), (truthy_ne _ Huid). cbn [negb]. unfold id.
  apply find_rows_of in Hrows. rewrite Hrows.
  destruct (List.find _ (predictions st)) as [p0|] eqn:Hfind.
  2:{ apply list_elem_of_In in Hin.
      pose proof (find_none _ _ Hfind p Hin) as Hno. cbn beta in Hno.
      by rewrite String.eqb_refl in Hno. }
  apply find_some in Hfind as [Hin0 Hp0]. apply String.eqb_eq in Hp0.
  apply list_elem_of_In in Hin0.
  pose proof (NoDup_prediction_id _ _ _ Hnd Hin0 Hin Hp0) as ->.
  destruct (getCorrectGroups_ok now st Hok) as (g & r1 & -> & Hok1 & Hsame).
  pose proof (iterable_all_arrays (predict p)) as Hit. rewrite Harr in Hit.
  destruct Hit as [u Hu]. unfold scoreUser. rewrite Hu.
  assert (r1 !! STATS_PROCESSED = Some (Redis.mkEntry (Redis.Num n) None)) as Hn1.
  { rewrite Hsame; [done|]. by vm_compute. }
  unfold Redis.incr. rewrite Hn1. cbn [Redis.live Redis.expireAt Redis.value].
  eexists _, _. split; [reflexivity|]. split; [done|]. split; [|split].
  - intros e. rewrite lookup_insert_ne by (by vm_compute). apply Hok1.
  - unfold processed_is. by rewrite lookup_insert_eq.
  - rewrite lookup_insert_ne by (by vm_compute). apply Hsame. by vm_compute.
Qed.

Lemma process_all_fresh (ps : list Prediction) :
  ∀ (handled : list (Z * PredictionJob)) (st : State) (n : Z),
    handled.*2 = job_of <$> ps →
    NoDup (prediction_id <$> ps) →
    NoDup (prediction_id <$> predictions st) →
    (∀ p, p ∈ ps → p ∈ predictions st ∧ prediction_id p ≠ "" ∧
                   prediction_userId p ≠ "" ∧
                   all_arrays (predict p) = true ∧
                   rows_of (prediction_id p) (results st) = []) →
    groups_cache_ok (redis st) → processed_is (redis st) n →
    ∃ rows,
      results (process_all handled st) = (results st ++ rows)%list ∧
      predictionId <$> rows = prediction_id <$> ps ∧
      predictions (process_all handled st) = predictions st ∧
      processed_is (redis (process_all handled st)) (n + Z.of_nat (length ps)) ∧
      redis (process_all handled st) !! STATS_TOTAL = redis st !! STATS_TOTAL.
Proof.
  induction ps as [|p ps IH]; intros handled st n Hh Hnd Hall Hps Hok Hn.
  - destruct handled; [|done]. exists []. cbn [process_all fold_left length].
    rewrite app_nil_r, Z.add_0_r. done.
  - destruct handled as [|[t j] handled]; [done|].
    rewrite !fmap_cons in Hh. cbn [snd] in Hh. injection Hh as -> Hh.
    rewrite fmap_cons in Hnd. apply NoDup_cons in Hnd as [Hp Hnd].
    destruct (Hps p) as (Hin & Hid & Huid & Harr & Hrows); [left|].
    destruct (processPredictionJob_fresh t p st n Hall Hin Hid Huid Harr Hrows
                Hok Hn)
      as (row & r2 & Hrun & Hrow & Hok2 & Hn2 & Htot).
    unfold process_all. cbn [fold_left]. rewrite Hrun. cbn [snd].
    set (st1 := mkState (teams st) (predictions st) (results st ++ [row])%list
                        (N.succ (next_result_id st)) r2).
    fold (process_all handled st1).
    destruct (IH handled st1 (n + 1) Hh Hnd)
      as (rows & Hres & Hids & Hpred & Hn3 & Ht3); [done| |done|done|].
    + intros q Hq.
      destruct (Hps q) as (Hqin & Hqid & Hquid & Hqarr & Hqrows); [by right|].
      unfold st1. cbn [predictions results]. rewrite rows_of_app, Hqrows.
      repeat (split; [done|]). unfold rows_of. cbn [List.filter app].
      destruct (String.eqb_spec (predictionId row) (prediction_id q)) as [Heq|];
        [|done].
      exfalso. apply Hp. rewrite <- Hrow, Heq. apply list_elem_of_fmap. by exists q.
    + exists (row :: rows). rewrite Hres, Hpred, Ht3. unfold st1.
      cbn [results predictions redis].
      rewrite <- app_assoc. split; [done|]. split.
      { by rewrite !fmap_cons, Hrow, Hids. }
      split; [done|]. split; [|done].
      cbn [length]. replace (n + Z.of_nat (S (length ps)))
        with (n + 1 + Z.of_nat (length ps)) by lia. done.
Qed.

Lemma existsb_rows_of (pid : string) (rs : list Result) :
  existsb (fun r => String.eqb (predictionId r) pid) rs = false
  ↔ rows_of pid rs = [].
Proof.
  unfold rows_of. induction rs as [|r rs IH]; simpl; [done|].
  destruct (String.eqb (predictionId r) pid); [done | exact IH].
Qed.

Lemma rows_of_NoDup (pid : string) (rows : list Result) :
  NoDup (predictionId <$> rows) → (length (rows_of pid rows) ≤ 1)%nat.
Proof.
  induction rows as [|r rows IH]; [simpl; lia|].
  rewrite fmap_cons, NoDup_cons. intros [Hr Hnd]. unfold rows_of. cbn [List.filter].
  destruct (String.eqb_spec (predictionId r) pid) as [Heq|Hne]; [|by apply IH].
  fold (rows_of pid rows).
  destruct (rows_of pid rows) as [|x l] eqn:Hx; [simpl; lia|].
  exfalso. apply Hr.
  assert (x ∈ rows_of pid rows) as Hxin by (rewrite Hx; left).
  unfold rows_of in Hxin. apply list_elem_of_In, filter_In in Hxin as [Hxin Hxp].
  apply String.eqb_eq in Hxp. rewrite Heq, <- Hxp.
  apply list_elem_of_fmap. exists x. split; [done | by apply list_elem_of_In].
Qed.

(** X29. Dispatching and then handling every queued job settles the whole
    table.  From a state without statistics, with distinct non-empty
    prediction ids, where the groups of every prediction without a result
    are arrays, once the consumer has handled each job the dispatcher
    handed to the broker: no prediction is left without a result, exactly
    one row was added per queued prediction, submissions that already had
    rows kept them unchanged, no submission has more than one row if none
    had before, and the reported status is total = processed and
    pending = 0. *)
Theorem dispatch_then_process_all
        (now : Z) (sent : PredictionJob → bool) (st : State)
        (handled : list (Z * PredictionJob)) :
  let q := queueAllPredictionsForProcessing now sent st in
  let st2 := process_all handled q.2 in
  NoDup (prediction_id <$> predictions st) →
  (∀ p, p ∈ predictions st → prediction_id p ≠ "" ∧ prediction_userId p ≠ "") →
  (∀ p, p ∈ unprocessed st → all_arrays (predict p) = true) →
  groups_cache_ok (redis st) →
  Redis.truthy (Redis.get now (redis st) STATS_TOTAL) = false →
  handled.*2 = q.1.2 →
  (q.1.1.1 ≤ q.1.1.2)%nat ∧ q.1.1.2 = length (unprocessed st) ∧
  unprocessed st2 = [] ∧
  length (results st2) = (length (results st) + q.1.1.2)%nat ∧
  (∀ pid, rows_of pid (results st) ≠ [] →
          rows_of pid (results st2) = rows_of pid (results st)) ∧
  (at_most_one_result st → at_most_one_result st2) ∧
  ∀ later, getProcessingStatus later st2
           = Some (Z.of_nat q.1.1.2, Z.of_nat q.1.1.2, 0).
Proof.
  intros q st2 Hnd Hids Harrays Hok Hfresh Hh.
  unfold q, queueAllPredictionsForProcessing in Hh. cbn [fst snd] in Hh.
  unfold st2, q, queueAllPredictionsForProcessing. cbn [fst snd].
  rewrite Hfresh. cbn [negb].
  set (T := length (unprocessed st)).
  set (st1 := mkState _ _ _ _ _).
  assert (∀ p, p ∈ unprocessed st →
            p ∈ predictions st ∧ rows_of (prediction_id p) (results st) = [])
    as Hun.
  { intros p Hp. unfold unprocessed in Hp.
    apply list_elem_of_In, filter_In in Hp as [Hp Hno].
    split; [by apply list_elem_of_In|].
    apply negb_true_iff in Hno. by apply existsb_rows_of. }
  assert (NoDup (prediction_id <$> unprocessed st)) as Hnd'.
  { unfold unprocessed. clear -Hnd.
    induction (predictions st) as [|x l IH]; [done|].
    rewrite fmap_cons in Hnd. apply NoDup_cons in Hnd as [Hx Hnd].
    cbn [List.filter]. destruct (negb _); [|by apply IH].
    rewrite fmap_cons. apply NoDup_cons. split; [|by apply IH].
    intros Hin. apply Hx. apply list_elem_of_fmap in Hin as (y & -> & Hy).
    apply list_elem_of_fmap. exists y. split; [done|].
    apply list_elem_of_In, filter_In in Hy as [Hy _]. by apply list_elem_of_In. }
  destruct (process_all_fresh (unprocessed st) handled st1 0 Hh Hnd' Hnd)
    as (rows & Hres & Hrids & Hpred & Hproc & Htot).
  { intros p Hp. destruct (Hun p Hp) as [Hin Hrows].
    destruct (Hids p Hin) as [Hid Huid]. by rewrite (Harrays p Hp). }
  { intros e. unfold st1. cbn [redis]. unfold Redis.set.
    rewrite !lookup_insert_ne by (by vm_compute). apply Hok. }
  { unfold processed_is, st1. cbn [redis]. unfold Redis.set.
    by rewrite lookup_insert_eq. }
  cbn [results predictions redis st1] in Hres, Hpred, Htot.
  fold st1.
  assert (length rows = T) as Hlen.
  { unfold T. rewrite <- (length_fmap predictionId rows), Hrids.
    by rewrite length_fmap. }
  assert (∀ pid, rows_of pid (results st) ≠ [] → rows_of pid rows = []) as Hold.
  { intros pid Hpid. unfold rows_of.
    destruct (List.filter _ rows) as [|x l] eqn:Hx; [done|]. exfalso.
    assert (x ∈ List.filter (fun r => String.eqb (predictionId r) pid) rows)
      as Hxin by (rewrite Hx; left).
    apply list_elem_of_In, filter_In in Hxin as [Hxin Hxp].
    apply String.eqb_eq in Hxp.
    assert (pid ∈ prediction_id <$> unprocessed st) as Hp.
    { rewrite <- Hrids, <- Hxp. apply list_elem_of_fmap. exists x.
      split; [done | by apply list_elem_of_In]. }
    apply list_elem_of_fmap in Hp as (p & -> & Hp).
    destruct (Hun p Hp) as [_ Hnone]. done. }
  split; [|split; [done|split; [|split; [|split; [|split]]]]].
  - unfold T. rewrite <- (length_map job_of (unprocessed st)).
    apply filter_length_le.
  - unfold unprocessed. rewrite Hpred, Hres.
    assert (∀ l, (∀ p, p ∈ l → p ∈ predictions st) →
              List.filter
                (fun p => negb (existsb
                                  (fun r => String.eqb (predictionId r)
                                                       (prediction_id p))
                                  (results st ++ rows)))
                l = []) as Hall.
    { induction l as [|p l IH]; intros Hl; [done|]. cbn [List.filter].
      rewrite IH by (intros x Hx; apply Hl; by right).
      rewrite existsb_app.
      destruct (existsb _ (results st)) eqn:He; [done|]. cbn [orb].
      assert (p ∈ unprocessed st) as Hp.
      { unfold unprocessed. apply list_elem_of_In, filter_In.
        split; [apply list_elem_of_In, Hl; left | by rewrite He]. }
      assert (prediction_id p ∈ predictionId <$> rows) as Hrow.
      { rewrite Hrids. apply list_elem_of_fmap. by exists p. }
      apply list_elem_of_fmap in Hrow as (row & Heq & Hrow).
      assert (existsb (fun r => String.eqb (predictionId r) (prediction_id p)) rows
              = true) as ->; [|done].
      apply existsb_exists. exists row. split; [by apply list_elem_of_In|].
      by apply String.eqb_eq. }
    by apply Hall.
  - rewrite Hres, length_app. lia.
  - intros pid Hpid. rewrite Hres, rows_of_app, (Hold pid Hpid).
    by rewrite app_nil_r.
  - intros Hone pid. rewrite Hres, rows_of_app, length_app.
    destruct (rows_of pid (results st)) as [|x l] eqn:Hx.
    + cbn [length]. apply rows_of_NoDup. by rewrite Hrids.
    + rewrite (Hold pid) by (by rewrite Hx). rewrite <- Hx.
      unfold at_most_one_result in Hone. specialize (Hone pid).
      cbn [length]. lia.
  - intros later. unfold getProcessingStatus, Redis.get.
    rewrite Htot, Hproc. unfold Redis.set.
    rewrite lookup_insert_ne by (by vm_compute). rewrite lookup_insert_eq.
    cbn [Redis.live Redis.expireAt Redis.value counter].
    do 2 f_equal; lia.
Qed.



Lemma insert_asc_perm (p : Prediction) (l : list Prediction) :
  insert_asc p l ≡ₚ p :: l.
Proof.
  induction l as [|x l IH]; [done|]. cbn [insert_asc].
  destruct (prediction_createdAt p <? prediction_createdAt x); [done|].
  rewrite IH. apply Permutation_swap.
Qed.

Lemma order_createdAt_asc_perm (l : list Prediction) :
  order_createdAt_asc l ≡ₚ l.
Proof.
  unfold order_createdAt_asc. induction l as [|x l IH]; [done|].
  cbn [foldr]. by rewrite insert_asc_perm, IH.
Qed.

Lemma score_page_arrays (clock : nat → Z) (iranTeamId : option string)
      (correct : CorrectGroups) (page : list Prediction) :
  (∀ p, p ∈ page → all_arrays (predict p) = true) →
  ∀ number next_id,
    ∃ rows, score_page clock iranTeamId correct number next_id page = inl rows ∧
            predictionId <$> rows = prediction_id <$> page.
Proof.
  induction page as [|p page IH]; intros Harr number next_id; [by exists []|].
  cbn [score_page].
  pose proof (iterable_all_arrays (predict p)) as Hit.
  rewrite (Harr p) in Hit by left. destruct Hit as [u Hu].
  unfold scoreUser. rewrite Hu.
  destruct (IH (λ q Hq, Harr q (proj2 (elem_of_cons _ _ _) (or_intror Hq)))
               (S number) (N.succ next_id)) as (rows & -> & Hids).
  eexists. split; [reflexivity|]. by rewrite !fmap_cons, Hids.
Qed.

Lemma batch_pages_all (clock : nat → Z) (batchSize : nat)
      (iranTeamId : option string) (correct : CorrectGroups)
      (sorted : list Prediction) :
  (1 ≤ batchSize)%nat →
  (∀ p, p ∈ sorted → all_arrays (predict p) = true) →
  ∀ fuel offset rs next_id,
    (length sorted - offset < fuel)%nat →
    ∃ rows next_id',
      batch_pages fuel clock batchSize iranTeamId correct sorted offset rs next_id
      = (None, ((rs ++ rows)%list, next_id')) ∧
      predictionId <$> rows = prediction_id <$> drop offset sorted.
Proof.
  intros Hsize Harr. induction fuel as [|fuel IH]; intros offset rs next_id Hfuel;
    [lia|].
  cbn [batch_pages].
  destruct (take batchSize (drop offset sorted)) as [|x page] eqn:Hpage.
  - apply take_nil_inv in Hpage as [?| ->]; [lia|].
    exists [], next_id. by rewrite app_nil_r.
  - destruct (score_page_arrays clock iranTeamId correct (x :: page))
      with (number := offset) (next_id := next_id) as (rows1 & -> & Hids1).
    { intros q Hq. apply Harr. rewrite <- Hpage in Hq.
      by apply subseteq_take, subseteq_drop in Hq. }
    assert (length (drop offset sorted) ≠ 0)%nat as Hlen.
    { intros H0. apply length_zero_iff_nil in H0. by rewrite H0, take_nil in Hpage. }
    rewrite length_drop in Hlen.
    destruct (IH (offset + batchSize)%nat (rs ++ rows1)%list
                 (next_id + N.of_nat (length rows1))%N)
      as (rows2 & next_id' & -> & Hids2); [lia|].
    exists (rows1 ++ rows2)%list, next_id'. rewrite app_assoc. split; [done|].
    rewrite fmap_app, Hids1, Hids2, <- Hpage, <- fmap_app.
    by rewrite <- drop_drop, take_drop.
Qed.

Lemma rows_of_listed (pid : string) (rows : list Result) :
  pid ∈ predictionId <$> rows → rows_of pid rows ≠ [].
Proof.
  intros (row & -> & Hrow)%list_elem_of_fmap Hnone.
  apply find_rows_of in Hnone. apply list_elem_of_In in Hrow.
  pose proof (find_none _ _ Hnone row Hrow) as Hno. cbn beta in Hno.
  by rewrite String.eqb_refl in Hno.
Qed.

(** X31. The synchronous mode scores every stored prediction, whether it
    has a result or not.  With a page size of at least one, every stored
    group an array and a cached grouping that [getCorrectGroups] wrote,
    [processPredictionBatch] returns without error and appends one row per
    stored prediction, in the order of creation; so every stored
    submission has more result rows than it had before. *)
Theorem processPredictionBatch_scores_all
        (now : Z) (clock : nat → Z) (batchSize : nat) (st : State) :
  (1 ≤ batchSize)%nat →
  (∀ p, p ∈ predictions st → all_arrays (predict p) = true) →
  groups_cache_ok (redis st) →
  let run := processPredictionBatch now clock batchSize st in
  ∃ rows,
    fst run = None ∧
    results (snd run) = (results st ++ rows)%list ∧
    predictionId <$> rows = prediction_id <$> order_createdAt_asc (predictions st) ∧
    predictions (snd run) = predictions st ∧
    ∀ p, p ∈ predictions st →
         (length (rows_of (prediction_id p) (results st))
          < length (rows_of (prediction_id p) (results (snd run))))%nat.
Proof.
  intros Hsize Harr Hok. cbn zeta. unfold processPredictionBatch.
  destruct (getCorrectGroups_ok now st Hok) as (correct & r1 & -> & _).
  destruct (batch_pages_all clock batchSize
              (team_id <$> getTeamByName IRAN_TEAM_NAME (teams st)) correct
              (order_createdAt_asc (predictions st)) Hsize)
    with (fuel := S (length (order_createdAt_asc (predictions st))))
         (offset := 0%nat) (rs := results st) (next_id := next_result_id st)
    as (rows & next_id' & -> & Hids).
  { intros p Hp. apply Harr. by rewrite <- (order_createdAt_asc_perm _). }
  { lia. }
  rewrite drop_0 in Hids. exists rows. cbn [fst snd results predictions].
  repeat (split; [done|]).
  intros p Hp. rewrite rows_of_app, length_app.
  assert (rows_of (prediction_id p) rows ≠ []) as Hrow.
  { apply rows_of_listed. rewrite Hids. apply list_elem_of_fmap. exists p.
    split; [done|]. by rewrite (order_createdAt_asc_perm _). }
  destruct (rows_of (prediction_id p) rows); [done|]. cbn [length]. lia.
Qed.

End WorkerExtras.

(** ** The further properties at concrete inputs *)

Import Scenario Examples.
Open Scope Z_scope.


Lemma verifyOtp_locked_out_witness :
  fst (OtpVerify.verifyOtp verify_cfg 1000 "u1" locked_state phone0 sent_code)
  = inr (Otp.TooManyRequestsException "EXCEEDED_VERIFICATION_ATTEMPTS").
Proof.
  apply (verifyOtp_locked_out verify_cfg 1000 5 "u1" locked_state phone0 sent_code).
  - reflexivity.
  - simpl. lia.
  - intros v H. vm_compute in H. discriminate.
Defined.

Lemma verifyOtp_wrong_code_keeps_otp_witness :
  fst (OtpVerify.verifyOtp verify_cfg 1000 "u1" (OtpVerify.mkState sent_cache [])
         phone0 "000000")
  = inr (Otp.BadRequestException "INVALID_OTP_CODE").
Proof.
  apply (verifyOtp_wrong_code_keeps_otp verify_cfg 1000 1 "u1"
           (OtpVerify.mkState sent_cache [])
           (<[OtpVerify.attemptKey phone0 := Redis.mkEntry (Redis.Num 1) None]>
              sent_cache)
           phone0 "000000"
           (Redis.mkOtpData sent_code 120000 0 phone0 "10.0.0.1" "Mozilla/5.0")).
  - reflexivity.
  - simpl. lia.
  - reflexivity.
  - simpl. lia.
  - intros H. vm_compute in H. discriminate.
  - intros v H. vm_compute in H. discriminate.
Defined.

Lemma sendOtp_once_per_cooldown_witness :
  Otp.sendOtp otp_cfg (Otp.mkWorld 1000 (Otp.mkDraw 1 3) (fun _ _ => None))
              sent_cache phone0 "10.0.0.2" "curl/8"
  = (inr (Otp.TooManyRequestsException "EXCEEDED_SEND_LIMIT"), sent_cache).
Proof.
  apply (sendOtp_once_per_cooldown otp_cfg otp_cfg sms_up
           (Otp.mkWorld 1000 (Otp.mkDraw 1 3) (fun _ _ => None)) ∅ sent_cache
           phone0 "10.0.0.1" "Mozilla/5.0" "10.0.0.2" "curl/8" None).
  - reflexivity.
  - simpl. lia.
Defined.

Lemma deleteSession_revokes_token_witness :
  fst (Auth.validateSession toy_compare cfg0 5000
         (Auth.deleteSession state0 "u4" "s4") token_d) = None.
Proof.
  apply (deleteSession_revokes_token toy_compare cfg0 5000 state0 "u4" "s4" token_d).
  intros s Hs Hc. simpl in Hs.
  repeat (apply elem_of_cons in Hs as [->|Hs];
          [first [ split; reflexivity | vm_compute in Hc; discriminate ]|]).
  by apply elem_of_nil in Hs.
Defined.

Lemma createSession_tokens_usable_witness :
  let run := Sessions.createSession cfg0 5000 state0 "u9" "10.0.0.9" "curl/8" "s9"
               (token_new, toy_hash token_new) (refresh_new, toy_hash refresh_new) in
  Auth.validateSession toy_compare cfg0 6000 run.2 token_new
  = (Some run.1.1.1, run.2).
Proof.
  intros run.
  destruct (createSession_tokens_usable toy_compare cfg0 5000 state0 run.2
              "u9" "10.0.0.9" "curl/8" "s9"
              (token_new, toy_hash token_new) (refresh_new, toy_hash refresh_new)
              6000 run.1.1.1 run.1.1.2 run.1.2)
    as (_ & Hvalid & _).
  - reflexivity.
  - apply (bool_decide_unpack _). vm_compute. exact I.
  - discriminate.
  - simpl. lia.
  - apply Hvalid.
    + reflexivity.
    + reflexivity.
    + simpl. lia.
Defined.

Lemma refreshSession_rotates_access_token_witness :
  let st' := snd (Auth.refreshSession toy_compare cfg0 5000 state0 refresh_a
                    (token_new, toy_hash token_new)) in
  Auth.validateSession toy_compare cfg0 5000 st' token_new
  = (Some (AuthSpec.rehashed (toy_hash token_new) s1), st') ∧
  fst (Auth.validateSession toy_compare cfg0 5000 st' token_a) = None.
Proof.
  intros st'.
  assert (NoDup (Auth.id <$> Auth.sessions state0)) as Hnd
      by (apply (bool_decide_unpack _); vm_compute; exact I).
  destruct (refreshSession_rotates_access_token toy_compare cfg0 5000 state0 st'
              refresh_a (token_new, toy_hash token_new) token_new s1 Hnd)
    as [Hnew Hold].
  - reflexivity.
  - reflexivity.
  - split.
    + apply Hnew; [reflexivity | reflexivity
                   | discriminate | simpl; lia].
    + apply Hold; [reflexivity|].
      intros x Hx Hc. simpl in Hx.
      repeat (apply elem_of_cons in Hx as [->|Hx];
              [first [ reflexivity | vm_compute in Hc; discriminate ]|]).
      by apply elem_of_nil in Hx.
Defined.

Lemma cleanupExpiredSessions_invisible_witness :
  let st' :=
    snd (Sessions.cleanupExpiredSessions (two_expired - 1) two_expired state0) in
  fst (Auth.validateSession toy_compare cfg0 two_expired st' token_d)
  = fst (Auth.validateSession toy_compare cfg0 two_expired state0 token_d).
Proof.
  intros st'.
  assert (NoDup (Auth.id <$> Auth.sessions state0)) as Hnd
      by (apply (bool_decide_unpack _); vm_compute; exact I).
  apply (cleanupExpiredSessions_invisible toy_compare cfg0 two_expired
           (two_expired - 1) state0 two_expired token_d Hnd).
  lia.
Defined.

Lemma validateSession_repeatable_witness :
  let st' := snd (Auth.validateSession toy_compare cfg0 5000 state0 token_d) in
  fst (Auth.validateSession toy_compare cfg0 5000 st' token_d) = Some s4.
Proof.
  intros st'.
  assert (NoDup (Auth.id <$> Auth.sessions state0)) as Hnd
      by (apply (bool_decide_unpack _); vm_compute; exact I).
  apply (validateSession_repeatable toy_compare cfg0 5000 state0 st' token_d s4 Hnd).
  reflexivity.
Defined.

Lemma canActivate_only_on_verified_session_witness :
  ∃ token rest,
    Guard.authorization request_home = Some ("Bearer " ++ token ++ rest) ∧
    token ≠ "".
Proof.
  destruct (canActivate_only_on_verified_session toy_compare cfg0 5000 state0
              (snd (Guard.canActivate toy_compare cfg0 5000 state0 request_home))
              request_home "u4" "s4")
    as (token & rest & s & Hauth & Htok & _).
  - reflexivity.
  - exists token, rest. split; [exact Hauth | exact Htok].
Defined.

Lemma canActivate_accepts_valid_bearer_witness :
  fst (Guard.canActivate toy_compare cfg0 5000 state0 request_home)
  = Guard.Activated "u4" "s4".
Proof.
  rewrite (canActivate_accepts_valid_bearer toy_compare cfg0 5000 state0
             (snd (Auth.validateSession toy_compare cfg0 5000 state0 token_d))
             request_home token_d s4).
  - reflexivity.
  - reflexivity.
  - reflexivity.
  - right. reflexivity.
Defined.

Lemma getCorrectGroups_cached_witness :
  let g := [("A", ["t1"; "t2"]); ("B", ["t3"; "t4"])] in
  let r1 := Redis.setex 0 ∅ Worker.CORRECT_GROUPS 3600 (Redis.GroupsJson g) in
  Worker.getCorrectGroups 3599999 (Worker.mkState [] [] [] 0 r1) = Some (g, r1).
Proof.
  intros g r1.
  destruct (getCorrectGroups_cached 0 small_state g r1) as [_ Hmiss].
  - reflexivity.
  - destruct Hmiss as [_ Hlater]; [reflexivity|].
    apply Hlater. reflexivity.
Defined.


Lemma processPredictionBatch_scores_all_witness :
  ∃ rows,
    fst (Worker.processPredictionBatch 2000 (fun _ => 2000) 1000 scored_by_worker)
    = None ∧
    Worker.results scored_again = (Worker.results scored_by_worker ++ rows)%list ∧
    Worker.predictionId <$> rows = ["p1"].
Proof.
  destruct (processPredictionBatch_scores_all 2000 (fun _ => 2000) 1000%nat
              scored_by_worker)
    as (rows & Hout & Hres & Hids & _).
  - lia.
  - intros p Hp. apply list_elem_of_In in Hp. vm_compute in Hp.
    destruct Hp as [<-|[]]. reflexivity.
  - intros e He. vm_compute in He. injection He as <-. eexists. reflexivity.
  - exists rows. split; [exact Hout|]. split; [exact Hres | exact Hids].
Defined.

Lemma dispatch_then_process_all_witness :
  let q := Dispatcher.queueAllPredictionsForProcessing 0 (fun _ => true)
             small_state in
  Dispatcher.getProcessingStatus 9 (Dispatcher.process_all [(5, job_p1)] q.2)
  = Some (1, 1, 0).
Proof.
  intros q.
  destruct (dispatch_then_process_all 0 (fun _ => true) small_state [(5, job_p1)])
    as (_ & _ & _ & _ & _ & _ & Hstatus).
  - apply (bool_decide_unpack _). vm_compute. exact I.
  - intros p Hp. simpl in Hp. apply elem_of_cons in Hp as [->|Hp].
    + split; discriminate.
    + by apply elem_of_nil in Hp.
  - intros p Hp. apply list_elem_of_In in Hp. destruct Hp as [<-|[]].
    reflexivity.
  - intros e He. simpl in He. rewrite lookup_empty in He. discriminate.
  - reflexivity.
  - reflexivity.
  - exact (Hstatus 9).
Defined.

